(** * micrograd: the scalar autograd engine ([micrograd/engine.py])

    A shallow embedding of the class [Value] and of its backward pass.

    - Python numbers are [int] (unbounded, [Z]) or [float] (binary64, the
      kernel's primitive floats), with Python's mixed arithmetic.
    - Objects live in a store indexed by allocation order; a reference to a
      [Value] object is its index.
    - A method is a computation over the store that returns a result,
      raises an exception, or is undefined when it follows a reference that
      the store does not hold (which Python cannot do).
    - The recursion of [build_topo] nests one call for each object on a chain
      of operands. [backward] is the pass with room to spare for it;
      [Stack.backward] is the pass under the interpreter's limit. *)

From Stdlib Require Import ZArith Floats.
From stdpp Require Import base option list gmap strings.

Local Open Scope Z_scope.

(** ** Python numbers *)

Inductive pynum : Type :=
  | PyInt (z : Z)
  | PyFloat (f : float).

(** The errors of Python's arithmetic on [int] and [float]. *)
Inductive arith_error : Type :=
  | IntTooLarge       (* OverflowError: int too large to convert to float *)
  | ResultTooLarge    (* OverflowError: numerical result out of range *)
  | ZeroToNegative.   (* ZeroDivisionError: zero to a negative power *)

Inductive arith (A : Type) : Type :=
  | Fine (a : A)
  | Fails (e : arith_error).
Arguments Fine {A} a.
Arguments Fails {A} e.

(** [float(z)]: the nearest binary64 (ties to even); Python refuses an int
    whose nearest binary64 would be infinite. *)
Definition float_of_int (z : Z) : arith float :=
  let f := SF2Prim (binary_normalize prec emax z 0 false) in
  if PrimFloat.is_infinity f then Fails IntTooLarge else Fine f.

Definition as_float (n : pynum) : arith float :=
  match n with
  | PyInt z => float_of_int z
  | PyFloat f => Fine f
  end.

(** A binary operation with a float operand: both sides are taken as floats. *)
Definition float_op (op : float → float → float) (a b : pynum) : arith pynum :=
  match as_float a with
  | Fails e => Fails e
  | Fine x =>
      match as_float b with
      | Fails e => Fails e
      | Fine y => Fine (PyFloat (op x y))
      end
  end.

(** [a + b], [a * b], [a - b]: exact on two ints, binary64 otherwise. *)
Definition py_add (a b : pynum) : arith pynum :=
  match a, b with
  | PyInt x, PyInt y => Fine (PyInt (x + y))
  | _, _ => float_op PrimFloat.add a b
  end.

Definition py_mul (a b : pynum) : arith pynum :=
  match a, b with
  | PyInt x, PyInt y => Fine (PyInt (x * y))
  | _, _ => float_op PrimFloat.mul a b
  end.

Definition py_sub (a b : pynum) : arith pynum :=
  match a, b with
  | PyInt x, PyInt y => Fine (PyInt (x - y))
  | _, _ => float_op PrimFloat.sub a b
  end.

(** Unary minus on a number. *)
Definition py_neg (a : pynum) : pynum :=
  match a with
  | PyInt x => PyInt (- x)
  | PyFloat f => PyFloat (PrimFloat.opp f)
  end.

(** [a > 0]: false on NaN and on both zeros. *)
Definition py_gt_zero (a : pynum) : bool :=
  match a with
  | PyInt x => 0 <? x
  | PyFloat f => PrimFloat.ltb PrimFloat.zero f
  end.

(** [a <= 0]: false on NaN. *)
Definition py_le_zero (a : pynum) : bool :=
  match a with
  | PyInt x => x <=? 0
  | PyFloat f => PrimFloat.leb f PrimFloat.zero
  end.

(** [max(0, a)]: the builtin keeps its first argument, the int [0], unless
    the second is strictly greater. *)
Definition py_max_zero (a : pynum) : pynum :=
  if py_gt_zero a then a else PyInt 0.

(** [a == 0]. *)
Definition py_is_zero (a : pynum) : bool :=
  match a with
  | PyInt x => x =? 0
  | PyFloat f => PrimFloat.eqb f PrimFloat.zero
  end.

(** Python's [**] on int and float is the interpreter's and the C library's,
    not this repository's: the engine is verified for every power function.
    Its errors are those of Python's arithmetic. (A negative base with a
    fractional exponent, where Python answers a complex number, is outside
    the numbers modelled here.) *)
Class PowerOp : Type := py_pow : pynum → pynum → arith pynum.

Local Close Scope Z_scope.

(** ** Exceptions and outcomes *)

Inductive exn : Type :=
  | Exception (msg : string)    (* the engine's own [raise Exception(...)] *)
  | OverflowError
  | ZeroDivisionError
  | TypeError
  | RecursionError.             (* maximum recursion depth exceeded *)

Definition exn_of_arith (e : arith_error) : exn :=
  match e with
  | IntTooLarge | ResultTooLarge => OverflowError
  | ZeroToNegative => ZeroDivisionError
  end.

Inductive outcome (A : Type) : Type :=
  | Ok (a : A)
  | Raise (e : exn)
  | Undefined.     (* a reference outside the store: no Python run gets here *)
Arguments Ok {A} a.
Arguments Raise {A} e.
Arguments Undefined {A}.

(** ** Objects and the store *)

(** A reference to a [Value] object: its position in allocation order. *)
Abbreviation ref := nat.

(** The string kept in [_op]: [''], ['+'], ['*'], ['**'] followed by the
    exponent, ['ReLU']. *)
Inductive op_tag : Type :=
  | OpNone
  | OpAdd
  | OpMul
  | OpPow (power : pynum)
  | OpReLU.

(** The function kept in [_backward], with the variables it closes over. *)
Inductive closure : Type :=
  | NoBackward                                      (* [lambda: None] *)
  | AddBackward (self other out : ref)              (* in [__add__] *)
  | MulBackward (self other out : ref)              (* in [__mul__] *)
  | PowBackward (self : ref) (power : pynum) (out : ref)   (* in [__pow__] *)
  | ReluBackward (self out : ref).                  (* in [relu] *)

(** The attributes of a [Value] object. [_prev] is a Python set: it is kept
    as the list of its elements in the order the set iterates them. *)
Record Value : Type := mkValue {
  data : pynum;
  grad : pynum;
  _backward : closure;
  _label : string;
  _prev : list ref;
  _op : op_tag
}.

Definition with_grad (g : pynum) (v : Value) : Value :=
  mkValue (data v) g (_backward v) (_label v) (_prev v) (_op v).

Definition with_backward (f : closure) (v : Value) : Value :=
  mkValue (data v) (grad v) f (_label v) (_prev v) (_op v).

(** What a run does to gradients, as ghost state: assignments, in-place
    additions and the calls of the stored backward functions. *)
Inductive event : Type :=
  | SetGrad (v : ref) (g : pynum)      (* [v.grad = g] *)
  | AddGrad (v : ref) (c : pynum)      (* [v.grad += c] *)
  | Call (v : ref).                    (* [v._backward()] *)

Record config : Type := mkConfig {
  store : list Value;
  trace : list event
}.

(** An argument of a method, as [isinstance] sees it. *)
Inductive pyobj : Type :=
  | ObjValue (r : ref)              (* [isinstance(other, Value)] *)
  | ObjNum (n : pynum)              (* [isinstance(other, (int, float))] *)
  | ObjOther (type_name : string).  (* anything else, with its class name *)

(** [f"{type(other)}"]. *)
Definition type_repr (o : pyobj) : string :=
  match o with
  | ObjValue _ => "<class 'micrograd.engine.Value'>"
  | ObjNum (PyInt _) => "<class 'int'>"
  | ObjNum (PyFloat _) => "<class 'float'>"
  | ObjOther name => "<class '" +:+ name +:+ "'>"
  end.

(** The iteration order of [set(t)] for a tuple [t] of references: some
    sequence of the distinct elements of [t]. Python fixes it by the
    objects' addresses; the engine is verified for every such order. *)
Class SetOrder : Type := {
  set_of : list ref → list ref;
  set_of_NoDup : ∀ t, NoDup (set_of t);
  set_of_elem : ∀ t x, x ∈ set_of t ↔ x ∈ t
}.

(** ** Computations over the store *)

Definition M (A : Type) : Type := config → outcome A * config.

#[global] Instance M_ret : MRet M := λ A a c, (Ok a, c).

#[global] Instance M_bind : MBind M := λ A B k m c,
  match m c with
  | (Ok a, c') => k a c'
  | (Raise e, c') => (Raise e, c')
  | (Undefined, c') => (Undefined, c')
  end.

Definition raise {A : Type} (e : exn) : M A := λ c, (Raise e, c).

Definition num {A : Type} (r : arith A) : M A :=
  match r with
  | Fine a => mret a
  | Fails e => raise (exn_of_arith e)
  end.

Definition alloc (v : Value) : M ref := λ c,
  (Ok (length (store c)), mkConfig (store c ++ [v]) (trace c)).

Definition load (r : ref) : M Value := λ c,
  match store c !! r with
  | Some v => (Ok v, c)
  | None => (Undefined, c)
  end.

Definition update (r : ref) (f : Value → Value) : M unit := λ c,
  match store c !! r with
  | Some v => (Ok tt, mkConfig (<[r := f v]> (store c)) (trace c))
  | None => (Undefined, c)
  end.

Definition emit (e : event) : M unit := λ c,
  (Ok tt, mkConfig (store c) (trace c ++ [e])).

(** [r.grad = g]. *)
Definition assign_grad (r : ref) (g : pynum) : M unit :=
  update r (with_grad g);; emit (SetGrad r g).

(** [r.grad += rhs]: the attribute is read, the right-hand side evaluated,
    the sum stored. *)
Definition iadd_grad (r : ref) (rhs : M pynum) : M unit :=
  v ← load r;
  t ← rhs;
  s ← num (py_add (grad v) t);
  update r (with_grad s);;
  emit (AddGrad r t).

Fixpoint for_each (vs : list ref) (body : ref → M unit) : M unit :=
  match vs with
  | [] => mret tt
  | v :: vs' => body v;; for_each vs' body
  end.

(** ** The class [Value] *)

Section Engine.
Context {pow : PowerOp} {order : SetOrder}.

(** [Value(data, _label, _prev, _op)]. *)
Definition __init__ (d : pynum) (label : string) (prev : list ref) (op : op_tag)
    : M ref :=
  alloc {| data := d;
           grad := PyFloat 0;
           _backward := NoBackward;
           _label := label;
           _prev := set_of prev;
           _op := op |}.

(** The first lines of [__add__] and [__mul__]: [other] is a [Value], or an
    int or float that is wrapped into a new one, or the method raises. *)
Definition as_value (verb : string) (other : pyobj) : M ref :=
  match other with
  | ObjValue o => mret o
  | ObjNum n => __init__ n "" [] OpNone
  | ObjOther _ =>
      raise (Exception ("Can't " +:+ verb +:+
                        " an instance of type Value with an instance of type "
                        +:+ type_repr other))
  end.

Definition __add__ (self : ref) (other : pyobj) : M ref :=
  other ← as_value "add" other;
  s ← load self;
  o ← load other;
  sum ← num (py_add (data s) (data o));
  out ← __init__ sum "" [self; other] OpAdd;
  update out (with_backward (AddBackward self other out));;
  mret out.

Definition __mul__ (self : ref) (other : pyobj) : M ref :=
  other ← as_value "multiply" other;
  s ← load self;
  o ← load other;
  prod ← num (py_mul (data s) (data o));
  out ← __init__ prod "" [self; other] OpMul;
  update out (with_backward (MulBackward self other out));;
  mret out.

Definition __pow__ (self : ref) (power : pyobj) : M ref :=
  match power with
  | ObjNum p =>
      s ← load self;
      x ← num (py_pow (data s) p);
      out ← __init__ x "" [self] (OpPow p);
      update out (with_backward (PowBackward self p out));;
      mret out
  | _ =>
      raise (Exception ("Can't raise an instance of type Value to an instance of type "
                        +:+ type_repr power))
  end.

Definition relu (self : ref) : M ref :=
  s ← load self;
  out ← __init__ (py_max_zero (data s)) "" [self] OpReLU;
  update out (with_backward (ReluBackward self out));;
  mret out.

(** The nested functions [backward] of the four operations, called through
    [_backward]. *)
Definition call (f : closure) : M unit :=
  match f with
  | NoBackward => mret tt
  | AddBackward self other out =>
      iadd_grad self (o ← load out; num (py_mul (PyInt 1) (grad o)));;
      iadd_grad other (o ← load out; num (py_mul (PyInt 1) (grad o)))
  | MulBackward self other out =>
      iadd_grad self
        (v ← load other; o ← load out; num (py_mul (data v) (grad o)));;
      iadd_grad other
        (v ← load self; o ← load out; num (py_mul (data v) (grad o)))
  | PowBackward self power out =>
      iadd_grad self
        (s ← load self;
         e ← num (py_sub power (PyInt 1));
         w ← num (py_pow (data s) e);
         x ← num (py_mul power w);
         o ← load out;
         num (py_mul x (grad o)))
  | ReluBackward self out =>
      iadd_grad self
        (s ← load self;
         o ← load out;
         num (py_mul (PyInt (if py_gt_zero (data s) then 1 else 0)) (grad o)))
  end.

(** The loop [for child in v._prev: build_topo(child)], for a given
    [build_topo]. *)
Fixpoint visit_all {S : Type} (visit : ref → S → option S) (children : list ref)
    (acc : S) : option S :=
  match children with
  | [] => Some acc
  | child :: rest =>
      match visit child acc with
      | Some acc' => visit_all visit rest acc'
      | None => None
      end
  end.

(** The nested function [build_topo] of [backward], on the variables
    [visited] and [topo] it updates. [depth] bounds the nesting of the
    recursive calls; [None] when it is exceeded or [v] is not in the store. *)
Fixpoint build_topo (depth : nat) (st : list Value) (v : ref)
    (acc : gset ref * list ref) : option (gset ref * list ref) :=
  match depth with
  | O => None
  | S depth' =>
      let '(visited, topo) := acc in
      if decide (v ∈ visited) then Some acc
      else
        match st !! v with
        | None => None
        | Some node =>
            match visit_all (build_topo depth' st) (_prev node)
                    ({[v]} ∪ visited, topo) with
            | None => None
            | Some (visited', topo') => Some (visited', topo' ++ [v])
            end
        end
  end.

(** [backward], when the interpreter has room for the recursion of
    [build_topo]: the calls then nest at most as deep as the store has
    objects, the depth given here. The recursion limit is in
    [Stack.backward] below, which is this pass when the room suffices and
    [RecursionError] when it does not. *)
Definition backward (self : ref) : M (list ref) := λ c,
  match build_topo (length (store c)) (store c) self (∅, []) with
  | None => (Undefined, c)
  | Some (_, topo) =>
      (assign_grad self (PyInt 1);;
       for_each (reverse topo) (λ v, n ← load v; emit (Call v);; call (_backward n));;
       mret topo) c
  end.

Definition __neg__ (self : ref) : M ref :=
  __mul__ self (ObjNum (PyInt (-1)%Z)).

Definition __radd__ (self : ref) (other : pyobj) : M ref :=
  __add__ self other.

Definition __rmul__ (self : ref) (other : pyobj) : M ref :=
  __mul__ self other.

(** [-other]: [__neg__] on a [Value], Python's minus on a number. An object
    of another type stands for one whose type has no unary minus, as [str],
    [list] or [None]: Python raises [TypeError]. (A type with a minus of its
    own, as [complex], is outside the model.) *)
Definition neg_obj (other : pyobj) : M pyobj :=
  match other with
  | ObjValue o => r ← __neg__ o; mret (ObjValue r)
  | ObjNum n => mret (ObjNum (py_neg n))
  | ObjOther _ => raise TypeError
  end.

(** [other ** -1]: [__pow__] on a [Value], Python's power on a number. An
    object of another type stands for one whose type has no power, as [str],
    [list] or [None]: Python raises [TypeError]. (A type with a power of its
    own, as [complex], is outside the model.) *)
Definition pow_obj (other : pyobj) (p : pynum) : M pyobj :=
  match other with
  | ObjValue o => r ← __pow__ o (ObjNum p); mret (ObjValue r)
  | ObjNum n => x ← num (py_pow n p); mret (ObjNum x)
  | ObjOther _ => raise TypeError
  end.

(** [other * t] for a [Value] [t]: [__mul__] of [other] when it is a
    [Value], else the reflected [t.__rmul__(other)]. *)
Definition mul_obj (other : pyobj) (t : ref) : M ref :=
  match other with
  | ObjValue o => __mul__ o (ObjValue t)
  | _ => __rmul__ t other
  end.

Definition __sub__ (self : ref) (other : pyobj) : M ref :=
  n ← neg_obj other; __add__ self n.

Definition __rsub__ (self : ref) (other : pyobj) : M ref :=
  n ← neg_obj other; __add__ self n.

Definition __truediv__ (self : ref) (other : pyobj) : M ref :=
  t ← pow_obj other (PyInt (-1)%Z); __mul__ self t.

Definition __rtruediv__ (self : ref) (other : pyobj) : M ref :=
  t ← __pow__ self (ObjNum (PyInt (-1)%Z)); mul_obj other t.

End Engine.

(** ** The interpreter's recursion limit

    [build_topo] calls itself once for each object on the way down a chain of
    operands, and Python grants only so many nested calls: when the limit is
    reached the call raises [RecursionError]. [backward] above is the pass
    with room to spare; [Stack.backward] is the pass with [room] nested calls
    left when [build_topo] is first called. Nothing else in the pass nests
    calls: a backward function calls no function of Python's, so that the
    loop needs one frame, which a [build_topo] that returned has had. *)

(** What a recursion returns that the interpreter may cut short. *)
Inductive walk (A : Type) : Type :=
  | Walked (a : A)
  | TooDeep        (* [RecursionError] *)
  | Dangling.      (* a reference outside the store: no Python run gets here *)
Arguments Walked {A} a.
Arguments TooDeep {A}.
Arguments Dangling {A}.

Module Stack.

(** The loop [for child in v._prev: build_topo(child)]: an exception of a
    call ends it. *)
Fixpoint visit_all {S : Type} (visit : ref → S → walk S) (children : list ref)
    (acc : S) : walk S :=
  match children with
  | [] => Walked acc
  | child :: rest =>
      match visit child acc with
      | Walked acc' => visit_all visit rest acc'
      | TooDeep => TooDeep
      | Dangling => Dangling
      end
  end.

(** [build_topo], with [room] nested calls left: the call itself takes one,
    before it looks at [visited]. *)
Fixpoint build_topo (room : nat) (st : list Value) (v : ref)
    (acc : gset ref * list ref) : walk (gset ref * list ref) :=
  match room with
  | O => TooDeep
  | S room' =>
      let '(visited, topo) := acc in
      if decide (v ∈ visited) then Walked acc
      else
        match st !! v with
        | None => Dangling
        | Some node =>
            match visit_all (build_topo room' st) (_prev node)
                    ({[v]} ∪ visited, topo) with
            | Walked (visited', topo') => Walked (visited', topo' ++ [v])
            | TooDeep => TooDeep
            | Dangling => Dangling
            end
        end
  end.

(** [backward]: a [RecursionError] of [build_topo] leaves the method before
    the seed is assigned; [visited] and [topo] are its local variables, so
    that nothing of the walk remains. *)
Definition backward {pow : PowerOp} (room : nat) (self : ref) : M (list ref) := λ c,
  match build_topo room (store c) self (∅, []) with
  | TooDeep => (Raise RecursionError, c)
  | Dangling => (Undefined, c)
  | Walked (_, topo) =>
      (assign_grad self (PyInt 1);;
       for_each (reverse topo) (λ v, n ← load v; emit (Call v);; call (_backward n));;
       mret topo) c
  end.

End Stack.

(** ** Sample instances, for running the engine *)

(** A set that iterates its elements in the order of first insertion, and one
    that iterates them the other way round. *)
#[refine] Definition insertion_order : SetOrder :=
  {| set_of := remove_dups |}.
Proof.
  - apply NoDup_remove_dups.
  - intros t x. apply elem_of_remove_dups.
Defined.

#[refine] Definition reverse_order : SetOrder :=
  {| set_of := λ t, reverse (remove_dups t) |}.
Proof.
  - intros t. rewrite (reverse_Permutation (remove_dups t)). apply NoDup_remove_dups.
  - intros t x. rewrite elem_of_reverse. apply elem_of_remove_dups.
Defined.

(** [x ** n] for a float [x] and a natural [n], by repeated multiplication. *)
Fixpoint float_power (x : float) (n : nat) : float :=
  match n with
  | O => PrimFloat.one
  | S n' => PrimFloat.mul x (float_power x n')
  end.

(** A power function on int exponents. An int base with an exponent [>= 0]
    gives the exact int; zero to a negative exponent is refused, as Python
    refuses it; the exponent [-1] gives the correctly rounded reciprocal.
    Other int exponents go by repeated multiplication, and an exponent that is
    a float gives NaN: no statement below depends on those two cases. *)
Definition int_power : PowerOp := λ x p,
  (match p with
  | PyInt e =>
      match x with
      | PyInt b =>
          if 0 <=? e then Fine (PyInt (b ^ e))
          else if b =? 0 then Fails ZeroToNegative
          else match float_of_int b with
               | Fine f => Fine (PyFloat (PrimFloat.div PrimFloat.one
                                            (float_power f (Z.to_nat (- e)))))
               | Fails err => Fails err
               end
      | PyFloat f =>
          if 0 <=? e then Fine (PyFloat (float_power f (Z.to_nat e)))
          else if PrimFloat.eqb f PrimFloat.zero then Fails ZeroToNegative
          else Fine (PyFloat (PrimFloat.div PrimFloat.one
                                (float_power f (Z.to_nat (- e)))))
      end
  | PyFloat _ => Fine (PyFloat PrimFloat.nan)
  end)%Z.

(** The configuration of a program that has built no object yet. *)
Definition start : config := mkConfig [] [].

(** * Reasoning about computations *)

Lemma bind_run {A B : Type} (m : M A) (k : A → M B) (c : config) :
  (m ≫= k) c = match m c with
               | (Ok a, c') => k a c'
               | (Raise e, c') => (Raise e, c')
               | (Undefined, c') => (Undefined, c')
               end.
Proof. reflexivity. Qed.

(** A computation that leaves the configuration as it found it. *)
Definition readonly {A : Type} (m : M A) : Prop := ∀ c, (m c).2 = c.

Lemma readonly_ret {A : Type} (a : A) : readonly (mret a).
Proof. intros c. reflexivity. Qed.

Lemma readonly_raise {A : Type} (e : exn) : readonly (@raise A e).
Proof. intros c. reflexivity. Qed.

Lemma readonly_num {A : Type} (r : arith A) : readonly (num r).
Proof. intros c. destruct r; reflexivity. Qed.

Lemma readonly_load (r : ref) : readonly (load r).
Proof. intros c. unfold load. destruct (store c !! r); reflexivity. Qed.

Lemma readonly_bind {A B : Type} (m : M A) (k : A → M B) :
  readonly m → (∀ a, readonly (k a)) → readonly (m ≫= k).
Proof.
  intros Hm Hk c. rewrite bind_run. specialize (Hm c).
  destruct (m c) as [[a|e|] c1]; simpl in Hm; subst c1; try reflexivity.
  apply Hk.
Qed.

Create HintDb readonly.

#[local] Hint Resolve readonly_ret readonly_raise readonly_num readonly_load
  readonly_bind : readonly.

Lemma readonly_run {A : Type} (m : M A) (c : config) :
  readonly m → m c = ((m c).1, c).
Proof. intros H. specialize (H c). destruct (m c) as [o c']. simpl in *. congruence. Qed.

(** ** The configuration after one more object *)

Definition push (c : config) (v : Value) : config :=
  mkConfig (store c ++ [v]) (trace c).

(** [c'] holds the objects of [c], unchanged, and then new ones; nothing
    happened to a gradient. *)
Definition extends (c c' : config) : Prop :=
  ∃ new, c' = mkConfig (store c ++ new) (trace c).

Lemma extends_refl (c : config) : extends c c.
Proof. exists []. destruct c. simpl. by rewrite app_nil_r. Qed.

Lemma extends_trans (c1 c2 c3 : config) :
  extends c1 c2 → extends c2 c3 → extends c1 c3.
Proof.
  intros [n1 ->] [n2 ->]. exists (n1 ++ n2). simpl. by rewrite app_assoc.
Qed.

Lemma extends_push (c : config) (v : Value) : extends c (push c v).
Proof. by exists [v]. Qed.

Lemma extends_lookup (c c' : config) (i : ref) (n : Value) :
  extends c c' → store c !! i = Some n → store c' !! i = Some n.
Proof. intros [new ->] H. simpl. by apply lookup_app_l_Some. Qed.

Lemma extends_length (c c' : config) :
  extends c c' → length (store c) ≤ length (store c').
Proof. intros [new ->]. simpl. rewrite length_app. lia. Qed.

Lemma extends_trace (c c' : config) : extends c c' → trace c' = trace c.
Proof. by intros [new ->]. Qed.

(** A computation that only adds objects, whatever its outcome. *)
Definition grows {A : Type} (m : M A) : Prop :=
  ∀ c, extends c (m c).2.

Lemma grows_readonly {A : Type} (m : M A) : readonly m → grows m.
Proof. intros H c. rewrite H. apply extends_refl. Qed.

Lemma grows_bind {A B : Type} (m : M A) (k : A → M B) :
  grows m → (∀ a, grows (k a)) → grows (m ≫= k).
Proof.
  intros Hm Hk c. rewrite bind_run. specialize (Hm c).
  destruct (m c) as [[a|e|] c1]; simpl in *; try done.
  eapply extends_trans; [exact Hm | apply Hk].
Qed.

Section EngineFacts.
Context {pow : PowerOp} {order : SetOrder}.

(** The object a method leaves behind: built by [__init__], then given its
    [_backward]. *)
Definition new_object (d : pynum) (f : closure) (prev : list ref) (op : op_tag) : Value :=
  mkValue d (PyFloat 0) f "" (set_of prev) op.

Lemma init_run (d : pynum) (prev : list ref) (op : op_tag) (c : config) :
  __init__ d "" prev op c = (Ok (length (store c)), push c (new_object d NoBackward prev op)).
Proof. reflexivity. Qed.

Lemma init_then_set {B : Type} (d : pynum) (prev : list ref) (op : op_tag)
    (f : ref → closure) (k : ref → M B) (c : config) :
  (out ← __init__ d "" prev op; update out (with_backward (f out));; k out) c
  = k (length (store c)) (push c (new_object d (f (length (store c))) prev op)).
Proof.
  rewrite bind_run, init_run, bind_run. unfold update, push. simpl.
  rewrite list_lookup_middle by done.
  rewrite insert_app_r_alt by done. rewrite Nat.sub_diag. reflexivity.
Qed.

(** What [__add__] and [__mul__] do once [other] is a [Value]. *)
Definition binop_run (op : pynum → pynum → arith pynum)
    (f : ref → ref → ref → closure) (tag : op_tag) (self other : ref) (c : config)
    : outcome ref * config :=
  match store c !! self, store c !! other with
  | Some s, Some o =>
      match op (data s) (data o) with
      | Fine x =>
          (Ok (length (store c)),
           push c (new_object x (f self other (length (store c))) [self; other] tag))
      | Fails e => (Raise (exn_of_arith e), c)
      end
  | _, _ => (Undefined, c)
  end.

Lemma add_value (self o : ref) (c : config) :
  __add__ self (ObjValue o) c = binop_run py_add AddBackward OpAdd self o c.
Proof.
  unfold __add__, binop_run. rewrite bind_run. simpl.
  rewrite bind_run. unfold load at 1.
  destruct (store c !! self) as [s|]; [|done].
  rewrite bind_run. unfold load at 1.
  destruct (store c !! o) as [ov|]; [|done].
  rewrite bind_run. destruct (py_add (data s) (data ov)) as [x|e]; [|done].
  simpl. exact (init_then_set x [self; o] OpAdd (AddBackward self o) mret c).
Qed.

Lemma add_num (self : ref) (n : pynum) (c : config) :
  __add__ self (ObjNum n) c
  = binop_run py_add AddBackward OpAdd self (length (store c))
      (push c (new_object n NoBackward [] OpNone)).
Proof.
  rewrite <- add_value. unfold __add__. rewrite !bind_run. reflexivity.
Qed.

Lemma add_other (self : ref) (ty : string) (c : config) :
  __add__ self (ObjOther ty) c
  = (Raise (Exception ("Can't add an instance of type Value with an instance of type <class '"
                       +:+ ty +:+ "'>")), c).
Proof. reflexivity. Qed.

Lemma mul_value (self o : ref) (c : config) :
  __mul__ self (ObjValue o) c = binop_run py_mul MulBackward OpMul self o c.
Proof.
  unfold __mul__, binop_run. rewrite bind_run. simpl.
  rewrite bind_run. unfold load at 1.
  destruct (store c !! self) as [s|]; [|done].
  rewrite bind_run. unfold load at 1.
  destruct (store c !! o) as [ov|]; [|done].
  rewrite bind_run. destruct (py_mul (data s) (data ov)) as [x|e]; [|done].
  simpl. exact (init_then_set x [self; o] OpMul (MulBackward self o) mret c).
Qed.

Lemma mul_num (self : ref) (n : pynum) (c : config) :
  __mul__ self (ObjNum n) c
  = binop_run py_mul MulBackward OpMul self (length (store c))
      (push c (new_object n NoBackward [] OpNone)).
Proof.
  rewrite <- mul_value. unfold __mul__. rewrite !bind_run. reflexivity.
Qed.

Lemma mul_other (self : ref) (ty : string) (c : config) :
  __mul__ self (ObjOther ty) c
  = (Raise (Exception ("Can't multiply an instance of type Value with an instance of type <class '"
                       +:+ ty +:+ "'>")), c).
Proof. reflexivity. Qed.

Lemma pow_num (self : ref) (p : pynum) (c : config) :
  __pow__ self (ObjNum p) c
  = match store c !! self with
    | Some s =>
        match py_pow (data s) p with
        | Fine x =>
            (Ok (length (store c)),
             push c (new_object x (PowBackward self p (length (store c))) [self] (OpPow p)))
        | Fails e => (Raise (exn_of_arith e), c)
        end
    | None => (Undefined, c)
    end.
Proof.
  unfold __pow__. rewrite bind_run. unfold load at 1.
  destruct (store c !! self) as [s|]; [|done].
  rewrite bind_run. destruct (py_pow (data s) p) as [x|e]; [|done].
  simpl. exact (init_then_set x [self] (OpPow p) (PowBackward self p) mret c).
Qed.

Lemma relu_run (self : ref) (c : config) :
  relu self c
  = match store c !! self with
    | Some s =>
        (Ok (length (store c)),
         push c (new_object (py_max_zero (data s)) (ReluBackward self (length (store c)))
                   [self] OpReLU))
    | None => (Undefined, c)
    end.
Proof.
  unfold relu. rewrite bind_run. unfold load at 1.
  destruct (store c !! self) as [s|]; [|done].
  simpl. exact (init_then_set _ [self] OpReLU (ReluBackward self) mret c).
Qed.

End EngineFacts.

(** * Sets of references *)

Section SetFacts.
Context {order : SetOrder}.

Lemma set_of_perm (t l : list ref) :
  NoDup l → (∀ x, x ∈ l ↔ x ∈ t) → set_of t ≡ₚ l.
Proof.
  intros Hl Hel. apply NoDup_Permutation; [apply set_of_NoDup | done |].
  intros x. rewrite set_of_elem. symmetry. apply Hel.
Qed.

Lemma set_of_nil : set_of [] = [].
Proof. apply Permutation_nil_r. apply set_of_perm; [constructor | done]. Qed.

Lemma set_of_one (a : ref) : set_of [a] = [a].
Proof.
  apply Permutation_singleton_r. apply set_of_perm; [|done].
  apply NoDup_singleton.
Qed.

Lemma set_of_same (a : ref) : set_of [a; a] = [a].
Proof.
  apply Permutation_singleton_r. apply set_of_perm; [apply NoDup_singleton|].
  intros x. rewrite !elem_of_cons. rewrite elem_of_nil. tauto.
Qed.

Lemma set_of_two (a b : ref) :
  a ≠ b → set_of [a; b] = [a; b] ∨ set_of [a; b] = [b; a].
Proof.
  intros Hab. apply Permutation_length_2_inv. symmetry.
  apply set_of_perm; [|done].
  apply NoDup_cons. split; [|apply NoDup_singleton].
  rewrite list_elem_of_singleton. done.
Qed.

Lemma set_of_length_two (a b : ref) : length (set_of [a; b]) ≤ 2.
Proof.
  destruct (decide (a = b)) as [->|Hab].
  - rewrite set_of_same. simpl. lia.
  - destruct (set_of_two a b Hab) as [-> | ->]; simpl; lia.
Qed.

End SetFacts.

(** * Well-formed stores *)

(** The references a backward function adds gradient to. *)
Definition targets (f : closure) : list ref :=
  match f with
  | NoBackward => []
  | AddBackward self other _ | MulBackward self other _ => [self; other]
  | PowBackward self _ _ | ReluBackward self _ => [self]
  end.

(** The backward function of the object at [i] reads the gradient of that
    object and writes to objects built before it. *)
Definition closure_ok (i : ref) (f : closure) : Prop :=
  match f with
  | NoBackward => True
  | AddBackward self other out | MulBackward self other out =>
      out = i ∧ self < i ∧ other < i
  | PowBackward self _ out | ReluBackward self out => out = i ∧ self < i
  end.

(** Every object refers to objects built strictly before it: what holds of
    a store built with the methods of the class, where an operation can only
    name operands that exist already. *)
Definition wf (st : list Value) : Prop :=
  ∀ i n, st !! i = Some n →
    (∀ x, x ∈ _prev n → x < i) ∧ closure_ok i (_backward n).

Definition closure_okb (i : ref) (f : closure) : bool :=
  match f with
  | NoBackward => true
  | AddBackward self other out | MulBackward self other out =>
      bool_decide (out = i) && bool_decide (self < i) && bool_decide (other < i)
  | PowBackward self _ out | ReluBackward self out =>
      bool_decide (out = i) && bool_decide (self < i)
  end.

Fixpoint wf_from (i : ref) (st : list Value) : bool :=
  match st with
  | [] => true
  | n :: st' =>
      forallb (λ x, bool_decide (x < i)) (_prev n)
      && closure_okb i (_backward n) && wf_from (S i) st'
  end.

Lemma closure_okb_ok (i : ref) (f : closure) :
  closure_okb i f = true → closure_ok i f.
Proof.
  destruct f; simpl; try done;
    rewrite ?andb_true_iff, ?bool_decide_eq_true; tauto.
Qed.

Lemma wf_from_ok (st : list Value) (i0 : ref) :
  wf_from i0 st = true →
  ∀ i n, st !! i = Some n →
    (∀ x, x ∈ _prev n → x < i0 + i) ∧ closure_ok (i0 + i) (_backward n).
Proof.
  revert i0. induction st as [|m st IH]; intros i0 H i n Hi; [done|].
  simpl in H. rewrite !andb_true_iff in H. destruct H as [[Hp Hc] Hr].
  destruct i as [|i]; simpl in Hi.
  - injection Hi as <-. rewrite Nat.add_0_r. split.
    + intros x Hx. rewrite forallb_forall in Hp.
      apply list_elem_of_In in Hx. apply Hp in Hx.
      by apply bool_decide_eq_true in Hx.
    + by apply closure_okb_ok.
  - replace (i0 + S i) with (S i0 + i) by lia. by apply IH.
Qed.

Lemma wf_check (st : list Value) : wf_from 0 st = true → wf st.
Proof. intros H i n Hi. exact (wf_from_ok st 0 H i n Hi). Qed.

Lemma wf_lookup_lt (st : list Value) (i x : ref) (n : Value) :
  wf st → st !! i = Some n → x ∈ _prev n → x < length st.
Proof.
  intros Hwf Hi Hx. apply Hwf in Hi as Hn. destruct Hn as [Hp _].
  apply Hp in Hx. apply lookup_lt_Some in Hi. lia.
Qed.

Lemma wf_snoc (st : list Value) (v : Value) :
  wf st →
  (∀ x, x ∈ _prev v → x < length st) → closure_ok (length st) (_backward v) →
  wf (st ++ [v]).
Proof.
  intros Hwf Hp Hc i n Hi.
  apply lookup_app_Some in Hi as [Hi | [Hlen Hi]]; [by apply Hwf|].
  apply list_lookup_singleton_Some in Hi as [Hi <-].
  assert (i = length st) as -> by lia. done.
Qed.

(** * The order built by [build_topo] *)

(** The operands of an object: the elements of its [_prev]. *)
Definition operands (st : list Value) (v : ref) : list ref :=
  match st !! v with
  | Some n => _prev n
  | None => []
  end.

(** [x] is [v], or an operand of [v], or an operand of one, and so on. *)
Inductive reachable (st : list Value) : ref → ref → Prop :=
  | reach_self (v : ref) : reachable st v v
  | reach_step (v c x : ref) :
      c ∈ operands st v → reachable st c x → reachable st v x.

(** Every element of [l] comes after all of its operands. *)
Definition topological (st : list Value) (l : list ref) : Prop :=
  ∀ i n, l !! i = Some n →
    ∀ x, x ∈ operands st n → ∃ j, j < i ∧ l !! j = Some x.

Lemma topological_nil (st : list Value) : topological st [].
Proof. intros i n H. done. Qed.

Lemma topological_snoc (st : list Value) (l : list ref) (v : ref) :
  topological st l → (∀ x, x ∈ operands st v → x ∈ l) → topological st (l ++ [v]).
Proof.
  intros Hl Hv i n Hi x Hx.
  apply lookup_app_Some in Hi as [Hi | [Hlen Hi]].
  - destruct (Hl i n Hi x Hx) as (j & Hj & Hjx).
    exists j. split; [done|]. by apply lookup_app_l_Some.
  - apply list_lookup_singleton_Some in Hi as [Hi <-].
    apply Hv in Hx. apply list_elem_of_lookup in Hx as [j Hj].
    exists j. split; [apply lookup_lt_Some in Hj; lia|].
    by apply lookup_app_l_Some.
Qed.

Lemma topological_closed (st : list Value) (l : list ref) (v x : ref) :
  topological st l → reachable st v x → v ∈ l → x ∈ l.
Proof.
  intros Hl Hr. induction Hr as [v | v c x Hc _ IH]; [done|].
  intros Hv. apply IH. apply list_elem_of_lookup in Hv as [i Hi].
  destruct (Hl i v Hi c Hc) as (j & _ & Hj).
  apply list_elem_of_lookup. by exists j.
Qed.

Lemma reachable_le (st : list Value) (v x : ref) :
  wf st → reachable st v x → x ≤ v.
Proof.
  intros Hwf Hr. induction Hr as [v | v c x Hc _ IH]; [done|].
  unfold operands in Hc. destruct (st !! v) as [n|] eqn:Hv; [|by apply elem_of_nil in Hc].
  apply Hwf in Hv as [Hp _]. apply Hp in Hc. lia.
Qed.

Lemma reachable_trans (st : list Value) (a b c : ref) :
  reachable st a b → reachable st b c → reachable st a c.
Proof.
  intros Hab Hbc. induction Hab as [v | v d x Hd _ IH]; [done|].
  eapply reach_step; [exact Hd | by apply IH].
Qed.

(** What one call of [build_topo] on [v] adds to [visited] and [topo]. *)
Record visit_post (st : list Value) (v : ref) (V : gset ref) (T : list ref)
    (V' : gset ref) (T' D : list ref) : Prop := {
  vp_topo : T' = T ++ D;
  vp_visited : V' = V ∪ list_to_set D;
  vp_in : v ∈ T';
  vp_nodup : NoDup D;
  vp_new : ∀ x, x ∈ D → (x ∉ V) ∧ reachable st v x;
  vp_sorted : topological st T → topological st T';
  vp_last : v ∉ V →
    ∃ D', D = D' ++ [v] ∧ ∀ x, x ∈ D' → ∃ c, c ∈ operands st v ∧ reachable st c x
}.

(** The same for the loop over the operands [cs] of an object. *)
Record loop_post (st : list Value) (cs : list ref) (V : gset ref) (T : list ref)
    (V' : gset ref) (T' D : list ref) : Prop := {
  lp_topo : T' = T ++ D;
  lp_visited : V' = V ∪ list_to_set D;
  lp_in : ∀ c, c ∈ cs → c ∈ T';
  lp_nodup : NoDup D;
  lp_new : ∀ x, x ∈ D → (x ∉ V) ∧ ∃ c, c ∈ cs ∧ reachable st c x;
  lp_sorted : topological st T → topological st T'
}.

Section Traversal.
Context {pow : PowerOp} {order : SetOrder}.

Lemma visit_all_spec (st : list Value) (depth : nat) (v : ref) :
  (∀ c V T, c < v →
     (∀ x, x ∈ V → x ∈ T ∨ c < x) → (∀ x, x ∈ T → x ∈ V) →
     ∃ V' T' D, build_topo depth st c (V, T) = Some (V', T')
                ∧ visit_post st c V T V' T' D) →
  ∀ cs V T, (∀ c, c ∈ cs → c < v) →
    (∀ x, x ∈ V → x ∈ T ∨ v ≤ x) → (∀ x, x ∈ T → x ∈ V) →
    ∃ V' T' D, visit_all (build_topo depth st) cs (V, T) = Some (V', T')
               ∧ loop_post st cs V T V' T' D.
Proof.
  intros IH cs. induction cs as [|c cs IHcs]; intros V T Hcs Hprog Hsub.
  - exists V, T, []. split; [done|]. split; simpl.
    + by rewrite app_nil_r.
    + by rewrite (right_id_L ∅ (∪)).
    + intros c Hc. by apply elem_of_nil in Hc.
    + constructor.
    + intros x Hx. by apply elem_of_nil in Hx.
    + done.
  - assert (c < v) as Hcv by (apply Hcs; left).
    destruct (IH c V T Hcv) as (V1 & T1 & D1 & Hrun1 & P1); [|done|].
    { intros x Hx. destruct (Hprog x Hx); [by left | right; lia]. }
    destruct P1 as [-> -> Hin1 Hnd1 Hnew1 Hsort1 _].
    destruct (IHcs (V ∪ list_to_set D1) (T ++ D1)) as (V2 & T2 & D2 & Hrun2 & P2).
    { intros c' Hc'. apply Hcs. by right. }
    { intros x Hx. apply elem_of_union in Hx as [Hx | Hx].
      - destruct (Hprog x Hx) as [HT | Hle]; [left | by right].
        apply elem_of_app. by left.
      - left. apply elem_of_app. right. by apply elem_of_list_to_set in Hx. }
    { intros x Hx. apply elem_of_app in Hx as [Hx | Hx].
      - apply elem_of_union. left. by apply Hsub.
      - apply elem_of_union. right. by apply elem_of_list_to_set. }
    destruct P2 as [-> -> Hin2 Hnd2 Hnew2 Hsort2].
    exists (V ∪ list_to_set D1 ∪ list_to_set D2), (T ++ D1 ++ D2), (D1 ++ D2).
    split.
    { simpl. rewrite Hrun1. rewrite Hrun2. by rewrite app_assoc. }
    split.
    + done.
    + rewrite list_to_set_app_L. by rewrite (assoc_L (∪)).
    + intros c' Hc'. apply elem_of_cons in Hc' as [-> | Hc'].
      * rewrite app_assoc. apply elem_of_app. by left.
      * rewrite app_assoc. by apply Hin2.
    + apply NoDup_app. split; [done|]. split; [|done].
      intros x Hx1 Hx2. apply Hnew2 in Hx2 as [Hx2 _]. apply Hx2.
      apply elem_of_union. right. by apply elem_of_list_to_set.
    + intros x Hx. apply elem_of_app in Hx as [Hx | Hx].
      * apply Hnew1 in Hx as [HxV Hr]. split; [done|].
        exists c. split; [by left | done].
      * apply Hnew2 in Hx as [HxV (c' & Hc' & Hr)]. split.
        { intros HV. apply HxV. apply elem_of_union. by left. }
        exists c'. split; [by right | done].
    + intros HT. rewrite app_assoc. apply Hsort2. by apply Hsort1.
Qed.

Lemma build_topo_spec (st : list Value) :
  wf st →
  ∀ depth v V T, v < depth → v < length st →
    (∀ x, x ∈ V → x ∈ T ∨ v < x) → (∀ x, x ∈ T → x ∈ V) →
    ∃ V' T' D, build_topo depth st v (V, T) = Some (V', T')
               ∧ visit_post st v V T V' T' D.
Proof.
  intros Hwf depth. induction depth as [|depth IH]; intros v V T Hd Hv Hprog Hsub;
    [lia|].
  simpl. case_decide as HvV.
  - exists V, T, []. split; [done|].
    split; simpl.
    + by rewrite app_nil_r.
    + by rewrite (right_id_L ∅ (∪)).
    + destruct (Hprog v HvV); [done | lia].
    + constructor.
    + intros x Hx. by apply elem_of_nil in Hx.
    + done.
    + done.
  - destruct (lookup_lt_is_Some_2 st v Hv) as [node Hnode]. rewrite Hnode.
    assert (∀ c, c ∈ _prev node → c < v) as Hchildren
      by (apply (Hwf v node Hnode)).
    destruct (visit_all_spec st depth v) with (cs := _prev node)
      (V := {[v]} ∪ V) (T := T) as (V1 & T1 & D1 & Hrun & P).
    { intros c V0 T0 Hc Hp0 Hs0. apply IH; [lia | lia | done | done]. }
    { done. }
    { intros x Hx. apply elem_of_union in Hx as [Hx | Hx].
      - apply elem_of_singleton in Hx. right. lia.
      - destruct (Hprog x Hx); [by left | right; lia]. }
    { intros x Hx. apply elem_of_union. right. by apply Hsub. }
    rewrite Hrun. destruct P as [-> -> Hin Hnd Hnew Hsort].
    exists ({[v]} ∪ V ∪ list_to_set D1), (T ++ D1 ++ [v]), (D1 ++ [v]).
    split; [by rewrite app_assoc|].
    assert (v ∉ D1) as HvD.
    { intros HvD. apply Hnew in HvD as [HvD _]. apply HvD.
      apply elem_of_union. left. by apply elem_of_singleton. }
    assert (∀ c, c ∈ operands st v ↔ c ∈ _prev node) as Hops
      by (intros c; unfold operands; by rewrite Hnode).
    split.
    + done.
    + rewrite list_to_set_app_L. simpl. apply set_eq. intros x.
      rewrite !elem_of_union, elem_of_singleton, elem_of_empty. tauto.
    + rewrite app_assoc. apply elem_of_app. right. by left.
    + apply NoDup_app. split; [done|]. split; [|apply NoDup_singleton].
      intros x Hx Hx'. apply list_elem_of_singleton in Hx'. by subst x.
    + intros x Hx. apply elem_of_app in Hx as [Hx | Hx].
      * apply Hnew in Hx as [HxV (c & Hc & Hr)]. split.
        { intros HV. apply HxV. apply elem_of_union. by right. }
        eapply reach_step; [by apply Hops | done].
      * apply list_elem_of_singleton in Hx as ->. split; [done | constructor].
    + intros HT. rewrite app_assoc. apply topological_snoc; [by apply Hsort|].
      intros x Hx. apply Hin. by apply Hops.
    + intros _. exists D1. split; [done|].
      intros x Hx. apply Hnew in Hx as [_ (c & Hc & Hr)].
      exists c. split; [by apply Hops | done].
Qed.

(** From the empty [visited] and [topo], as [backward] calls it. *)
Lemma build_topo_root (st : list Value) (root : ref) :
  wf st → root < length st →
  ∃ V topo before,
    build_topo (length st) st root (∅, []) = Some (V, topo)
    ∧ topo = before ++ [root]
    ∧ NoDup topo
    ∧ topological st topo
    ∧ (∀ x, x ∈ topo ↔ reachable st root x)
    ∧ (∀ x, x ∈ before → ∃ c, c ∈ operands st root ∧ reachable st c x).
Proof.
  intros Hwf Hroot.
  destruct (build_topo_spec st Hwf (length st) root ∅ []) as (V & T & D & Hrun & P);
    [done | done | set_solver | set_solver |].
  destruct P as [HT HV Hin Hnd Hnew Hsort Hlast]. simpl in HT. subst T.
  destruct Hlast as (before & -> & Hbefore); [set_solver|].
  exists V, (before ++ [root]), before. repeat split; try done.
  - by apply Hsort, topological_nil.
  - intros Hx. by apply Hnew in Hx as [_ Hr].
  - intros Hr. eapply topological_closed; [|exact Hr | exact Hin].
    by apply Hsort, topological_nil.
Qed.

End Traversal.

(** * The backward pass *)

(** The attributes that a backward pass does not write. *)
Definition same_but_grad (v0 v : Value) : Prop :=
  data v = data v0 ∧ _backward v = _backward v0 ∧ _label v = _label v0
  ∧ _prev v = _prev v0 ∧ _op v = _op v0.

Lemma same_but_grad_refl (v : Value) : same_but_grad v v.
Proof. by repeat split. Qed.

(** The addends that a trace pushed onto the gradient of [n], in order. *)
Definition contributions (n : ref) (es : list event) : list pynum :=
  omap (λ e, match e with
             | AddGrad v c => if decide (v = n) then Some c else None
             | _ => None
             end) es.

(** The objects whose backward function a trace called, in order. *)
Definition calls (es : list event) : list ref :=
  omap (λ e, match e with Call v => Some v | _ => None end) es.

(** [g + c1 + c2 + ...], added from the left as [+=] does. *)
Fixpoint accumulate (g : pynum) (cs : list pynum) : arith pynum :=
  match cs with
  | [] => Fine g
  | c :: cs' =>
      match py_add g c with
      | Fine s => accumulate s cs'
      | Fails e => Fails e
      end
  end.

Lemma accumulate_snoc (g s s' c : pynum) (cs : list pynum) :
  accumulate g cs = Fine s → py_add s c = Fine s' →
  accumulate g (cs ++ [c]) = Fine s'.
Proof.
  revert g. induction cs as [|c0 cs IH]; intros g Hacc Hadd; simpl in *.
  - injection Hacc as ->. by rewrite Hadd.
  - destruct (py_add g c0) as [s0|e]; [|done]. by apply IH.
Qed.

Lemma contributions_app (n : ref) (es1 es2 : list event) :
  contributions n (es1 ++ es2) = contributions n es1 ++ contributions n es2.
Proof. apply omap_app. Qed.

Lemma calls_app (es1 es2 : list event) : calls (es1 ++ es2) = calls es1 ++ calls es2.
Proof. apply omap_app. Qed.

(** An event of the loop of a pass over objects up to [B]: a call of one of
    them, or an addition to an object built before [B]; never an assignment. *)
Definition loop_event (B : ref) (e : event) : Prop :=
  match e with
  | SetGrad _ _ => False
  | AddGrad t _ => t < B
  | Call v => v ≤ B
  end.

Lemma contributions_none (B n : ref) (es : list event) :
  Forall (loop_event B) es → B ≤ n → contributions n es = [].
Proof.
  intros Hes Hn. induction Hes as [|e es He _ IH]; [done|].
  change (e :: es) with ([e] ++ es). rewrite contributions_app, IH, app_nil_r.
  destruct e as [v g | v c | v]; simpl in *; try done.
  unfold contributions. simpl. case_decide; [lia | done].
Qed.

(** The store [st] is the store [st0] after the events [es]: the same
    objects, each gradient the one of [st0] plus the addends pushed onto it. *)
Record pass_inv (B : ref) (st0 : list Value) (es : list event) (st : list Value)
    : Prop := {
  pi_events : Forall (loop_event B) es;
  pi_length : length st = length st0;
  pi_nodes : ∀ n v0, st0 !! n = Some v0 →
    ∃ v, st !! n = Some v ∧ same_but_grad v0 v
         ∧ accumulate (grad v0) (contributions n es) = Fine (grad v)
}.

Lemma pass_inv_start (B : ref) (st : list Value) : pass_inv B st [] st.
Proof.
  split; [constructor | done |].
  intros n v Hn. exists v. split; [done|]. split; [apply same_but_grad_refl | done].
Qed.

Lemma pass_inv_call (B v : ref) (st0 st : list Value) (es : list event) :
  pass_inv B st0 es st → v ≤ B → pass_inv B st0 (es ++ [Call v]) st.
Proof.
  intros [He Hl Hn] Hv. split; [|done|].
  - apply Forall_app. split; [done|]. by constructor.
  - intros n v0 H0. destruct (Hn n v0 H0) as (w & Hw & Hs & Ha).
    exists w. rewrite contributions_app. simpl. by rewrite app_nil_r.
Qed.

Lemma pass_inv_add (B r : ref) (st0 st : list Value) (es : list event)
    (v : Value) (t s : pynum) :
  pass_inv B st0 es st → r < B → st !! r = Some v → py_add (grad v) t = Fine s →
  pass_inv B st0 (es ++ [AddGrad r t]) (<[r := with_grad s v]> st).
Proof.
  intros [He Hl Hn] Hr Hv Hadd. split.
  - apply Forall_app. split; [done|]. by constructor.
  - by rewrite length_insert.
  - intros n v0 H0. destruct (Hn n v0 H0) as (w & Hw & Hs & Ha).
    rewrite contributions_app. simpl. destruct (decide (r = n)) as [-> | Hne].
    + exists (with_grad s v). assert (w = v) as -> by congruence.
      split; [apply list_lookup_insert_eq; by eapply lookup_lt_Some|].
      split; [done|]. by eapply accumulate_snoc.
    + exists w. split; [by rewrite list_lookup_insert_ne|].
      split; [done|]. by rewrite app_nil_r.
Qed.

Section Pass.
Context {pow : PowerOp} {order : SetOrder}.

Lemma iadd_grad_run (r : ref) (rhs : M pynum) (c : config) :
  readonly rhs →
  iadd_grad r rhs c
  = match store c !! r with
    | None => (Undefined, c)
    | Some v =>
        match (rhs c).1 with
        | Ok t =>
            match py_add (grad v) t with
            | Fine s => (Ok tt, mkConfig (<[r := with_grad s v]> (store c))
                                  (trace c ++ [AddGrad r t]))
            | Fails e => (Raise (exn_of_arith e), c)
            end
        | Raise e => (Raise e, c)
        | Undefined => (Undefined, c)
        end
    end.
Proof.
  intros Hro. unfold iadd_grad. rewrite bind_run. unfold load at 1.
  destruct (store c !! r) as [v|] eqn:Hv; [|done].
  rewrite bind_run, (readonly_run rhs c Hro).
  destruct (rhs c).1 as [t|e|]; simpl; [|done..].
  rewrite bind_run. destruct (py_add (grad v) t) as [s|e]; simpl; [|done].
  rewrite bind_run. unfold update. rewrite Hv. reflexivity.
Qed.

(** One [+=] of a backward function, in a pass. *)
Lemma iadd_grad_pass (B r : ref) (st0 : list Value) (tr0 es : list event)
    (rhs : M pynum) (c : config) :
  readonly rhs → (∀ c', length (store c') = length st0 → (rhs c').1 ≠ Undefined) →
  r < B → r < length st0 →
  trace c = tr0 ++ es → pass_inv B st0 es (store c) →
  ∃ es', trace (iadd_grad r rhs c).2 = tr0 ++ es'
         ∧ pass_inv B st0 es' (store (iadd_grad r rhs c).2)
         ∧ (iadd_grad r rhs c).1 ≠ Undefined
         ∧ calls es' = calls es.
Proof.
  intros Hro Hdef HrB Hr Htr Hinv. rewrite (iadd_grad_run r rhs c Hro).
  assert (length (store c) = length st0) as Hlen by apply Hinv.
  destruct (store c !! r) as [v|] eqn:Hv;
    [|apply lookup_ge_None in Hv; lia].
  specialize (Hdef c Hlen).
  destruct (rhs c).1 as [t|e|]; simpl; [| by exists es | done].
  destruct (py_add (grad v) t) as [s|e] eqn:Hadd; simpl; [| by exists es].
  exists (es ++ [AddGrad r t]). split; [by rewrite Htr, app_assoc|].
  split; [by eapply pass_inv_add|]. split; [done|].
  rewrite calls_app. simpl. by rewrite app_nil_r.
Qed.

Lemma load_defined (r : ref) (c : config) :
  r < length (store c) → ∃ v, load r c = (Ok v, c) ∧ store c !! r = Some v.
Proof.
  intros Hr. destruct (lookup_lt_is_Some_2 (store c) r Hr) as [v Hv].
  exists v. unfold load. by rewrite Hv.
Qed.

Lemma num_defined {A : Type} (r : arith A) (c : config) : (num r c).1 ≠ Undefined.
Proof. by destruct r. Qed.

Lemma bind_load_defined {A : Type} (r : ref) (k : Value → M A) (c : config) :
  r < length (store c) → (∀ v, (k v c).1 ≠ Undefined) →
  ((load r ≫= k) c).1 ≠ Undefined.
Proof.
  intros Hr Hk. rewrite bind_run.
  destruct (load_defined r c Hr) as (v & -> & _). apply Hk.
Qed.

Lemma bind_num_defined {A B : Type} (r : arith A) (k : A → M B) (c : config) :
  (∀ a, (k a c).1 ≠ Undefined) → ((num r ≫= k) c).1 ≠ Undefined.
Proof. intros Hk. rewrite bind_run. destruct r as [a|e]; simpl; [apply Hk | done]. Qed.

(** A backward function, called in a pass on the object [i] that holds it. *)
Lemma call_pass (B i : ref) (st0 : list Value) (tr0 es : list event)
    (f : closure) (c : config) :
  closure_ok i f → i ≤ B → i < length st0 →
  trace c = tr0 ++ es → pass_inv B st0 es (store c) →
  ∃ es', trace (call f c).2 = tr0 ++ es'
         ∧ pass_inv B st0 es' (store (call f c).2)
         ∧ (call f c).1 ≠ Undefined
         ∧ calls es' = calls es.
Proof.
  intros Hok HiB Hi Htr Hinv.
  assert (∀ (r : ref) (rhs : M pynum) (c1 : config) (es1 : list event),
            readonly rhs →
            (∀ c', length (store c') = length st0 → (rhs c').1 ≠ Undefined) →
            r < i → trace c1 = tr0 ++ es1 → pass_inv B st0 es1 (store c1) →
            ∃ es', trace (iadd_grad r rhs c1).2 = tr0 ++ es'
                   ∧ pass_inv B st0 es' (store (iadd_grad r rhs c1).2)
                   ∧ (iadd_grad r rhs c1).1 ≠ Undefined
                   ∧ calls es' = calls es1) as Hstep.
  { intros r rhs c1 es1 Hro Hdef Hr Htr1 Hinv1.
    apply (iadd_grad_pass B r st0 tr0 es1 rhs c1); try done; lia. }
  assert (∀ (m1 m2 : M unit),
            (∀ c1 es1, trace c1 = tr0 ++ es1 → pass_inv B st0 es1 (store c1) →
               ∃ es', trace (m1 c1).2 = tr0 ++ es'
                      ∧ pass_inv B st0 es' (store (m1 c1).2)
                      ∧ (m1 c1).1 ≠ Undefined ∧ calls es' = calls es1) →
            (∀ c1 es1, trace c1 = tr0 ++ es1 → pass_inv B st0 es1 (store c1) →
               ∃ es', trace (m2 c1).2 = tr0 ++ es'
                      ∧ pass_inv B st0 es' (store (m2 c1).2)
                      ∧ (m2 c1).1 ≠ Undefined ∧ calls es' = calls es1) →
            ∃ es', trace ((m1;; m2) c).2 = tr0 ++ es'
                   ∧ pass_inv B st0 es' (store ((m1;; m2) c).2)
                   ∧ ((m1;; m2) c).1 ≠ Undefined ∧ calls es' = calls es) as Hseq.
  { intros m1 m2 H1 H2. rewrite bind_run.
    destruct (H1 c es Htr Hinv) as (es1 & Htr1 & Hinv1 & Hd1 & Hc1).
    destruct (m1 c) as [[[]|e|] c1]; simpl in *; [| by exists es1 | done].
    destruct (H2 c1 es1 Htr1 Hinv1) as (es2 & Htr2 & Hinv2 & Hd2 & Hc2).
    exists es2. by rewrite Hc2. }
  destruct f as [| self other out | self other out | self power out | self out];
    simpl in Hok; unfold call.
  - by exists es.
  - destruct Hok as (-> & Hs & Ho).
    apply Hseq; intros c1 es1 Htr1 Hinv1;
      (apply Hstep; try done;
       [auto with readonly
       |intros c' Hlen; apply bind_load_defined; [lia | intros; apply num_defined]]).
  - destruct Hok as (-> & Hs & Ho).
    apply Hseq; intros c1 es1 Htr1 Hinv1;
      (apply Hstep; try done;
       [auto with readonly
       |intros c' Hlen; apply bind_load_defined; [lia|]; intros;
        apply bind_load_defined; [lia | intros; apply num_defined]]).
  - destruct Hok as (-> & Hs).
    apply Hstep; try done; [auto 10 with readonly|].
    intros c' Hlen. apply bind_load_defined; [lia|]. intros.
    do 3 (apply bind_num_defined; intros).
    apply bind_load_defined; [lia | intros; apply num_defined].
  - destruct Hok as (-> & Hs).
    apply Hstep; try done; [auto with readonly|].
    intros c' Hlen. apply bind_load_defined; [lia|]. intros.
    apply bind_load_defined; [lia | intros; apply num_defined].
Qed.

(** The loop [for v in reversed(topo): v._backward()] over objects of a
    well-formed store. *)
Lemma for_each_pass (B : ref) (st0 : list Value) (tr0 : list event) :
  wf st0 →
  ∀ vs es c, (∀ v, v ∈ vs → v ≤ B ∧ v < length st0) →
    trace c = tr0 ++ es → pass_inv B st0 es (store c) →
    ∃ es' o c',
      for_each vs (λ v, n ← load v; emit (Call v);; call (_backward n)) c = (o, c')
      ∧ trace c' = tr0 ++ es'
      ∧ pass_inv B st0 es' (store c')
      ∧ o ≠ Undefined
      ∧ ∃ called rest, vs = called ++ rest ∧ calls es' = calls es ++ called
                       ∧ (o = Ok tt → rest = []).
Proof.
  intros Hwf vs. induction vs as [|v vs IH]; intros es c Hvs Htr Hinv.
  - exists es, (Ok tt), c. split_and!; try done.
    exists [], []. repeat split; by rewrite ?app_nil_r.
  - destruct (Hvs v) as [HvB Hv]; [by left|].
    assert (length (store c) = length st0) as Hlen by apply Hinv.
    destruct (lookup_lt_is_Some_2 st0 v Hv) as [n0 Hn0].
    destruct (pi_nodes _ _ _ _ Hinv v n0 Hn0) as (n & Hn & Hsame & _).
    assert (closure_ok v (_backward n)) as Hok.
    { destruct Hsame as (_ & -> & _). by apply (Hwf v n0 Hn0). }
    set (c1 := mkConfig (store c) (trace c ++ [Call v])).
    destruct (call_pass B v st0 tr0 (es ++ [Call v]) (_backward n) c1)
      as (es1 & Htr1 & Hinv1 & Hd1 & Hc1); try done.
    { simpl. by rewrite Htr, app_assoc. }
    { by apply pass_inv_call. }
    assert ((n ← load v; emit (Call v);; call (_backward n)) c
            = call (_backward n) c1) as Hbody.
    { rewrite bind_run. unfold load. rewrite Hn. by rewrite bind_run. }
    simpl. rewrite bind_run, Hbody.
    destruct (call (_backward n) c1) as [[[]|e|] c2]; simpl in *; [| | done].
    + destruct (IH es1 c2)
        as (es2 & o & c3 & Hrun & Htr2 & Hinv2 & Hd2 & called & rest & Hvs' & Hc2 & Hr);
        try done.
      { intros w Hw. apply Hvs. by right. }
      exists es2, o, c3. split_and!; try done.
      exists (v :: called), rest. split_and!; [by rewrite Hvs' | | done].
      rewrite Hc2, Hc1, calls_app. simpl. by rewrite <- app_assoc.
    + exists es1, (Raise e), c2. split_and!; try done.
      exists [v], vs. split_and!; [done | | done].
      by rewrite Hc1, calls_app.
Qed.

End Pass.

Lemma wf_with_grad (st : list Value) (r : ref) (v : Value) (g : pynum) :
  wf st → st !! r = Some v → wf (<[r := with_grad g v]> st).
Proof.
  intros Hwf Hv i n Hi. destruct (decide (r = i)) as [-> | Hne].
  - rewrite list_lookup_insert_eq in Hi by (by eapply lookup_lt_Some).
    injection Hi as <-. by apply (Hwf i v).
  - rewrite list_lookup_insert_ne in Hi by done. by apply Hwf.
Qed.

Lemma pass_inv_wf (B : ref) (st0 st : list Value) (es : list event) :
  wf st0 → pass_inv B st0 es st → wf st.
Proof.
  intros Hwf [_ Hlen Hn] i n Hi.
  assert (i < length st0) as Hlt by (apply lookup_lt_Some in Hi; lia).
  destruct (lookup_lt_is_Some_2 st0 i Hlt) as [n0 Hn0].
  destruct (Hn i n0 Hn0) as (n' & Hn' & Hsame & _).
  assert (n' = n) as -> by congruence.
  destruct Hsame as (_ & -> & _ & -> & _). by apply Hwf.
Qed.

Lemma pass_inv_operands (B : ref) (st0 st : list Value) (es : list event) (x : ref) :
  pass_inv B st0 es st → operands st x = operands st0 x.
Proof.
  intros [_ Hlen Hn]. unfold operands.
  destruct (st0 !! x) as [n0|] eqn:H0.
  - destruct (Hn x n0 H0) as (n & -> & Hsame & _). by destruct Hsame as (_ & _ & _ & -> & _).
  - apply lookup_ge_None in H0. rewrite <- Hlen in H0.
    apply lookup_ge_None in H0. by rewrite H0.
Qed.

Section Backward.
Context {pow : PowerOp} {order : SetOrder}.

(** What [backward] does on a well-formed store: the order, the seed, then
    the loop. *)
Lemma backward_run (c : config) (root : ref) :
  wf (store c) → root < length (store c) →
  ∃ topo before vroot es o c',
    topo = before ++ [root]
    ∧ NoDup topo
    ∧ topological (store c) topo
    ∧ (∀ x, x ∈ topo ↔ reachable (store c) root x)
    ∧ (∀ x, x ∈ before → ∃ y, y ∈ operands (store c) root ∧ reachable (store c) y x)
    ∧ store c !! root = Some vroot
    ∧ backward root c = (o, c')
    ∧ (o = Ok topo ∨ ∃ e, o = Raise e)
    ∧ trace c' = trace c ++ SetGrad root (PyInt 1) :: es
    ∧ pass_inv root (<[root := with_grad (PyInt 1) vroot]> (store c)) es (store c')
    ∧ (∃ called rest, reverse topo = called ++ rest ∧ calls es = called
                      ∧ (o = Ok topo → rest = []))
    ∧ (∃ V, build_topo (length (store c)) (store c) root (∅, []) = Some (V, topo)).
Proof.
  intros Hwf Hroot.
  destruct (build_topo_root (store c) root Hwf Hroot)
    as (V & topo & before & Hrun & Htopo & Hnd & Hsorted & Hreach & Hbefore).
  destruct (lookup_lt_is_Some_2 (store c) root Hroot) as [vroot Hvroot].
  set (st1 := <[root := with_grad (PyInt 1) vroot]> (store c)).
  set (c1 := mkConfig st1 (trace c ++ [SetGrad root (PyInt 1)])).
  destruct (for_each_pass root st1 (trace c1)) with (vs := reverse topo) (es := @nil event)
    (c := c1) as (es & o & c2 & Hloop & Htr & Hinv & Hdef & called & rest & Hsplit & Hcalls & Hrest).
  { by apply wf_with_grad. }
  { intros v Hv. apply elem_of_reverse, Hreach in Hv.
    apply (reachable_le _ _ _ Hwf) in Hv. unfold st1. rewrite length_insert. lia. }
  { by rewrite app_nil_r. }
  { apply pass_inv_start. }
  assert (backward root c
          = match o with
            | Ok _ => (Ok topo, c2)
            | Raise e => (Raise e, c2)
            | Undefined => (Undefined, c2)
            end) as Hback.
  { unfold backward. rewrite Hrun. rewrite bind_run.
    unfold assign_grad. rewrite bind_run. unfold update. rewrite Hvroot.
    simpl. fold st1. fold c1. rewrite bind_run, Hloop. by destruct o. }
  exists topo, before, vroot, es.
  destruct o as [[]|e|]; [| |done].
  - exists (Ok topo), c2. split_and!; try done; [by left | | |].
    + rewrite Htr. simpl. by rewrite <- app_assoc.
    + exists called, rest. split_and!; [done.. |]. intros _. by apply Hrest.
    + by exists V.
  - exists (Raise e), c2. split_and!; try done; [right; by exists e | | |].
    + rewrite Htr. simpl. by rewrite <- app_assoc.
    + exists called, rest. by split_and!.
    + by exists V.
Qed.

End Backward.

(** * The pass under the recursion limit *)

Lemma walk_threshold {A : Type} (f : nat → walk A) (n : nat) (r : A) :
  (∀ d a, f d = Walked a → f (S d) = Walked a) →
  (∀ d, f d ≠ Dangling) → f 0 = TooDeep → f n = Walked r →
  ∃ need, 1 ≤ need ≤ n
          ∧ ∀ room, (room < need → f room = TooDeep)
                    ∧ (need ≤ room → f room = Walked r).
Proof.
  intros Hstep Hdef H0.
  assert (∀ d d' a, d ≤ d' → f d = Walked a → f d' = Walked a) as Hmono.
  { intros d d' a Hle Hd. induction Hle as [|d' _ IH]; [done | by apply Hstep]. }
  induction n as [|n IH]; intros Hn; [congruence|].
  destruct (f n) as [a| |] eqn:Hfn.
  - assert (a = r) as -> by (apply Hstep in Hfn; congruence).
    destruct IH as (need & Hneed & Hrooms); [done|].
    exists need. split; [lia | done].
  - exists (S n). split; [lia|]. intros room. split.
    + intros Hroom. destruct (f room) as [a| |] eqn:Hr; [| done | by destruct (Hdef room)].
      apply (Hmono room n a) in Hr; [congruence | lia].
    + intros Hroom. by apply (Hmono (S n) room).
  - by destruct (Hdef n).
Qed.

Section StackFacts.
Context {pow : PowerOp}.

Lemma stack_build_topo_S (d : nat) (st : list Value) (v : ref) (visited : gset ref)
    (topo : list ref) :
  Stack.build_topo (S d) st v (visited, topo)
  = if decide (v ∈ visited) then Walked (visited, topo)
    else match st !! v with
         | None => Dangling
         | Some node =>
             match Stack.visit_all (Stack.build_topo d st) (_prev node)
                     ({[v]} ∪ visited, topo) with
             | Walked (visited', topo') => Walked (visited', topo' ++ [v])
             | TooDeep => TooDeep
             | Dangling => Dangling
             end
         end.
Proof. reflexivity. Qed.

Lemma stack_visit_all_walked {S : Type} (f : ref → S → walk S) (g : ref → S → option S) :
  (∀ x a r, f x a = Walked r ↔ g x a = Some r) →
  ∀ l a r, Stack.visit_all f l a = Walked r ↔ visit_all g l a = Some r.
Proof.
  intros H l. induction l as [|x l IH]; intros a r; simpl.
  - split; by intros [= ->].
  - destruct (f x a) as [a'| |] eqn:Hf.
    + apply H in Hf. rewrite Hf. apply IH.
    + destruct (g x a) as [a'|] eqn:Hg; [apply H in Hg; congruence | by split].
    + destruct (g x a) as [a'|] eqn:Hg; [apply H in Hg; congruence | by split].
Qed.

(** With room enough, the walk under the limit is the walk of [build_topo]. *)
Lemma stack_build_topo_walked (d : nat) (st : list Value) (v : ref)
    (acc r : gset ref * list ref) :
  Stack.build_topo d st v acc = Walked r ↔ build_topo d st v acc = Some r.
Proof.
  revert v acc r. induction d as [|d IH]; intros v [visited topo] r; [by split|].
  rewrite stack_build_topo_S. cbn [build_topo].
  destruct (decide (v ∈ visited)); [split; by intros [= <-]|].
  destruct (st !! v) as [node|]; [|by split].
  destruct (Stack.visit_all _ _ _) as [[V T]| |] eqn:Hs.
  - apply (stack_visit_all_walked _ _ IH) in Hs. rewrite Hs. split; by intros [= <-].
  - destruct (visit_all _ _ _) as [[V T]|] eqn:Ho;
      [apply (stack_visit_all_walked _ _ IH) in Ho; congruence | by split].
  - destruct (visit_all _ _ _) as [[V T]|] eqn:Ho;
      [apply (stack_visit_all_walked _ _ IH) in Ho; congruence | by split].
Qed.

Lemma stack_visit_all_mono {S : Type} (f g : ref → S → walk S) :
  (∀ x a r, f x a = Walked r → g x a = Walked r) →
  ∀ l a r, Stack.visit_all f l a = Walked r → Stack.visit_all g l a = Walked r.
Proof.
  intros H l. induction l as [|x l IH]; intros a r; simpl; [done|].
  destruct (f x a) as [a'| |] eqn:Hf; [|done..].
  rewrite (H x a a' Hf). apply IH.
Qed.

(** One more nested call allowed changes nothing for a walk that returned. *)
Lemma stack_build_topo_step (st : list Value) (d : nat) (v : ref)
    (acc r : gset ref * list ref) :
  Stack.build_topo d st v acc = Walked r → Stack.build_topo (S d) st v acc = Walked r.
Proof.
  revert v acc r. induction d as [|d IH]; intros v [visited topo] r; [done|].
  rewrite (stack_build_topo_S (S d)), (stack_build_topo_S d).
  destruct (decide (v ∈ visited)); [done|].
  destruct (st !! v) as [node|]; [|done].
  destruct (Stack.visit_all (Stack.build_topo d st) _ _) as [[V T]| |] eqn:Hs; [|done..].
  by rewrite (stack_visit_all_mono _ _ IH _ _ _ Hs).
Qed.

Lemma stack_visit_all_defined {S : Type} (f : ref → S → walk S) (l : list ref) :
  (∀ x a, x ∈ l → f x a ≠ Dangling) → ∀ a, Stack.visit_all f l a ≠ Dangling.
Proof.
  induction l as [|x l IH]; intros H a; simpl; [done|].
  destruct (f x a) as [a'| |] eqn:Hf; [| done |].
  - apply IH. intros y b Hy. apply H. by right.
  - by destruct (H x a); [left|].
Qed.

(** In a well-formed store the walk follows no reference out of the store. *)
Lemma stack_build_topo_defined (st : list Value) :
  wf st →
  ∀ d v acc, v < length st → Stack.build_topo d st v acc ≠ Dangling.
Proof.
  intros Hwf d. induction d as [|d IH]; intros v [visited topo] Hv; [done|].
  rewrite stack_build_topo_S. destruct (decide (v ∈ visited)); [done|].
  destruct (lookup_lt_is_Some_2 st v Hv) as [node Hnode]. rewrite Hnode.
  pose proof (stack_visit_all_defined (Stack.build_topo d st) (_prev node)) as Hall.
  destruct (Stack.visit_all _ _ _) as [[V T]| |] eqn:Hs; [done | done |].
  exfalso. apply (Hall) with (a := ({[v]} ∪ visited, topo)); [|done].
  intros x a Hx. apply IH. destruct (Hwf v node Hnode) as [Hprev _].
  apply Hprev in Hx. lia.
Qed.

(** [build_topo] needs a definite number of nested calls, at most one for
    each object of the store: with fewer it raises, with as many or more it
    returns what it returns with room to spare. *)
Lemma stack_build_topo_threshold (st : list Value) (root : ref) :
  wf st → root < length st →
  ∃ need r,
    1 ≤ need ≤ length st
    ∧ build_topo (length st) st root (∅, []) = Some r
    ∧ ∀ room, (room < need → Stack.build_topo room st root (∅, []) = TooDeep)
              ∧ (need ≤ room → Stack.build_topo room st root (∅, []) = Walked r).
Proof.
  intros Hwf Hroot.
  destruct (build_topo_root st root Hwf Hroot) as (V & topo & before & Hrun & _).
  destruct (walk_threshold (λ d, Stack.build_topo d st root (∅, [])) (length st) (V, topo))
    as (need & Hneed & Hrooms).
  - intros d a. apply stack_build_topo_step.
  - intros d. by apply stack_build_topo_defined.
  - done.
  - by apply stack_build_topo_walked.
  - by exists need, (V, topo).
Qed.

(** [backward] under the limit: [RecursionError] with nothing written, or
    the pass. *)
Lemma stack_backward_threshold (c : config) (root : ref) :
  wf (store c) → root < length (store c) →
  ∃ need,
    1 ≤ need ≤ length (store c)
    ∧ ∀ room,
        (room < need →
           Stack.build_topo room (store c) root (∅, []) = TooDeep
           ∧ Stack.backward room root c = (Raise RecursionError, c))
        ∧ (need ≤ room →
             (∃ r, Stack.build_topo room (store c) root (∅, []) = Walked r
                   ∧ build_topo (length (store c)) (store c) root (∅, []) = Some r)
             ∧ Stack.backward room root c = backward root c).
Proof.
  intros Hwf Hroot.
  destruct (stack_build_topo_threshold (store c) root Hwf Hroot)
    as (need & [V topo] & Hneed & Hfull & Hrooms).
  exists need. split; [done|]. intros room. destruct (Hrooms room) as [Hlow Hhigh].
  split; intros Hroom.
  - specialize (Hlow Hroom). split; [done|]. unfold Stack.backward. by rewrite Hlow.
  - specialize (Hhigh Hroom). split; [by exists (V, topo)|].
    unfold Stack.backward, backward. by rewrite Hhigh, Hfull.
Qed.

(** ** The exceptions of a pass *)

(** A computation that raises the errors of Python's arithmetic only. *)
Definition arith_only {A : Type} (m : M A) : Prop :=
  ∀ c e, (m c).1 = Raise e → ∃ a, e = exn_of_arith a.

Lemma arith_only_ret {A : Type} (a : A) : arith_only (mret a).
Proof. by intros c e. Qed.

Lemma arith_only_num {A : Type} (r : arith A) : arith_only (num r).
Proof. intros c e. destruct r as [a|a]; simpl; [done|]. intros [= <-]. by exists a. Qed.

Lemma arith_only_load (r : ref) : arith_only (load r).
Proof. intros c e. unfold load. by destruct (store c !! r). Qed.

Lemma arith_only_update (r : ref) (f : Value → Value) : arith_only (update r f).
Proof. intros c e. unfold update. by destruct (store c !! r). Qed.

Lemma arith_only_emit (ev : event) : arith_only (emit ev).
Proof. by intros c e. Qed.

Lemma arith_only_bind {A B : Type} (m : M A) (k : A → M B) :
  arith_only m → (∀ a, arith_only (k a)) → arith_only (m ≫= k).
Proof.
  intros Hm Hk c e. rewrite bind_run. specialize (Hm c).
  destruct (m c) as [[a|e'|] c1]; simpl in *; [apply Hk | | done].
  intros [= <-]. by apply Hm.
Qed.

Lemma arith_only_iadd_grad (r : ref) (rhs : M pynum) :
  arith_only rhs → arith_only (iadd_grad r rhs).
Proof.
  intros Hrhs. unfold iadd_grad.
  repeat (apply arith_only_bind; [|intros ?]);
    auto using arith_only_load, arith_only_num, arith_only_update, arith_only_emit.
Qed.

Lemma arith_only_call (f : closure) : arith_only (call f).
Proof.
  destruct f; unfold call; [apply arith_only_ret|..];
    repeat first [ apply arith_only_iadd_grad
                 | apply arith_only_load
                 | apply arith_only_num
                 | apply arith_only_bind; [|intros ?] ].
Qed.

Lemma arith_only_for_each (vs : list ref) (body : ref → M unit) :
  (∀ v, arith_only (body v)) → arith_only (for_each vs body).
Proof.
  intros Hbody. induction vs as [|v vs IH]; [apply arith_only_ret|].
  simpl. apply arith_only_bind; [apply Hbody | by intros _].
Qed.

(** With room to spare, [backward] raises the errors of Python's arithmetic
    only. *)
Lemma arith_only_backward (root : ref) : arith_only (backward root).
Proof.
  intros c e. unfold backward.
  destruct (build_topo _ _ _ _) as [[V topo]|]; [|done].
  revert c e.
  change (arith_only (assign_grad root (PyInt 1);;
                      for_each (reverse topo)
                        (λ v, n ← load v; emit (Call v);; call (_backward n));;
                      mret topo)).
  apply arith_only_bind; [|intros _; apply arith_only_bind; [|intros _; apply arith_only_ret]].
  - unfold assign_grad. apply arith_only_bind; [apply arith_only_update|].
    intros _. apply arith_only_emit.
  - apply arith_only_for_each. intros v.
    apply arith_only_bind; [apply arith_only_load|]. intros n.
    apply arith_only_bind; [apply arith_only_emit|]. intros _. apply arith_only_call.
Qed.

(** A pass that returns under the limit is the pass with room to spare. *)
Lemma stack_backward_returns (room : nat) (c c' : config) (root : ref)
    (topo : list ref) :
  wf (store c) → root < length (store c) →
  Stack.backward room root c = (Ok topo, c') → backward root c = (Ok topo, c').
Proof.
  intros Hwf Hroot Hrun.
  destruct (stack_backward_threshold c root Hwf Hroot) as (need & _ & Hrooms).
  destruct (Hrooms room) as [Hlow Hhigh].
  destruct (decide (room < need)) as [Hroom | Hroom].
  - destruct (Hlow Hroom) as [_ Heq]. by rewrite Heq in Hrun.
  - destruct Hhigh as [_ Heq]; [lia|]. by rewrite <- Heq.
Qed.

(** How [backward] ends on an object of a well-formed store, for every room
    that the interpreter may have left. *)
Lemma stack_backward_ends (c : config) (root : ref) :
  wf (store c) → root < length (store c) →
  ∃ need topo,
    1 ≤ need ≤ length (store c)
    ∧ NoDup topo
    ∧ (∀ x, x ∈ topo ↔ reachable (store c) root x)
    ∧ ∀ room,
        (room < need →
           Stack.build_topo room (store c) root (∅, []) = TooDeep
           ∧ Stack.backward room root c = (Raise RecursionError, c))
        ∧ (need ≤ room →
             (∃ V, Stack.build_topo room (store c) root (∅, []) = Walked (V, topo))
             ∧ ∃ o c' es,
                 Stack.backward room root c = (o, c')
                 ∧ (o = Ok topo ∨ ∃ e, o = Raise (exn_of_arith e))
                 ∧ trace c' = trace c ++ SetGrad root (PyInt 1) :: es
                 ∧ ∃ called rest, reverse topo = called ++ rest ∧ calls es = called
                                  ∧ (o = Ok topo → rest = [])).
Proof.
  intros Hwf Hroot.
  destruct (backward_run c root Hwf Hroot)
    as (topo & before & vroot & es & o & c' & _ & Hnd & _ & Hreach & _ & _
        & Hrun & Ho & Htr & _ & Hcalls & V & Hdfs).
  destruct (stack_backward_threshold c root Hwf Hroot) as (need & Hneed & Hrooms).
  exists need, topo. split_and!; [lia | lia | done | done |].
  intros room. destruct (Hrooms room) as [Hlow Hhigh]. split; [done|].
  intros Hroom. destruct (Hhigh Hroom) as [(r & Hwalk & Hfull) Heq].
  rewrite Hdfs in Hfull. injection Hfull as <-.
  split; [by exists V|]. exists o, c', es. rewrite Heq.
  split_and!; [done | | done | done].
  destruct Ho as [-> | [e ->]]; [by left|]. right.
  destruct (arith_only_backward root c e) as [a ->]; [by rewrite Hrun|].
  by exists a.
Qed.

End StackFacts.

(** * A sample graph

    [z = x*y + x.relu()] on the leaves [x = Value(-2.0)] and [y = Value(3.0)]:
    [x] is an operand of two objects. Returns [(x, y, z)]. *)
Definition sample_graph {pow : PowerOp} {order : SetOrder} : M (ref * ref * ref) :=
  x ← __init__ (PyFloat (-2)) "" [] OpNone;
  y ← __init__ (PyFloat 3) "" [] OpNone;
  m ← __mul__ x (ObjValue y);
  r ← relu x;
  z ← __add__ m (ObjValue r);
  mret (x, y, z).

(** [b = a + a] on a new leaf [a = Value(d)]. Returns [b]. *)
Definition self_sum {pow : PowerOp} {order : SetOrder} (d : pynum) : M ref :=
  a ← __init__ d "" [] OpNone;
  __add__ a (ObjValue a).

(** The sample graph built from nothing, sets iterating by insertion. *)
Definition sample_config : config :=
  (@sample_graph int_power insertion_order start).2.

(** * Claims about the backward pass *)

Section BackwardClaims.
Context {pow : PowerOp}.

(** C1. The list that [backward] returns is a topological order of the
    graph reachable from the root: no object occurs twice in it, it holds
    exactly the objects reachable from the root, and every operand of the
    object at index [i] is at some index below [i]. *)
Theorem backward_returns_topological_order (c c' : config) (root : ref)
    (topo : list ref) :
  wf (store c) → root < length (store c) →
  backward root c = (Ok topo, c') →
  NoDup topo
  ∧ (∀ x, x ∈ topo ↔ reachable (store c) root x)
  ∧ (∀ i n, topo !! i = Some n →
       ∀ x, x ∈ operands (store c) n → ∃ j, j < i ∧ topo !! j = Some x).
Proof.
  intros Hwf Hroot Hrun.
  destruct (backward_run c root Hwf Hroot)
    as (topo' & before & vroot & es & o & c2 & _ & Hnd & Hsorted & Hreach & _ & _
        & Hrun' & Ho & _).
  rewrite Hrun in Hrun'. injection Hrun' as <- <-.
  destruct Ho as [Ho | [e Ho]]; [|done]. injection Ho as ->.
  split_and!; done.
Qed.


End BackwardClaims.

Lemma backward_returns_topological_order_witness :
  NoDup [0; 1; 2; 3; 4]
  ∧ (∀ x, x ∈ [0; 1; 2; 3; 4] ↔ reachable (store sample_config) 4 x)
  ∧ (∀ i n, [0; 1; 2; 3; 4] !! i = Some n →
       ∀ x, x ∈ operands (store sample_config) n →
         ∃ j, j < i ∧ [0; 1; 2; 3; 4] !! j = Some x).
Proof.
  apply (@backward_returns_topological_order int_power sample_config
           (@backward int_power 4 sample_config).2 4 [0; 1; 2; 3; 4]).
  - apply wf_check. vm_compute. reflexivity.
  - vm_compute. lia.
  - vm_compute. reflexivity.
Defined.


(** * Stores built by the methods of the class *)

(** What a program can do with [Value] objects: build one from a number, call
    a method or an operator on objects it holds, or assign a gradient (as
    [zero_grad] of [micrograd/nn.py] does). A call of [backward] that the
    recursion limit cuts short changes nothing, so that the limit adds no
    store to those reached here. *)
Inductive method : Type :=
  | NewValue (d : pynum) (label : string)       (* [Value(d, label)] *)
  | Add (self : ref) (other : pyobj)            (* [self + other] *)
  | RAdd (self : ref) (other : pyobj)           (* [other + self] *)
  | Mul (self : ref) (other : pyobj)            (* [self * other] *)
  | RMul (self : ref) (other : pyobj)           (* [other * self] *)
  | Pow (self : ref) (power : pyobj)            (* [self ** power] *)
  | Relu (self : ref)                           (* [self.relu()] *)
  | Neg (self : ref)                            (* [-self] *)
  | Sub (self : ref) (other : pyobj)            (* [self - other] *)
  | RSub (self : ref) (other : pyobj)           (* [other - self] *)
  | TrueDiv (self : ref) (other : pyobj)        (* [self / other] *)
  | RTrueDiv (self : ref) (other : pyobj)       (* [other / self] *)
  | Backward (self : ref)                       (* [self.backward()] *)
  | SetGradient (self : ref) (g : pynum).       (* [self.grad = g] *)

(** An object as its [_op] says it was built: a leaf has no operand and the
    empty backward function; the result of an operation has the set of its
    inputs as operands and the backward function of that operation, closed
    over inputs that were built before it. *)
Definition shaped_node {order : SetOrder} (i : ref) (n : Value) : Prop :=
  match _op n with
  | OpNone => _prev n = [] ∧ _backward n = NoBackward
  | OpAdd =>
      ∃ a b, a < i ∧ b < i ∧ _prev n = set_of [a; b]
             ∧ _backward n = AddBackward a b i
  | OpMul =>
      ∃ a b, a < i ∧ b < i ∧ _prev n = set_of [a; b]
             ∧ _backward n = MulBackward a b i
  | OpPow p =>
      ∃ a, a < i ∧ _prev n = set_of [a] ∧ _backward n = PowBackward a p i
  | OpReLU =>
      ∃ a, a < i ∧ _prev n = set_of [a] ∧ _backward n = ReluBackward a i
  end.

Definition shaped {order : SetOrder} (st : list Value) : Prop :=
  ∀ i n, st !! i = Some n → shaped_node i n.

(** A property of stores that a computation keeps. *)
Definition keeps (P : list Value → Prop) {A : Type} (m : M A) : Prop :=
  ∀ c, P (store c) → P (store (m c).2).

Lemma keeps_readonly (P : list Value → Prop) {A : Type} (m : M A) :
  readonly m → keeps P m.
Proof. intros H c Hc. by rewrite H. Qed.

Lemma keeps_bind (P : list Value → Prop) {A B : Type} (m : M A) (k : A → M B) :
  keeps P m → (∀ a, keeps P (k a)) → keeps P (m ≫= k).
Proof.
  intros Hm Hk c Hc. rewrite bind_run. specialize (Hm c Hc).
  destruct (m c) as [[a|e|] c1]; simpl in *; try done. by apply Hk.
Qed.

(** Every object of the store is still there, with the attributes that only
    its construction wrote. *)
Definition stable {A : Type} (m : M A) : Prop :=
  ∀ c i n, store c !! i = Some n →
    ∃ n', store (m c).2 !! i = Some n' ∧ same_but_grad n n'.

Lemma same_but_grad_trans (v1 v2 v3 : Value) :
  same_but_grad v1 v2 → same_but_grad v2 v3 → same_but_grad v1 v3.
Proof.
  intros (? & ? & ? & ? & ?) (? & ? & ? & ? & ?). repeat split; congruence.
Qed.

Lemma stable_grows {A : Type} (m : M A) : grows m → stable m.
Proof.
  intros H c i n Hn. exists n. split; [|apply same_but_grad_refl].
  eapply extends_lookup; [apply H | done].
Qed.

Lemma stable_bind {A B : Type} (m : M A) (k : A → M B) :
  stable m → (∀ a, stable (k a)) → stable (m ≫= k).
Proof.
  intros Hm Hk c i n Hn. rewrite bind_run.
  destruct (Hm c i n Hn) as (n1 & Hn1 & Hs1).
  destruct (m c) as [[a|e|] c1]; simpl in *; try by exists n1.
  destruct (Hk a c1 i n1 Hn1) as (n2 & Hn2 & Hs2).
  exists n2. split; [done|]. by eapply same_but_grad_trans.
Qed.

Section Built.
Context {pow : PowerOp} {order : SetOrder}.

Definition invoke (m : method) : M unit :=
  match m with
  | NewValue d label => __init__ d label [] OpNone ≫= λ _, mret tt
  | Add self other => __add__ self other ≫= λ _, mret tt
  | RAdd self other => __radd__ self other ≫= λ _, mret tt
  | Mul self other => __mul__ self other ≫= λ _, mret tt
  | RMul self other => __rmul__ self other ≫= λ _, mret tt
  | Pow self power => __pow__ self power ≫= λ _, mret tt
  | Relu self => relu self ≫= λ _, mret tt
  | Neg self => __neg__ self ≫= λ _, mret tt
  | Sub self other => __sub__ self other ≫= λ _, mret tt
  | RSub self other => __rsub__ self other ≫= λ _, mret tt
  | TrueDiv self other => __truediv__ self other ≫= λ _, mret tt
  | RTrueDiv self other => __rtruediv__ self other ≫= λ _, mret tt
  | Backward self => backward self ≫= λ _, mret tt
  | SetGradient self g => assign_grad self g
  end.

(** The configurations a program reaches from nothing. *)
Inductive built : config → Prop :=
  | built_start : built start
  | built_step (c : config) (m : method) : built c → built (invoke m c).2.

Lemma shaped_wf (st : list Value) : shaped st → wf st.
Proof.
  intros Hs i n Hi. specialize (Hs i n Hi). unfold shaped_node in Hs.
  destruct (_op n).
  - destruct Hs as [-> ->]. split; [|done]. intros x Hx. by apply elem_of_nil in Hx.
  - destruct Hs as (a & b & Ha & Hb & -> & ->). split; [|done].
    intros x Hx. rewrite set_of_elem in Hx.
    rewrite !elem_of_cons, elem_of_nil in Hx. destruct Hx as [-> | [-> | []]]; done.
  - destruct Hs as (a & b & Ha & Hb & -> & ->). split; [|done].
    intros x Hx. rewrite set_of_elem in Hx.
    rewrite !elem_of_cons, elem_of_nil in Hx. destruct Hx as [-> | [-> | []]]; done.
  - destruct Hs as (a & Ha & -> & ->). split; [|done].
    intros x Hx. rewrite set_of_one in Hx. by apply list_elem_of_singleton in Hx as ->.
  - destruct Hs as (a & Ha & -> & ->). split; [|done].
    intros x Hx. rewrite set_of_one in Hx. by apply list_elem_of_singleton in Hx as ->.
Qed.

Lemma shaped_snoc (st : list Value) (v : Value) :
  shaped st → shaped_node (length st) v → shaped (st ++ [v]).
Proof.
  intros Hs Hv i n Hi.
  apply lookup_app_Some in Hi as [Hi | [Hlen Hi]]; [by apply Hs|].
  apply list_lookup_singleton_Some in Hi as [Hi <-].
  by assert (i = length st) as -> by lia.
Qed.

Lemma shaped_same (st st' : list Value) :
  shaped st → length st' = length st →
  (∀ i n, st !! i = Some n → ∃ n', st' !! i = Some n' ∧ same_but_grad n n') →
  shaped st'.
Proof.
  intros Hs Hlen Hsame i n' Hi.
  assert (i < length st) as Hlt by (apply lookup_lt_Some in Hi; lia).
  destruct (lookup_lt_is_Some_2 st i Hlt) as [n Hn].
  destruct (Hsame i n Hn) as (n2 & Hn2 & _ & Hb & _ & Hp & Ho).
  assert (n2 = n') as -> by congruence.
  specialize (Hs i n Hn). unfold shaped_node in *. by rewrite Ho, Hp, Hb.
Qed.

Lemma init_keeps_shaped (d : pynum) (label : string) :
  keeps shaped (__init__ d label [] OpNone).
Proof.
  intros c Hc. simpl. apply shaped_snoc; [done|].
  unfold shaped_node. simpl. by rewrite set_of_nil.
Qed.

Lemma init_grows (d : pynum) (label : string) (prev : list ref) (op : op_tag) :
  grows (__init__ d label prev op).
Proof. intros c. by eexists [_]. Qed.

Lemma binop_run_shaped (op : pynum → pynum → arith pynum)
    (f : ref → ref → ref → closure) (tag : op_tag) (self other : ref) (c : config) :
  (tag = OpAdd ∧ f = AddBackward) ∨ (tag = OpMul ∧ f = MulBackward) →
  shaped (store c) → shaped (store (binop_run op f tag self other c).2).
Proof.
  intros Htag Hc. unfold binop_run.
  destruct (store c !! self) as [s|] eqn:Hs; [|done].
  destruct (store c !! other) as [o|] eqn:Ho; [|done].
  destruct (op (data s) (data o)) as [x|e]; [|done].
  simpl. apply shaped_snoc; [done|].
  apply lookup_lt_Some in Hs, Ho.
  destruct Htag as [[-> ->] | [-> ->]]; unfold shaped_node; simpl;
    by exists self, other.
Qed.

Lemma binop_run_extends (op : pynum → pynum → arith pynum)
    (f : ref → ref → ref → closure) (tag : op_tag) (self other : ref) (c : config) :
  extends c (binop_run op f tag self other c).2.
Proof.
  unfold binop_run.
  destruct (store c !! self) as [s|]; [|apply extends_refl].
  destruct (store c !! other) as [o|]; [|apply extends_refl].
  destruct (op (data s) (data o)) as [x|e]; [|apply extends_refl].
  apply extends_push.
Qed.

Lemma add_keeps_shaped (self : ref) (other : pyobj) :
  keeps shaped (__add__ self other).
Proof.
  intros c Hc. destruct other as [o | n | ty].
  - rewrite add_value. apply binop_run_shaped; auto.
  - rewrite add_num. apply binop_run_shaped; [auto|].
    apply (init_keeps_shaped n "" c Hc).
  - by rewrite add_other.
Qed.

Lemma add_grows (self : ref) (other : pyobj) : grows (__add__ self other).
Proof.
  intros c. destruct other as [o | n | ty].
  - rewrite add_value. apply binop_run_extends.
  - rewrite add_num. eapply extends_trans; [|apply binop_run_extends].
    apply extends_push.
  - rewrite add_other. apply extends_refl.
Qed.

Lemma mul_keeps_shaped (self : ref) (other : pyobj) :
  keeps shaped (__mul__ self other).
Proof.
  intros c Hc. destruct other as [o | n | ty].
  - rewrite mul_value. apply binop_run_shaped; auto.
  - rewrite mul_num. apply binop_run_shaped; [auto|].
    apply (init_keeps_shaped n "" c Hc).
  - by rewrite mul_other.
Qed.

Lemma mul_grows (self : ref) (other : pyobj) : grows (__mul__ self other).
Proof.
  intros c. destruct other as [o | n | ty].
  - rewrite mul_value. apply binop_run_extends.
  - rewrite mul_num. eapply extends_trans; [|apply binop_run_extends].
    apply extends_push.
  - rewrite mul_other. apply extends_refl.
Qed.

Lemma pow_keeps_shaped (self : ref) (power : pyobj) :
  keeps shaped (__pow__ self power).
Proof.
  intros c Hc. destruct power as [o | p | ty]; [done | | done].
  rewrite pow_num. destruct (store c !! self) as [s|] eqn:Hs; [|done].
  destruct (py_pow (data s) p) as [x|e]; [|done].
  simpl. apply shaped_snoc; [done|]. apply lookup_lt_Some in Hs.
  unfold shaped_node. simpl. by exists self.
Qed.

Lemma pow_grows (self : ref) (power : pyobj) : grows (__pow__ self power).
Proof.
  intros c. destruct power as [o | p | ty]; [apply extends_refl | | apply extends_refl].
  rewrite pow_num. destruct (store c !! self) as [s|]; [|apply extends_refl].
  destruct (py_pow (data s) p) as [x|e]; [apply extends_push | apply extends_refl].
Qed.

Lemma relu_keeps_shaped (self : ref) : keeps shaped (relu self).
Proof.
  intros c Hc. rewrite relu_run. destruct (store c !! self) as [s|] eqn:Hs; [|done].
  simpl. apply shaped_snoc; [done|]. apply lookup_lt_Some in Hs.
  unfold shaped_node. simpl. by exists self.
Qed.

Lemma relu_grows (self : ref) : grows (relu self).
Proof.
  intros c. rewrite relu_run.
  destruct (store c !! self) as [s|]; [apply extends_push | apply extends_refl].
Qed.

Lemma neg_keeps_shaped (self : ref) : keeps shaped (__neg__ self).
Proof. apply mul_keeps_shaped. Qed.

Lemma neg_grows (self : ref) : grows (__neg__ self).
Proof. apply mul_grows. Qed.

Lemma neg_obj_keeps_shaped (other : pyobj) : keeps shaped (neg_obj other).
Proof.
  destruct other as [o | n | ty]; unfold neg_obj;
    [|apply keeps_readonly; auto with readonly..].
  apply keeps_bind; [apply neg_keeps_shaped |].
  intros a. apply keeps_readonly. auto with readonly.
Qed.

Lemma neg_obj_grows (other : pyobj) : grows (neg_obj other).
Proof.
  destruct other as [o | n | ty]; unfold neg_obj; [|intros c; apply extends_refl..].
  apply grows_bind; [apply neg_grows | intros a c; apply extends_refl].
Qed.

Lemma pow_obj_keeps_shaped (other : pyobj) (p : pynum) : keeps shaped (pow_obj other p).
Proof.
  destruct other as [o | n | ty]; unfold pow_obj.
  - apply keeps_bind; [apply pow_keeps_shaped |].
    intros a. apply keeps_readonly. auto with readonly.
  - apply keeps_readonly. auto with readonly.
  - apply keeps_readonly. auto with readonly.
Qed.

Lemma pow_obj_grows (other : pyobj) (p : pynum) : grows (pow_obj other p).
Proof.
  destruct other as [o | n | ty]; unfold pow_obj; [| |intros c; apply extends_refl].
  - apply grows_bind; [apply pow_grows | intros a c; apply extends_refl].
  - apply grows_readonly. auto with readonly.
Qed.

Lemma mul_obj_keeps_shaped (other : pyobj) (t : ref) : keeps shaped (mul_obj other t).
Proof. destruct other; unfold mul_obj, __rmul__; apply mul_keeps_shaped. Qed.

Lemma mul_obj_grows (other : pyobj) (t : ref) : grows (mul_obj other t).
Proof. destruct other; unfold mul_obj, __rmul__; apply mul_grows. Qed.

Lemma sub_keeps_shaped (self : ref) (other : pyobj) : keeps shaped (__sub__ self other).
Proof.
  apply keeps_bind; [apply neg_obj_keeps_shaped | intros; apply add_keeps_shaped].
Qed.

Lemma sub_grows (self : ref) (other : pyobj) : grows (__sub__ self other).
Proof. apply grows_bind; [apply neg_obj_grows | intros; apply add_grows]. Qed.

Lemma truediv_keeps_shaped (self : ref) (other : pyobj) :
  keeps shaped (__truediv__ self other).
Proof.
  apply keeps_bind; [apply pow_obj_keeps_shaped | intros; apply mul_keeps_shaped].
Qed.

Lemma truediv_grows (self : ref) (other : pyobj) : grows (__truediv__ self other).
Proof. apply grows_bind; [apply pow_obj_grows | intros; apply mul_grows]. Qed.

Lemma rtruediv_keeps_shaped (self : ref) (other : pyobj) :
  keeps shaped (__rtruediv__ self other).
Proof.
  apply keeps_bind; [apply pow_keeps_shaped | intros; apply mul_obj_keeps_shaped].
Qed.

Lemma rtruediv_grows (self : ref) (other : pyobj) : grows (__rtruediv__ self other).
Proof. apply grows_bind; [apply pow_grows | intros; apply mul_obj_grows]. Qed.

(** [backward] on a reference that the store does not hold. *)
Lemma backward_outside (c : config) (root : ref) :
  length (store c) ≤ root → backward root c = (Undefined, c).
Proof.
  intros Hroot. unfold backward.
  destruct (length (store c)) as [|d] eqn:Hlen; [done|].
  simpl. case_decide as Hin; [by apply elem_of_empty in Hin|].
  rewrite (proj2 (lookup_ge_None (store c) root)); [done | lia].
Qed.

(** [backward] writes gradients only. *)
Lemma backward_same (c : config) (root : ref) :
  wf (store c) →
  length (store (backward root c).2) = length (store c)
  ∧ ∀ i n, store c !! i = Some n →
      ∃ n', store (backward root c).2 !! i = Some n' ∧ same_but_grad n n'.
Proof.
  intros Hwf. destruct (decide (root < length (store c))) as [Hroot | Hroot].
  - destruct (backward_run c root Hwf Hroot)
      as (topo & before & vroot & es & o & c' & _ & _ & _ & _ & _ & Hvroot
          & Hrun & _ & _ & Hinv & _).
    rewrite Hrun. simpl. split.
    { rewrite (pi_length _ _ _ _ Hinv). apply length_insert. }
    intros i n Hn. destruct (decide (i = root)) as [-> | Hne].
    + destruct (pi_nodes _ _ _ _ Hinv root (with_grad (PyInt 1) vroot))
        as (n' & Hn' & Hsame & _).
      { apply list_lookup_insert_eq. by eapply lookup_lt_Some. }
      exists n'. by assert (n = vroot) as -> by congruence.
    + destruct (pi_nodes _ _ _ _ Hinv i n) as (n' & Hn' & Hsame & _).
      { by rewrite list_lookup_insert_ne. }
      by exists n'.
  - rewrite backward_outside by lia. simpl. split; [done|].
    intros i n Hn. exists n. split; [done | apply same_but_grad_refl].
Qed.

Lemma assign_grad_same (c : config) (r : ref) (g : pynum) :
  length (store (assign_grad r g c).2) = length (store c)
  ∧ ∀ i n, store c !! i = Some n →
      ∃ n', store (assign_grad r g c).2 !! i = Some n' ∧ same_but_grad n n'.
Proof.
  unfold assign_grad. rewrite bind_run. unfold update.
  destruct (store c !! r) as [v|] eqn:Hv; simpl.
  - split; [apply length_insert|]. intros i n Hn.
    destruct (decide (r = i)) as [-> | Hne].
    + exists (with_grad g v). rewrite list_lookup_insert_eq by (by eapply lookup_lt_Some).
      by assert (n = v) as -> by congruence.
    + exists n. rewrite list_lookup_insert_ne by done.
      split; [done | apply same_but_grad_refl].
  - split; [done|]. intros i n Hn. exists n. split; [done | apply same_but_grad_refl].
Qed.

Lemma result_dropped {A : Type} (m : M A) (c : config) :
  ((m ≫= λ _, mret tt) c).2 = (m c).2.
Proof. rewrite bind_run. by destruct (m c) as [[a|e|] c']. Qed.

Lemma invoke_keeps_shaped (m : method) (c : config) :
  shaped (store c) → shaped (store (invoke m c).2).
Proof.
  intros Hc. destruct m; unfold invoke; rewrite ?result_dropped.
  - by apply init_keeps_shaped.
  - by apply add_keeps_shaped.
  - by apply add_keeps_shaped.
  - by apply mul_keeps_shaped.
  - by apply mul_keeps_shaped.
  - by apply pow_keeps_shaped.
  - by apply relu_keeps_shaped.
  - by apply neg_keeps_shaped.
  - by apply sub_keeps_shaped.
  - by apply sub_keeps_shaped.
  - by apply truediv_keeps_shaped.
  - by apply rtruediv_keeps_shaped.
  - destruct (backward_same c self (shaped_wf _ Hc)) as [Hlen Hsame].
    by eapply shaped_same.
  - destruct (assign_grad_same c self g) as [Hlen Hsame].
    by eapply shaped_same.
Qed.

Lemma built_shaped (c : config) : built c → shaped (store c).
Proof.
  induction 1 as [|c m _ IH]; [by intros i n Hi | by apply invoke_keeps_shaped].
Qed.

Lemma built_wf (c : config) : built c → wf (store c).
Proof. intros H. by apply shaped_wf, built_shaped. Qed.

(** A method or an assignment of a gradient leaves every object where it is,
    with the attributes that its construction wrote. *)
Lemma invoke_stable (m : method) (c : config) :
  wf (store c) →
  ∀ i n, store c !! i = Some n →
    ∃ n', store (invoke m c).2 !! i = Some n' ∧ same_but_grad n n'.
Proof.
  intros Hwf.
  assert (∀ (A : Type) (f : M A), grows f →
            ∀ i n, store c !! i = Some n →
              ∃ n', store (f c).2 !! i = Some n' ∧ same_but_grad n n') as Hg.
  { intros A f Hf. by apply stable_grows. }
  destruct m; unfold invoke; rewrite ?result_dropped.
  - apply Hg, init_grows.
  - apply Hg, add_grows.
  - apply Hg, add_grows.
  - apply Hg, mul_grows.
  - apply Hg, mul_grows.
  - apply Hg, pow_grows.
  - apply Hg, relu_grows.
  - apply Hg, neg_grows.
  - apply Hg, sub_grows.
  - apply Hg, sub_grows.
  - apply Hg, truediv_grows.
  - apply Hg, rtruediv_grows.
  - by apply backward_same.
  - apply assign_grad_same.
Qed.

End Built.

(** * Claims about stores built by the methods *)

Fixpoint run_methods {pow : PowerOp} {order : SetOrder} (ms : list method)
    (c : config) : config :=
  match ms with
  | [] => c
  | m :: ms' => run_methods ms' (invoke m c).2
  end.

Lemma built_run_methods {pow : PowerOp} {order : SetOrder} (ms : list method)
    (c : config) :
  built c → built (run_methods ms c).
Proof.
  revert c. induction ms as [|m ms IH]; intros c Hc; [done|].
  simpl. apply IH. by constructor.
Qed.

Lemma sample_config_built : @built int_power insertion_order sample_config.
Proof.
  assert (sample_config
          = @run_methods int_power insertion_order
              [NewValue (PyFloat (-2)) ""; NewValue (PyFloat 3) "";
               Mul 0 (ObjValue 1); Relu 0; Add 2 (ObjValue 3)] start) as ->
    by (vm_compute; reflexivity).
  apply built_run_methods. constructor.
Qed.

Section BuiltClaims.
Context {pow : PowerOp} {order : SetOrder}.

(** C8, as the code has it. The operands of an object are a set of 0, 1 or 2
    references, without order of its own and without duplicates: empty for a
    leaf, the input of a power or a ReLU, the inputs of an addition or a
    multiplication (a single element when the same object is used twice, as
    in [a + a], else both, in the order the set iterates them). No method
    changes the operands of an object that exists. *)
Theorem operands_are_a_set_fixed_at_construction (c : config) :
  built c →
  (∀ i n, store c !! i = Some n →
     match _op n with
     | OpNone => _prev n = []
     | OpPow _ | OpReLU =>
         ∃ a, a < i ∧ targets (_backward n) = [a] ∧ _prev n = [a]
     | OpAdd | OpMul =>
         ∃ a b, a < i ∧ b < i ∧ targets (_backward n) = [a; b]
                ∧ NoDup (_prev n)
                ∧ (∀ x, x ∈ _prev n ↔ x = a ∨ x = b)
                ∧ (a = b → _prev n = [a])
                ∧ (a ≠ b → _prev n = [a; b] ∨ _prev n = [b; a])
     end)
  ∧ (∀ m i n, store c !! i = Some n →
       ∃ n', store (invoke m c).2 !! i = Some n' ∧ _prev n' = _prev n).
Proof.
  intros Hc. split.
  - intros i n Hn. pose proof (built_shaped c Hc i n Hn) as Hs.
    unfold shaped_node in Hs.
    assert (∀ a b, NoDup (set_of [a; b])
                   ∧ (∀ x, x ∈ set_of [a; b] ↔ x = a ∨ x = b)
                   ∧ (a = b → set_of [a; b] = [a])
                   ∧ (a ≠ b → set_of [a; b] = [a; b] ∨ set_of [a; b] = [b; a]))
      as Hpair.
    { intros a b. split_and!.
      - apply set_of_NoDup.
      - intros x. rewrite set_of_elem, !elem_of_cons, elem_of_nil. tauto.
      - intros ->. apply set_of_same.
      - apply set_of_two. }
    destruct (_op n).
    + by destruct Hs as [-> _].
    + destruct Hs as (a & b & Ha & Hb & -> & ->). exists a, b.
      split_and!; try done; apply Hpair.
    + destruct Hs as (a & b & Ha & Hb & -> & ->). exists a, b.
      split_and!; try done; apply Hpair.
    + destruct Hs as (a & Ha & -> & ->). exists a. by rewrite set_of_one.
    + destruct Hs as (a & Ha & -> & ->). exists a. by rewrite set_of_one.
  - intros m i n Hn.
    destruct (invoke_stable m c (built_wf c Hc) i n Hn) as (n' & Hn' & Hsame).
    exists n'. split; [done|]. by destruct Hsame as (_ & _ & _ & -> & _).
Qed.


End BuiltClaims.

(** C8, as the specification states it, fails: the operands of [a + a] hold
    [a] once. *)
Lemma operands_of_a_plus_a :
  ∃ c' n,
    @self_sum int_power insertion_order (PyFloat 3) start = (Ok 1, c')
    ∧ store c' !! 1 = Some n
    ∧ _op n = OpAdd
    ∧ _backward n = AddBackward 0 0 1
    ∧ _prev n = [0]
    ∧ length (_prev n) = 1.
Proof. eexists _, _. vm_compute. by split_and!. Qed.

Lemma operands_are_a_set_fixed_at_construction_witness :
  (∀ i n, store sample_config !! i = Some n →
     match _op n with
     | OpNone => _prev n = []
     | OpPow _ | OpReLU =>
         ∃ a, a < i ∧ targets (_backward n) = [a] ∧ _prev n = [a]
     | OpAdd | OpMul =>
         ∃ a b, a < i ∧ b < i ∧ targets (_backward n) = [a; b]
                ∧ NoDup (_prev n)
                ∧ (∀ x, x ∈ _prev n ↔ x = a ∨ x = b)
                ∧ (a = b → _prev n = [a])
                ∧ (a ≠ b → _prev n = [a; b] ∨ _prev n = [b; a])
     end)
  ∧ (∀ m i n, store sample_config !! i = Some n →
       ∃ n', store (@invoke int_power insertion_order m sample_config).2 !! i = Some n'
             ∧ _prev n' = _prev n).
Proof.
  apply (@operands_are_a_set_fixed_at_construction int_power insertion_order).
  apply sample_config_built.
Defined.



(** * A chain deeper than the stack

    [x = Value(1.0)] and then [x = x.relu()], [n] times: the objects [0] to
    [n], each but the first with the one before it as its operand. *)
Definition chain_methods (n : nat) : list method :=
  NewValue (PyFloat 1) "" :: (Relu <$> seq 0 n).

Definition chain_config {pow : PowerOp} {order : SetOrder} (n : nat) : config :=
  run_methods (chain_methods n) start.

Section DeepChain.
Context {pow : PowerOp} {order : SetOrder}.

Lemma run_methods_snoc (ms : list method) (m : method) (c : config) :
  run_methods (ms ++ [m]) c = (invoke m (run_methods ms c)).2.
Proof. revert c. induction ms as [|m' ms IH]; intros c; simpl; [done | apply IH]. Qed.

Lemma chain_config_S (n : nat) :
  chain_config (S n) = (relu n (chain_config n)).2.
Proof.
  unfold chain_config, chain_methods. rewrite seq_S, fmap_app, app_comm_cons.
  change (Relu <$> [0 + n]) with [Relu n].
  rewrite run_methods_snoc. cbn [invoke]. apply result_dropped.
Qed.

(** The chain of [n] calls: [n + 1] objects, none with a gradient yet, each
    but the first with the one before it as its only operand. *)
Lemma chain_config_shape (n : nat) :
  length (store (chain_config n)) = S n
  ∧ trace (chain_config n) = []
  ∧ ∀ i node, store (chain_config n) !! i = Some node →
      grad node = PyFloat 0 ∧ ∀ j, i = S j → _prev node = [j].
Proof.
  induction n as [|n (Hlen & Htr & Hnodes)].
  - split_and!; [done | done |]. intros [|i] node Hi; [|done].
    injection Hi as <-. by split.
  - rewrite chain_config_S, relu_run.
    destruct (lookup_lt_is_Some_2 (store (chain_config n)) n) as [s Hs]; [lia|].
    rewrite Hs. cbn [snd]. split_and!.
    + cbn [push store]. rewrite length_app. simpl. lia.
    + done.
    + intros i node Hi. cbn [push store] in Hi.
      apply lookup_app_Some in Hi as [Hi | [Hge Hi]]; [by apply Hnodes|].
      apply list_lookup_singleton_Some in Hi as [Hi <-].
      split; [done|]. intros j Hj. cbn [new_object _prev]. rewrite set_of_one.
      f_equal. lia.
Qed.

(** On a chain, [build_topo] needs a nested call for each object. *)
Lemma chain_too_deep (st : list Value) :
  (∀ j node, st !! S j = Some node → _prev node = [j]) →
  ∀ d v visited topo,
    v < length st → d ≤ v → (∀ x, x ≤ v → x ∉ visited) →
    Stack.build_topo d st v (visited, topo) = TooDeep.
Proof.
  intros Hchain d. induction d as [|d IH]; intros v visited topo Hv Hd Hnew; [done|].
  destruct v as [|v]; [lia|]. rewrite stack_build_topo_S.
  rewrite decide_False by (by apply Hnew).
  destruct (lookup_lt_is_Some_2 st (S v) Hv) as [node Hnode].
  rewrite Hnode, (Hchain v node Hnode). cbn [Stack.visit_all].
  rewrite IH; [done | lia | lia |].
  intros x Hx. rewrite elem_of_union, elem_of_singleton.
  intros [-> | Hin]; [lia|]. apply (Hnew x); [lia | done].
Qed.

Lemma chain_backward_too_deep (n room : nat) :
  room ≤ n →
  Stack.build_topo room (store (chain_config n)) n (∅, []) = TooDeep
  ∧ Stack.backward room n (chain_config n) = (Raise RecursionError, chain_config n).
Proof.
  intros Hroom. destruct (chain_config_shape n) as (Hlen & _ & Hnodes).
  assert (Stack.build_topo room (store (chain_config n)) n (∅, []) = TooDeep) as Hdeep.
  { apply chain_too_deep; [|lia | done |].
    - intros j node Hj. by apply (Hnodes (S j) node Hj).
    - intros x _. apply not_elem_of_empty. }
  split; [done|]. unfold Stack.backward. by rewrite Hdeep.
Qed.

Lemma chain_config_built (n : nat) : built (chain_config n).
Proof. apply built_run_methods. constructor. Qed.

(** On the last object of a chain longer than the room, [backward] raises
    [RecursionError] and the root keeps the gradient it had. *)
Lemma chain_root_not_seeded (n room : nat) :
  room ≤ n →
  built (chain_config n)
  ∧ Stack.backward room n (chain_config n) = (Raise RecursionError, chain_config n)
  ∧ ∃ v, store (chain_config n) !! n = Some v
         ∧ grad v = PyFloat 0
         ∧ grad v ≠ PyInt 1.
Proof.
  intros Hroom. split; [apply chain_config_built|].
  split; [by apply chain_backward_too_deep|].
  destruct (chain_config_shape n) as (Hlen & _ & Hnodes).
  destruct (lookup_lt_is_Some_2 (store (chain_config n)) n) as [v Hv]; [lia|].
  exists v. destruct (Hnodes n v Hv) as [Hg _]. by rewrite Hg.
Qed.

Lemma chain_exceeds_the_limit (n room : nat) :
  room ≤ n →
  built (chain_config n)
  ∧ length (store (chain_config n)) = S n
  ∧ Stack.build_topo room (store (chain_config n)) n (∅, []) = TooDeep
  ∧ (Stack.backward room n (chain_config n)).1 = Raise RecursionError
  ∧ calls (trace (Stack.backward room n (chain_config n)).2) = [].
Proof.
  intros Hroom. destruct (chain_backward_too_deep n room Hroom) as [Hdeep Hrun].
  destruct (chain_config_shape n) as (Hlen & Htr & _).
  split; [apply chain_config_built|]. split; [exact Hlen|]. split; [exact Hdeep|].
  rewrite Hrun. split; [reflexivity|]. cbn [snd]. by rewrite Htr.
Qed.

End DeepChain.



(** * Facts about Python numbers

    [b * -1] is [-b] and [a + (-b)] is [a - b], exactly, in binary64: what
    makes the engine's [a + (b * -1)] the difference [a - b]. *)

Section NumberFacts.
Local Open Scope Z_scope.

Lemma SFsub_as_add (x y : spec_float) :
  SFsub prec emax x y = SFadd prec emax x (SFopp y).
Proof.
  destruct x as [sx | sx | | sx mx ex], y as [sy | sy | | sy my ey]; simpl;
    try reflexivity; try (destruct sx, sy; reflexivity).
Qed.

Lemma float_sub_as_add (x y : float) : (x - y = x + - y)%float.
Proof.
  apply Prim2SF_inj. rewrite sub_spec, add_spec, opp_spec. apply SFsub_as_add.
Qed.


Lemma digits_shift52 (m : positive) :
  Zdigits2 (Z.pos (4503599627370496 * m)) = Z.pos (digits2_pos m) + 52.
Proof.
  cbv [Pos.mul PosDef.Pos.mul]. cbn [Zdigits2 digits2_pos]. lia.
Qed.

Lemma iter_shift52 (m : positive) :
  SpecFloat.iter_pos shr_1 52 (shr_record_of_loc (Z.pos (4503599627370496 * m)) loc_Exact)
  = {| shr_m := Z.pos m; shr_r := false; shr_s := false |}.
Proof. cbv. reflexivity. Qed.

Lemma round_times_2_52 (s : bool) (m : positive) (e : Z) :
  bounded prec emax m e = true →
  binary_round_aux prec emax s (Z.pos (m * 4503599627370496)) (e + -52) loc_Exact
  = S754_finite s m e.
Proof.
  intros Hb. unfold bounded, canonical_mantissa in Hb.
  apply andb_true_iff in Hb as [Hc He]. apply Z.eqb_eq in Hc. apply Z.leb_le in He.
  rewrite Pos.mul_comm. unfold binary_round_aux, shr_fexp.
  rewrite digits_shift52.
  replace (Z.pos (digits2_pos m) + 52 + (e + -52)) with (Z.pos (digits2_pos m) + e) by lia.
  rewrite Hc. replace (e - (e + -52)) with 52 by lia.
  unfold shr at 1. rewrite iter_shift52.
  cbn [loc_of_shr_record shr_m shr_r shr_s round_nearest_even].
  replace (e + -52 + 52) with e by lia.
  cbn [shr_record_of_loc Zdigits2]. rewrite Hc, Z.sub_diag. cbn [shr shr_m].
  apply Z.leb_le in He. rewrite He. reflexivity.
Qed.

Lemma float_mul_minus_one (y : float) : (y * -1 = - y)%float.
Proof.
  apply Prim2SF_inj. rewrite mul_spec, opp_spec.
  pose proof (Prim2SF_valid y) as Hv.
  replace (Prim2SF (-1)%float) with (S754_finite true 4503599627370496 (-52))
    by (vm_compute; reflexivity).
  destruct (Prim2SF y) as [s | s | | s m e]; simpl; try done; try (by destruct s).
  rewrite round_times_2_52 by exact Hv.
  by destruct s.
Qed.

Lemma float_opp_opp (x : float) : (- - x = x)%float.
Proof.
  apply Prim2SF_inj. rewrite !opp_spec.
  destruct (Prim2SF x) as [s | s | | s m e]; simpl; by rewrite ?negb_involutive.
Qed.

Lemma is_infinity_opp (x : float) : is_infinity (- x) = is_infinity x.
Proof.
  unfold is_infinity. f_equal. apply Prim2SF_inj. rewrite !abs_spec, opp_spec.
  by destruct (Prim2SF x).
Qed.

Lemma binary_round_aux_sign (s : bool) (m e : Z) (l : location) :
  binary_round_aux prec emax s m e l
  = (if s then SFopp (binary_round_aux prec emax false m e l)
     else binary_round_aux prec emax false m e l).
Proof.
  destruct s; [|done]. unfold binary_round_aux.
  destruct (shr_fexp prec emax m e l) as [mrs' e'].
  destruct (shr_fexp prec emax _ e' loc_Exact) as [mrs'' e''].
  destruct (shr_m mrs''); try done. by destruct (e'' <=? emax - prec).
Qed.

Lemma SF2Prim_opp_positive (x : spec_float) :
  match x with
  | S754_zero s | S754_infinity s | S754_finite s _ _ => s = false
  | S754_nan => True
  end →
  SF2Prim (SFopp x) = (- SF2Prim x)%float.
Proof.
  destruct x as [s | s | | s m e]; simpl; intros Hs; subst; try done.
Qed.

Lemma binary_round_aux_positive (m e : Z) (l : location) :
  match binary_round_aux prec emax false m e l with
  | S754_zero s | S754_infinity s | S754_finite s _ _ => s = false
  | S754_nan => True
  end.
Proof.
  unfold binary_round_aux.
  destruct (shr_fexp prec emax m e l) as [mrs' e'].
  destruct (shr_fexp prec emax _ e' loc_Exact) as [mrs'' e''].
  destruct (shr_m mrs''); try done. by destruct (e'' <=? emax - prec).
Qed.

(** [float(z)] before the test for overflow. *)
Definition int_to_float (z : Z) : float :=
  SF2Prim (binary_normalize prec emax z 0 false).

Lemma int_to_float_opp (z : Z) : z ≠ 0 → int_to_float (- z) = (- int_to_float z)%float.
Proof.
  intros Hz. unfold int_to_float.
  assert (∀ p, SF2Prim (binary_round prec emax true p 0)
               = (- SF2Prim (binary_round prec emax false p 0))%float) as Hp.
  { intros p. unfold binary_round.
    destruct (shl_align p 0 _) as [mz ez].
    rewrite binary_round_aux_sign. apply SF2Prim_opp_positive.
    apply binary_round_aux_positive. }
  destruct z as [|p|p]; [done | apply Hp |].
  simpl. rewrite Hp. by rewrite float_opp_opp.
Qed.

Lemma float_add_sub_zero (x : float) :
  (x + zero = x - zero)%float
  ∨ ((x + zero =? zero)%float = true ∧ (x - zero =? zero)%float = true).
Proof.
  destruct (Prim2SF x) as [s | s | | s m e] eqn:Hx.
  - right. rewrite <- (SF2Prim_Prim2SF x), Hx. by destruct s; vm_compute.
  - left. apply Prim2SF_inj. rewrite add_spec, sub_spec, Hx. done.
  - left. apply Prim2SF_inj. rewrite add_spec, sub_spec, Hx. done.
  - left. apply Prim2SF_inj. rewrite add_spec, sub_spec, Hx. done.
Qed.

(** The same number: identical, or two zeros (Python's [==] does not tell
    [0.0] from [-0.0], nor either from the int [0]). *)
Definition py_agree (x y : pynum) : Prop :=
  x = y ∨ (py_is_zero x = true ∧ py_is_zero y = true).

Definition arith_agree (r1 r2 : arith pynum) : Prop :=
  match r1, r2 with
  | Fine x, Fine y => py_agree x y
  | Fails e1, Fails e2 => e1 = e2
  | _, _ => False
  end.

Lemma float_of_int_unfold (z : Z) :
  float_of_int z
  = if is_infinity (int_to_float z) then Fails IntTooLarge else Fine (int_to_float z).
Proof. reflexivity. Qed.

(** [x + (y * -1)], as the engine computes a difference, against [x - y]. *)
Lemma py_sub_as_add (x y : pynum) :
  arith_agree
    (match py_mul y (PyInt (-1)) with
     | Fine m => py_add x m
     | Fails e => Fails e
     end)
    (py_sub x y).
Proof.
  destruct x as [a | a], y as [b | b]; simpl.
  - left. f_equal. lia.
  - unfold float_op. simpl. rewrite float_of_int_unfold.
    destruct (is_infinity (int_to_float a)); simpl; [done|].
    left. by rewrite float_mul_minus_one, float_sub_as_add.
  - unfold float_op. simpl. destruct (decide (b = 0)) as [-> | Hb].
    + simpl. destruct (float_add_sub_zero a) as [-> | [H1 H2]]; [by left | by right].
    + replace (b * -1) with (- b) by lia.
      rewrite !float_of_int_unfold, int_to_float_opp, is_infinity_opp by done.
      destruct (is_infinity (int_to_float b)); simpl; [done|].
      left. by rewrite float_sub_as_add.
  - unfold float_op. simpl. left. by rewrite float_mul_minus_one, float_sub_as_add.
Qed.

End NumberFacts.

(** * Division and subtraction *)

Lemma bind_assoc {A B C : Type} (m : M A) (k : A → M B) (h : B → M C) (c : config) :
  ((m ≫= k) ≫= h) c = (m ≫= λ a, k a ≫= h) c.
Proof. rewrite !bind_run. by destruct (m c) as [[a|e|] c']. Qed.

Lemma push_lookup_old (c : config) (v n : Value) (i : ref) :
  store c !! i = Some n → store (push c v) !! i = Some n.
Proof. intros H. simpl. by apply lookup_app_l_Some. Qed.

Lemma push_lookup_new (c : config) (v : Value) :
  store (push c v) !! length (store c) = Some v.
Proof. simpl. by apply list_lookup_middle. Qed.

Lemma push_lookup_at (c : config) (v : Value) (i : ref) :
  i = length (store c) → store (push c v) !! i = Some v.
Proof. intros ->. apply push_lookup_new. Qed.

Lemma push_length (c : config) (v : Value) :
  length (store (push c v)) = S (length (store c)).
Proof. simpl. rewrite length_app. simpl. lia. Qed.

Section Expansions.
Context {pow : PowerOp} {order : SetOrder}.

(** [a - b], step by step: the leaf [-1], the product [b * -1], the sum. *)
Lemma sub_run (c : config) (a b : ref) (va vb : Value) :
  store c !! a = Some va → store c !! b = Some vb →
  __sub__ a (ObjValue b) c
  = let L := length (store c) in
    let c1 := push c (new_object (PyInt (-1)) NoBackward [] OpNone) in
    match py_mul (data vb) (PyInt (-1)) with
    | Fails e => (Raise (exn_of_arith e), c1)
    | Fine m =>
        let c2 := push c1 (new_object m (MulBackward b L (S L)) [b; L] OpMul) in
        match py_add (data va) m with
        | Fails e => (Raise (exn_of_arith e), c2)
        | Fine d =>
            (Ok (S (S L)),
             push c2 (new_object d (AddBackward a (S L) (S (S L))) [a; S L] OpAdd))
        end
    end.
Proof.
  intros Ha Hb. unfold __sub__, neg_obj, __neg__.
  rewrite bind_run, bind_run, mul_num. unfold binop_run.
  rewrite (push_lookup_old _ _ _ _ Hb), push_lookup_new. simpl data.
  destruct (py_mul (data vb) (PyInt (-1))) as [m|e]; [|done].
  unfold mret, M_ret. cbv beta iota zeta. rewrite add_value. unfold binop_run.
  rewrite (push_lookup_old _ _ _ _ (push_lookup_old _ _ _ _ Ha)).
  rewrite push_lookup_new. simpl data.
  destruct (py_add (data va) m) as [d|e]; by rewrite ?push_length.
Qed.

(** [a / b], step by step: the power [b ** -1], then the product. *)
Lemma truediv_run (c : config) (a b : ref) (va vb : Value) :
  store c !! a = Some va → store c !! b = Some vb →
  __truediv__ a (ObjValue b) c
  = let L := length (store c) in
    match py_pow (data vb) (PyInt (-1)) with
    | Fails e => (Raise (exn_of_arith e), c)
    | Fine r =>
        let c1 := push c (new_object r (PowBackward b (PyInt (-1)) L) [b]
                            (OpPow (PyInt (-1)))) in
        match py_mul (data va) r with
        | Fails e => (Raise (exn_of_arith e), c1)
        | Fine d =>
            (Ok (S L), push c1 (new_object d (MulBackward a L (S L)) [a; L] OpMul))
        end
    end.
Proof.
  intros Ha Hb. unfold __truediv__, pow_obj.
  rewrite bind_run, bind_run, pow_num, Hb.
  destruct (py_pow (data vb) (PyInt (-1))) as [r|e]; [|done].
  unfold mret, M_ret. cbv beta iota zeta. rewrite mul_value. unfold binop_run.
  rewrite (push_lookup_old _ _ _ _ Ha), push_lookup_new. simpl data.
  destruct (py_mul (data va) r) as [d|e]; by rewrite ?push_length.
Qed.

End Expansions.

(** Two leaves of value [d]: the references 0 and 1. *)
Definition two_leaves (d : pynum) : config :=
  mkConfig [mkValue d (PyFloat 0) NoBackward "" [] OpNone;
            mkValue d (PyFloat 0) NoBackward "" [] OpNone] [].

Section ExpansionClaims.
Context {pow : PowerOp} {order : SetOrder}.

(** C6, as the code has it. [a / b] is [a * (b ** -1)]: it builds the same
    graph and returns the same object, so that [backward], with whatever
    room for its recursion, gives the same gradients, and its value is
    [a.value * (b.value ** -1)], the product with what [**] returns, which
    is not always the correctly rounded [a.value / b.value]. [a - b] is
    [a + (b * -1)]: the same graph and gradients, and its value is the
    number that [a.value - b.value] is: the identical int or float (NaN
    where that is NaN), but for a zero result, which may be another of
    Python's zeros. An arithmetic error of Python surfaces in both forms
    alike. *)
Theorem division_and_subtraction_expand (c : config) (a b : ref) (va vb : Value) :
  store c !! a = Some va → store c !! b = Some vb →
  (∀ c0, __truediv__ a (ObjValue b) c0
         = (t ← __pow__ b (ObjNum (PyInt (-1))); __mul__ a (ObjValue t)) c0)
  ∧ (∀ c0, (q ← __truediv__ a (ObjValue b); backward q) c0
           = (t ← __pow__ b (ObjNum (PyInt (-1)));
              q ← __mul__ a (ObjValue t);
              backward q) c0)
  ∧ (∀ room c0, (q ← __truediv__ a (ObjValue b); Stack.backward room q) c0
                = (t ← __pow__ b (ObjNum (PyInt (-1)));
                   q ← __mul__ a (ObjValue t);
                   Stack.backward room q) c0)
  ∧ match py_pow (data vb) (PyInt (-1)) with
    | Fine r =>
        match py_mul (data va) r with
        | Fine d =>
            ∃ q c' n, __truediv__ a (ObjValue b) c = (Ok q, c')
                      ∧ store c' !! q = Some n ∧ data n = d
        | Fails e => ∃ c', __truediv__ a (ObjValue b) c = (Raise (exn_of_arith e), c')
        end
    | Fails e => ∃ c', __truediv__ a (ObjValue b) c = (Raise (exn_of_arith e), c')
    end
  ∧ (∀ c0, __sub__ a (ObjValue b) c0
           = (t ← __mul__ b (ObjNum (PyInt (-1))); __add__ a (ObjValue t)) c0)
  ∧ (∀ c0, (q ← __sub__ a (ObjValue b); backward q) c0
           = (t ← __mul__ b (ObjNum (PyInt (-1)));
              q ← __add__ a (ObjValue t);
              backward q) c0)
  ∧ (∀ room c0, (q ← __sub__ a (ObjValue b); Stack.backward room q) c0
                = (t ← __mul__ b (ObjNum (PyInt (-1)));
                   q ← __add__ a (ObjValue t);
                   Stack.backward room q) c0)
  ∧ match py_sub (data va) (data vb) with
    | Fine d =>
        ∃ q c' n, __sub__ a (ObjValue b) c = (Ok q, c')
                  ∧ store c' !! q = Some n ∧ py_agree (data n) d
    | Fails e => ∃ c', __sub__ a (ObjValue b) c = (Raise (exn_of_arith e), c')
    end.
Proof.
  intros Ha Hb.
  assert (∀ c0, __truediv__ a (ObjValue b) c0
                = (t ← __pow__ b (ObjNum (PyInt (-1))); __mul__ a (ObjValue t)) c0) as Hdiv.
  { intros c0. unfold __truediv__, pow_obj. rewrite !bind_assoc.
    rewrite !bind_run. by destruct (__pow__ b (ObjNum (PyInt (-1))) c0) as [[t|e|] c1]. }
  assert (∀ c0, __sub__ a (ObjValue b) c0
                = (t ← __mul__ b (ObjNum (PyInt (-1))); __add__ a (ObjValue t)) c0) as Hsub.
  { intros c0. unfold __sub__, neg_obj, __neg__. rewrite !bind_assoc.
    rewrite !bind_run.
    by destruct (__mul__ b (ObjNum (PyInt (-1))) c0) as [[t|e|] c1]. }
  assert (∀ (A : Type) (m1 m2 : M ref) (k : ref → M A),
            (∀ c0, m1 c0 = m2 c0) → ∀ c0, (m1 ≫= k) c0 = (m2 ≫= k) c0) as Hthen.
  { intros A m1 m2 k Heq c0. by rewrite !bind_run, Heq. }
  split_and!.
  - exact Hdiv.
  - intros c0. rewrite (Hthen _ _ _ _ Hdiv). apply bind_assoc.
  - intros room c0. rewrite (Hthen _ _ _ _ Hdiv). apply bind_assoc.
  - rewrite (truediv_run c a b va vb Ha Hb). cbv zeta.
    destruct (py_pow (data vb) (PyInt (-1))) as [r|e]; [|eexists; reflexivity].
    destruct (py_mul (data va) r) as [d|e]; [|eexists; reflexivity].
    eexists _, _, _. split; [reflexivity|]. split.
    { apply push_lookup_at. by rewrite push_length. }
    reflexivity.
  - exact Hsub.
  - intros c0. rewrite (Hthen _ _ _ _ Hsub). apply bind_assoc.
  - intros room c0. rewrite (Hthen _ _ _ _ Hsub). apply bind_assoc.
  - rewrite (sub_run c a b va vb Ha Hb). cbv zeta.
    pose proof (py_sub_as_add (data va) (data vb)) as Hagree.
    destruct (py_mul (data vb) (PyInt (-1))) as [m|e].
    + destruct (py_add (data va) m) as [d|e];
        destruct (py_sub (data va) (data vb)) as [d'|e']; simpl in Hagree;
        try done; [|subst e'; eexists; reflexivity].
      eexists _, _, _. split; [reflexivity|]. split.
      { apply push_lookup_at. by rewrite !push_length. }
      exact Hagree.
    + destruct (py_sub (data va) (data vb)) as [d'|e']; simpl in Hagree; [done|].
      subst e'. eexists; reflexivity.
Qed.

End ExpansionClaims.

(** C6, as the specification states it, fails: [49.0 / 49.0] is [1.0], and
    the engine gives [49.0 * (49.0 ** -1)], the float just below, where
    [49.0 ** -1] is the correctly rounded reciprocal, as Python returns it. *)
Lemma quotient_of_49_by_49 :
  ∃ c' n,
    @__truediv__ int_power insertion_order 0 (ObjValue 1) (two_leaves (PyFloat 49))
    = (Ok 3, c')
    ∧ store c' !! 3 = Some n
    ∧ data n = PyFloat (49 * (1 / 49))
    ∧ (49 * (1 / 49) =? 49 / 49)%float = false
    ∧ (49 / 49 =? 1)%float = true.
Proof. eexists _, _. vm_compute. by split_and!. Qed.

Lemma division_and_subtraction_expand_witness :
  (∀ c0, @__truediv__ int_power insertion_order 0 (ObjValue 1) c0
         = (t ← @__pow__ int_power insertion_order 1 (ObjNum (PyInt (-1)));
            @__mul__ insertion_order 0 (ObjValue t)) c0)
  ∧ (∀ c0, (q ← @__truediv__ int_power insertion_order 0 (ObjValue 1);
            @backward int_power q) c0
           = (t ← @__pow__ int_power insertion_order 1 (ObjNum (PyInt (-1)));
              q ← @__mul__ insertion_order 0 (ObjValue t);
              @backward int_power q) c0)
  ∧ (∀ room c0, (q ← @__truediv__ int_power insertion_order 0 (ObjValue 1);
                 @Stack.backward int_power room q) c0
                = (t ← @__pow__ int_power insertion_order 1 (ObjNum (PyInt (-1)));
                   q ← @__mul__ insertion_order 0 (ObjValue t);
                   @Stack.backward int_power room q) c0)
  ∧ match @py_pow int_power (PyFloat 3) (PyInt (-1)) with
    | Fine r =>
        match py_mul (PyFloat (-2)) r with
        | Fine d =>
            ∃ q c' n, @__truediv__ int_power insertion_order 0 (ObjValue 1) sample_config
                      = (Ok q, c')
                      ∧ store c' !! q = Some n ∧ data n = d
        | Fails e =>
            ∃ c', @__truediv__ int_power insertion_order 0 (ObjValue 1) sample_config
                  = (Raise (exn_of_arith e), c')
        end
    | Fails e =>
        ∃ c', @__truediv__ int_power insertion_order 0 (ObjValue 1) sample_config
              = (Raise (exn_of_arith e), c')
    end
  ∧ (∀ c0, @__sub__ insertion_order 0 (ObjValue 1) c0
           = (t ← @__mul__ insertion_order 1 (ObjNum (PyInt (-1)));
              @__add__ insertion_order 0 (ObjValue t)) c0)
  ∧ (∀ c0, (q ← @__sub__ insertion_order 0 (ObjValue 1); @backward int_power q) c0
           = (t ← @__mul__ insertion_order 1 (ObjNum (PyInt (-1)));
              q ← @__add__ insertion_order 0 (ObjValue t);
              @backward int_power q) c0)
  ∧ (∀ room c0, (q ← @__sub__ insertion_order 0 (ObjValue 1);
                 @Stack.backward int_power room q) c0
                = (t ← @__mul__ insertion_order 1 (ObjNum (PyInt (-1)));
                   q ← @__add__ insertion_order 0 (ObjValue t);
                   @Stack.backward int_power room q) c0)
  ∧ match py_sub (PyFloat (-2)) (PyFloat 3) with
    | Fine d =>
        ∃ q c' n, @__sub__ insertion_order 0 (ObjValue 1) sample_config
                  = (Ok q, c')
                  ∧ store c' !! q = Some n ∧ py_agree (data n) d
    | Fails e =>
        ∃ c', @__sub__ insertion_order 0 (ObjValue 1) sample_config
              = (Raise (exn_of_arith e), c')
    end.
Proof.
  apply (@division_and_subtraction_expand int_power insertion_order sample_config 0 1
           (mkValue (PyFloat (-2)) (PyFloat 0) NoBackward "" [] OpNone)
           (mkValue (PyFloat 3) (PyFloat 0) NoBackward "" [] OpNone)).
  - vm_compute. reflexivity.
  - vm_compute. reflexivity.
Defined.

(** * Reflected operators and errors *)

(** One leaf of value [d]: the reference 0. *)
Definition one_leaf (d : pynum) : config :=
  mkConfig [mkValue d (PyFloat 0) NoBackward "" [] OpNone] [].

(** C7, on the code. [c - a] for a number [c] calls [a.__rsub__(c)], which
    returns [a + (-c)], the value of [a - c]: for [c = 5] and [a = Value(3.0)]
    the result holds [-2.0], where [5 - 3.0] is [2.0]. The reflected division
    has the number on the correct side: [1 / Value(4.0)] holds [0.25]. *)
Theorem reflected_subtraction_swaps_operands :
  (∃ c' n,
     @__rsub__ insertion_order 0 (ObjNum (PyInt 5)) (one_leaf (PyFloat 3)) = (Ok 2, c')
     ∧ store c' !! 2 = Some n
     ∧ data n = PyFloat (-2)
     ∧ py_sub (PyInt 5) (PyFloat 3) = Fine (PyFloat 2)
     ∧ py_sub (PyFloat 3) (PyInt 5) = Fine (PyFloat (-2)))
  ∧ (∀ (order : SetOrder) (a : ref) (other : pyobj) (c : config),
       __rsub__ a other c = __sub__ a other c)
  ∧ (∃ c' n,
       @__rtruediv__ int_power insertion_order 0 (ObjNum (PyInt 1)) (one_leaf (PyFloat 4))
       = (Ok 3, c')
       ∧ store c' !! 3 = Some n
       ∧ data n = PyFloat 0.25).
Proof.
  split_and!.
  - eexists _, _. vm_compute. by split_and!.
  - reflexivity.
  - eexists _, _. vm_compute. by split_and!.
Qed.

Section ErrorClaims.
Context {pow : PowerOp} {order : SetOrder}.

Lemma binop_run_raise (op : pynum → pynum → arith pynum)
    (f : ref → ref → ref → closure) (tag : op_tag) (self other : ref) (c : config)
    (e : exn) :
  (binop_run op f tag self other c).1 = Raise e →
  ∃ s o ae, store c !! self = Some s ∧ store c !! other = Some o
            ∧ op (data s) (data o) = Fails ae ∧ e = exn_of_arith ae.
Proof.
  unfold binop_run.
  destruct (store c !! self) as [s|]; [|done].
  destruct (store c !! other) as [o|]; [|done].
  destruct (op (data s) (data o)) as [x|ae] eqn:Hop; [done|].
  simpl. intros [= <-]. by exists s, o, ae.
Qed.


End ErrorClaims.


(** * Multiplying by one *)

Lemma float_mul_one (y : float) : (y * 1 = y)%float.
Proof.
  apply Prim2SF_inj. rewrite mul_spec.
  pose proof (Prim2SF_valid y) as Hv.
  replace (Prim2SF 1%float) with (S754_finite false 4503599627370496 (-52)%Z)
    by (vm_compute; reflexivity).
  destruct (Prim2SF y) as [s | s | | s m e]; simpl; try done; try (by destruct s).
  rewrite round_times_2_52 by exact Hv.
  by destruct s.
Qed.

Lemma float_one_mul (y : float) : (1 * y = y)%float.
Proof.
  apply Prim2SF_inj. rewrite mul_spec.
  pose proof (Prim2SF_valid y) as Hv.
  replace (Prim2SF 1%float) with (S754_finite false 4503599627370496 (-52)%Z)
    by (vm_compute; reflexivity).
  destruct (Prim2SF y) as [s | s | | s m e]; simpl; try done.
  rewrite Pos.mul_comm, Z.add_comm.
  by rewrite round_times_2_52 by exact Hv.
Qed.

(** [d * 1] and [1 * d] are [d], for an int and for a float. *)
Lemma py_mul_one_r (d : pynum) : py_mul d (PyInt 1) = Fine d.
Proof.
  destruct d as [z | f]; simpl.
  - by rewrite Z.mul_1_r.
  - unfold float_op. simpl.
    replace (float_of_int 1) with (Fine 1%float) by (vm_compute; reflexivity).
    by rewrite float_mul_one.
Qed.

Lemma py_mul_one_l (d : pynum) : py_mul (PyInt 1) d = Fine d.
Proof.
  destruct d as [z | f]; simpl.
  - by destruct z.
  - unfold float_op. simpl.
    replace (float_of_int 1) with (Fine 1%float) by (vm_compute; reflexivity).
    by rewrite float_one_mul.
Qed.

(** * ReLU *)

(** Not [inf], not [-inf], not NaN. *)
Definition py_is_finite (a : pynum) : bool :=
  match a with
  | PyInt _ => true
  | PyFloat f => is_finite f
  end.

Lemma py_le_zero_not_gt (d : pynum) : py_le_zero d = true → py_gt_zero d = false.
Proof.
  destruct d as [z | f]; simpl.
  - intros H. apply Z.leb_le in H. apply Z.ltb_ge. lia.
  - rewrite leb_spec, ltb_spec.
    replace (Prim2SF zero) with (S754_zero false) by (vm_compute; reflexivity).
    destruct (Prim2SF f) as [s | s | | s m e]; try done; by destruct s.
Qed.

Lemma zero_times_finite (g t : pynum) :
  py_mul (PyInt 0) g = Fine t → py_is_finite g = true → py_is_zero t = true.
Proof.
  destruct g as [z | f]; simpl.
  - by intros [= <-].
  - unfold float_op. simpl. intros [= <-]. simpl.
    unfold is_finite, is_nan, is_infinity. rewrite !FloatAxioms.eqb_spec, mul_spec, abs_spec.
    replace (Prim2SF zero) with (S754_zero false) by (vm_compute; reflexivity).
    replace (Prim2SF infinity) with (S754_infinity false) by (vm_compute; reflexivity).
    destruct (Prim2SF f) as [s | s | | s m e]; try done; by destruct s.
Qed.

(** Zero times an infinity or NaN is NaN. *)
Lemma zero_times_not_finite (g t : pynum) :
  py_mul (PyInt 0) g = Fine t → py_is_finite g = false → t = PyFloat nan.
Proof.
  destruct g as [z | f]; simpl; [done|].
  unfold float_op. simpl. intros [= <-].
  unfold is_finite, is_nan, is_infinity. rewrite !FloatAxioms.eqb_spec, abs_spec.
  intros H. f_equal. apply Prim2SF_inj. rewrite mul_spec.
  replace (Prim2SF zero) with (S754_zero false) by (vm_compute; reflexivity).
  replace (Prim2SF nan) with S754_nan by (vm_compute; reflexivity).
  replace (Prim2SF infinity) with (S754_infinity false) in H by (vm_compute; reflexivity).
  destruct (Prim2SF f) as [s | s | | s m e]; simpl in *; try done; try (by destruct s).
  exfalso. unfold SFeqb, SFcompare in H.
  rewrite Z.compare_refl, Pos.compare_refl in H. by destruct s.
Qed.

Lemma zero_times_defined (g : pynum) : ∃ t, py_mul (PyInt 0) g = Fine t.
Proof.
  destruct g as [z | f]; simpl; [by eexists|]. unfold float_op. simpl. by eexists.
Qed.

Section ReluClaims.
Context {pow : PowerOp} {order : SetOrder}.

(** [Value(0.0).relu().backward()], for every order of sets. *)
Lemma relu_at_zero :
  ∃ c' n,
    (x ← __init__ (PyFloat 0) "" [] OpNone; r ← relu x; backward r) start
    = (Ok [0; 1], c')
    ∧ store c' !! 0 = Some n ∧ grad n = PyFloat 0.
Proof.
  rewrite bind_run, init_run. cbv beta iota. rewrite bind_run, relu_run.
  unfold new_object, push. simpl. rewrite set_of_nil, set_of_one.
  eexists _, _. split; [vm_compute; reflexivity|]. split; reflexivity.
Qed.

(** C5, as the code has it. [relu(a)] builds an object whose value is
    [max(0, a.value)]: the value of [a] when it is [> 0], the int [0]
    otherwise. Its backward function adds to the gradient of [a] the gradient
    of the result times 1 when [a.value > 0] and times 0 otherwise, so also
    when [a.value <= 0]: the test is strict. Times 1 is the gradient itself.
    Times 0 is a zero when the gradient is finite, and NaN when it is an
    infinity or NaN: what is added is not always 0. For a leaf of value
    [0.0], [relu] then [backward] leaves the gradient of the leaf at
    [0.0]. *)
Theorem relu_value_and_backward_rule (c : config) (a : ref) (va : Value) :
  store c !! a = Some va →
  (∃ vout,
     relu a c = (Ok (length (store c)), push c vout)
     ∧ data vout = py_max_zero (data va)
     ∧ (py_gt_zero (data va) = true → data vout = data va)
     ∧ (py_gt_zero (data va) = false → data vout = PyInt 0)
     ∧ (py_le_zero (data va) = true → py_gt_zero (data va) = false)
     ∧ ∀ c2 va2 vo2,
         store c2 !! a = Some va2 → data va2 = data va →
         store c2 !! length (store c) = Some vo2 →
         call (_backward vout) c2
         = match py_mul (PyInt (if py_gt_zero (data va) then 1 else 0)) (grad vo2) with
           | Fails e => (Raise (exn_of_arith e), c2)
           | Fine t =>
               match py_add (grad va2) t with
               | Fails e => (Raise (exn_of_arith e), c2)
               | Fine s =>
                   (Ok tt, mkConfig (<[a := with_grad s va2]> (store c2))
                             (trace c2 ++ [AddGrad a t]))
               end
           end)
  ∧ (∀ g, py_mul (PyInt 1) g = Fine g)
  ∧ (∀ g, ∃ t, py_mul (PyInt 0) g = Fine t)
  ∧ (∀ g t, py_mul (PyInt 0) g = Fine t → py_is_finite g = true →
            py_is_zero t = true)
  ∧ (∀ g t, py_mul (PyInt 0) g = Fine t → py_is_finite g = false →
            t = PyFloat nan)
  ∧ (∃ c' n,
       (x ← __init__ (PyFloat 0) "" [] OpNone; r ← relu x; backward r) start
       = (Ok [0; 1], c')
       ∧ store c' !! 0 = Some n ∧ grad n = PyFloat 0).
Proof.
  intros Ha.
  split_and!; [| apply py_mul_one_l | apply zero_times_defined | apply zero_times_finite
               | apply zero_times_not_finite | apply relu_at_zero].
  eexists. rewrite relu_run, Ha. split; [reflexivity|].
  unfold new_object. cbn [data _backward]. split_and!; try done.
  - unfold py_max_zero. by intros ->.
  - unfold py_max_zero. by intros ->.
  - apply py_le_zero_not_gt.
  - intros c2 va2 vo2 Ha2 Hd Ho2. unfold call.
    rewrite iadd_grad_run by auto with readonly.
    rewrite Ha2. rewrite bind_run. unfold load at 1. rewrite Ha2.
    rewrite bind_run. unfold load. rewrite Ho2, Hd.
    by destruct (py_mul _ (grad vo2)).
Qed.

End ReluClaims.

Lemma relu_value_and_backward_rule_witness :
  (∃ vout,
     @relu insertion_order 0 sample_config
     = (Ok (length (store sample_config)), push sample_config vout)
     ∧ data vout = py_max_zero (PyFloat (-2))
     ∧ (py_gt_zero (PyFloat (-2)) = true → data vout = PyFloat (-2))
     ∧ (py_gt_zero (PyFloat (-2)) = false → data vout = PyInt 0)
     ∧ (py_le_zero (PyFloat (-2)) = true → py_gt_zero (PyFloat (-2)) = false)
     ∧ ∀ c2 va2 vo2,
         store c2 !! 0 = Some va2 → data va2 = PyFloat (-2) →
         store c2 !! length (store sample_config) = Some vo2 →
         @call int_power (_backward vout) c2
         = match py_mul (PyInt (if py_gt_zero (PyFloat (-2)) then 1 else 0)) (grad vo2) with
           | Fails e => (Raise (exn_of_arith e), c2)
           | Fine t =>
               match py_add (grad va2) t with
               | Fails e => (Raise (exn_of_arith e), c2)
               | Fine s =>
                   (Ok tt, mkConfig (<[0 := with_grad s va2]> (store c2))
                             (trace c2 ++ [AddGrad 0 t]))
               end
           end)
  ∧ (∀ g, py_mul (PyInt 1) g = Fine g)
  ∧ (∀ g, ∃ t, py_mul (PyInt 0) g = Fine t)
  ∧ (∀ g t, py_mul (PyInt 0) g = Fine t → py_is_finite g = true →
            py_is_zero t = true)
  ∧ (∀ g t, py_mul (PyInt 0) g = Fine t → py_is_finite g = false →
            t = PyFloat nan)
  ∧ (∃ c' n,
       (x ← @__init__ insertion_order (PyFloat 0) "" [] OpNone;
        r ← @relu insertion_order x;
        @backward int_power r) start
       = (Ok [0; 1], c')
       ∧ store c' !! 0 = Some n ∧ grad n = PyFloat 0).
Proof.
  apply (@relu_value_and_backward_rule int_power insertion_order sample_config 0
           (mkValue (PyFloat (-2)) (PyFloat 0) NoBackward "" [] OpNone)).
  vm_compute. reflexivity.
Defined.

(** C5, as the specification states it, fails: what the rule adds when
    [a.value <= 0] is not always 0. With [x = Value(-1.0)], [r = x.relu()],
    [y = Value(inf)] and [z = r * y], [z.backward()] gives [r] the gradient
    [inf], and the rule of [relu] adds [0 * inf], which is NaN, to the
    gradient of [x]: it ends as NaN, not [0.0]. *)
Lemma relu_of_a_negative_input_adds_nan :
  ∃ c' x r,
    (x ← @__init__ insertion_order (PyFloat (-1)) "" [] OpNone;
     r ← @relu insertion_order x;
     y ← @__init__ insertion_order (PyFloat infinity) "" [] OpNone;
     z ← @__mul__ insertion_order r (ObjValue y);
     @backward int_power z) start
    = (Ok [0; 1; 2; 3], c')
    ∧ store c' !! 0 = Some x
    ∧ data x = PyFloat (-1)
    ∧ py_le_zero (data x) = true
    ∧ store c' !! 1 = Some r
    ∧ _backward r = ReluBackward 0 1
    ∧ grad r = PyFloat infinity
    ∧ trace c'
      = [SetGrad 3 (PyInt 1); Call 3; AddGrad 1 (PyFloat infinity); AddGrad 2 (PyInt 0);
         Call 2; Call 1; AddGrad 0 (PyFloat nan); Call 0]
    ∧ grad x = PyFloat nan
    ∧ py_is_zero (grad x) = false.
Proof. eexists _, _, _. vm_compute. by split_and!. Qed.

(** * The end-to-end scenario *)

Section Scenario.
Context {pow : PowerOp} {order : SetOrder}.

(** C3. With [x = Value(-2.0)], [y = Value(3.0)] and [z = x*y + x.relu()],
    [z.backward()] returns and leaves [z.value = -6.0], [x.grad = 3.0] and
    [y.grad = -2.0], whatever the order in which the sets of operands iterate;
    the gradient of [x] received the two addends [3.0], from the product, and
    [0.0], from the ReLU. *)
Theorem product_plus_relu_scenario :
  ∃ c1 topo c2 vx vy vz,
    sample_graph start = (Ok (0, 1, 4), c1)
    ∧ backward 4 c1 = (Ok topo, c2)
    ∧ store c2 !! 0 = Some vx ∧ store c2 !! 1 = Some vy ∧ store c2 !! 4 = Some vz
    ∧ data vx = PyFloat (-2) ∧ data vy = PyFloat 3
    ∧ data vz = PyFloat (-6) ∧ grad vx = PyFloat 3 ∧ grad vy = PyFloat (-2)
    ∧ contributions 0 (trace c2) ≡ₚ [PyFloat 3; PyFloat 0].
Proof.
  assert (sample_graph start
          = (Ok (0, 1, 4),
             mkConfig
               [new_object (PyFloat (-2)) NoBackward [] OpNone;
                new_object (PyFloat 3) NoBackward [] OpNone;
                new_object (PyFloat (-6)) (MulBackward 0 1 2) [0; 1] OpMul;
                new_object (PyInt 0) (ReluBackward 0 3) [0] OpReLU;
                new_object (PyFloat (-6)) (AddBackward 2 3 4) [2; 3] OpAdd] []))
    as Hbuild.
  { cbv -[set_of]. reflexivity. }
  unfold new_object in Hbuild. rewrite set_of_nil, set_of_one in Hbuild.
  destruct (set_of_two 0 1) as [H01 | H01]; [done | |];
    (destruct (set_of_two 2 3) as [H23 | H23]; [done | |]);
    rewrite H01, H23 in Hbuild;
    (eexists _, _, _, _, _, _; split; [exact Hbuild|];
     split; [vm_compute; reflexivity|];
     split_and!; try reflexivity;
     vm_compute; first [reflexivity | apply perm_swap]).
Qed.

End Scenario.

(** * A shared operand *)

Lemma float_eq_zero (f : float) :
  (f =? zero)%float = true → f = zero ∨ f = neg_zero.
Proof.
  rewrite FloatAxioms.eqb_spec.
  replace (Prim2SF zero) with (S754_zero false) by (vm_compute; reflexivity).
  intros H. rewrite <- (SF2Prim_Prim2SF f).
  destruct (Prim2SF f) as [s | s | | s m e]; try done; try (by destruct s).
  destruct s; [by right | by left].
Qed.

(** A gradient that is zero, after [+= 1] twice. *)
Lemma zero_plus_one_twice (g : pynum) :
  py_is_zero g = true →
  ∃ g1 g2, py_add g (PyInt 1) = Fine g1 ∧ py_add g1 (PyInt 1) = Fine g2
           ∧ (g2 = PyInt 2 ∨ g2 = PyFloat 2).
Proof.
  destruct g as [z | f]; simpl.
  - intros H. apply Z.eqb_eq in H as ->. exists (PyInt 1), (PyInt 2). by split_and!; [..|left].
  - intros H. apply float_eq_zero in H as [-> | ->];
      exists (PyFloat 1), (PyFloat 2); by split_and!; [..|right].
Qed.

Section SharedOperand.
Context {pow : PowerOp} {order : SetOrder}.

(** [backward], one step at a time: the seed, the backward function of the
    root, then the loop over the rest of the order. *)
Lemma backward_unfold (c : config) (root : ref) :
  wf (store c) → root < length (store c) →
  ∃ before vroot,
    (∀ x, x ∈ before →
       ∃ y, y ∈ operands (store c) root ∧ reachable (store c) y x)
    ∧ store c !! root = Some vroot
    ∧ backward root c
      = match call (_backward vroot)
                (mkConfig (<[root := with_grad (PyInt 1) vroot]> (store c))
                   ((trace c ++ [SetGrad root (PyInt 1)]) ++ [Call root])) with
        | (Ok _, c2) =>
            match for_each (reverse before)
                    (λ v, n ← load v; emit (Call v);; call (_backward n)) c2 with
            | (Ok _, c3) => (Ok (before ++ [root]), c3)
            | (Raise e, c3) => (Raise e, c3)
            | (Undefined, c3) => (Undefined, c3)
            end
        | (Raise e, c2) => (Raise e, c2)
        | (Undefined, c2) => (Undefined, c2)
        end.
Proof.
  intros Hwf Hroot.
  destruct (build_topo_root (store c) root Hwf Hroot)
    as (V & topo & before & Hrun & -> & _ & _ & _ & Hbefore).
  destruct (lookup_lt_is_Some_2 (store c) root Hroot) as [vroot Hvroot].
  exists before, vroot. split_and!; [done | done |].
  unfold backward. rewrite Hrun, reverse_snoc. rewrite bind_run.
  unfold assign_grad. rewrite bind_run. unfold update. rewrite Hvroot.
  cbn [emit store trace for_each]. rewrite !bind_run. unfold load at 1.
  cbn [store]. rewrite list_lookup_insert_eq by done.
  rewrite bind_run. cbn [emit store trace _backward with_grad].
  by destruct (call (_backward vroot) _) as [[[]|e|] c2].
Qed.

Lemma add_self_backward (c : config) (a out : ref) (va vo : Value) (g1 g2 : pynum) :
  a ≠ out → store c !! a = Some va → store c !! out = Some vo →
  grad vo = PyInt 1 →
  py_add (grad va) (PyInt 1) = Fine g1 → py_add g1 (PyInt 1) = Fine g2 →
  call (AddBackward a a out) c
  = (Ok tt, mkConfig (<[a := with_grad g2 va]> (store c))
              ((trace c ++ [AddGrad a (PyInt 1)]) ++ [AddGrad a (PyInt 1)])).
Proof.
  intros Hne Ha Hout Hg H1 H2. unfold call. rewrite bind_run.
  assert (∀ c0 : config, (num (py_mul (PyInt 1) (PyInt 1)) c0).1 = Ok (PyInt 1))
    as Hone by done.
  rewrite iadd_grad_run by auto with readonly.
  rewrite Ha, bind_run. unfold load at 1. rewrite Hout, Hg, Hone, H1.
  rewrite iadd_grad_run by auto with readonly. cbn [store trace].
  rewrite list_lookup_insert_eq by (by eapply lookup_lt_Some).
  rewrite bind_run. unfold load at 1. cbn [store].
  rewrite list_lookup_insert_ne, Hout, Hg, Hone by done.
  cbn [with_grad grad]. rewrite H2.
  by rewrite list_insert_insert_eq.
Qed.

(** C2. For an object [a] whose gradient is zero, [b = a + a] and then
    [b.backward()] leave the gradient of [a] at 2: the two additions of [1]
    that the backward function of [b] makes, and nothing else. (The gradient
    is the float [2.0], or the int [2] when it started as the int [0]; both
    equal [2.0] in Python.) *)
Theorem shared_operand_gets_both_contributions (c c1 c2 : config) (a b : ref)
    (va : Value) (topo : list ref) :
  wf (store c) → store c !! a = Some va → py_is_zero (grad va) = true →
  __add__ a (ObjValue a) c = (Ok b, c1) →
  backward b c1 = (Ok topo, c2) →
  ∃ va', store c2 !! a = Some va'
         ∧ (grad va' = PyInt 2 ∨ grad va' = PyFloat 2).
Proof.
  intros Hwf Ha Hzero Hadd Hback.
  rewrite add_value in Hadd. unfold binop_run in Hadd. rewrite Ha in Hadd.
  destruct (py_add (data va) (data va)) as [sum|e]; [|done].
  injection Hadd as <- <-.
  set (nb := new_object sum (AddBackward a a (length (store c))) [a; a] OpAdd) in *.
  assert (a < length (store c)) as HaL by (by eapply lookup_lt_Some).
  assert (_prev nb = [a]) as Hprev by apply set_of_same.
  assert (wf (store (push c nb))) as Hwf1.
  { apply wf_snoc; [done | |].
    - intros x. rewrite Hprev. intros ->%list_elem_of_singleton. done.
    - simpl. done. }
  destruct (backward_unfold (push c nb) (length (store c)) Hwf1)
    as (before & vroot & Hbefore & Hvroot & Hrun).
  { rewrite push_length. lia. }
  rewrite push_lookup_new in Hvroot. injection Hvroot as <-.
  rewrite Hrun in Hback. clear Hrun.
  destruct (zero_plus_one_twice (grad va) Hzero) as (g1 & g2 & H1 & H2 & Hg2).
  rewrite (add_self_backward _ a (length (store c)) va (with_grad (PyInt 1) nb) g1 g2) in Hback;
    [| lia | | | done | done | done]; cycle 1.
  { cbn [store]. rewrite list_lookup_insert_ne by lia. by apply push_lookup_old. }
  { cbn [store]. apply list_lookup_insert_eq. rewrite push_length. lia. }
  match type of Hback with
  | context [for_each _ _ ?x] => set (c3 := x) in *
  end.
  assert (store c3 !! a = Some (with_grad g2 va)) as Ha3.
  { cbn [c3 store]. apply list_lookup_insert_eq.
    rewrite length_insert, push_length. lia. }
  assert (length (store c3) = S (length (store c))) as Hlen3.
  { cbn [c3 store]. by rewrite !length_insert, push_length. }
  destruct (for_each_pass a (store c3) (trace c3)) with
    (vs := reverse before) (es := @nil event) (c := c3)
    as (es & o & c4 & Hloop & _ & Hinv & _).
  { cbn [c3 store]. apply wf_with_grad.
    - by apply wf_with_grad, push_lookup_new.
    - rewrite list_lookup_insert_ne by lia. by apply push_lookup_old. }
  { intros v Hv. apply elem_of_reverse, Hbefore in Hv as (y & Hy & Hreach).
    unfold operands in Hy. rewrite push_lookup_new, Hprev in Hy.
    apply list_elem_of_singleton in Hy as ->.
    apply (reachable_le _ _ _ Hwf1) in Hreach. lia. }
  { by rewrite app_nil_r. }
  { apply pass_inv_start. }
  rewrite Hloop in Hback.
  destruct o as [[]|e|]; [|done..]. injection Hback as _ <-.
  destruct (pi_nodes _ _ _ _ Hinv a _ Ha3) as (va' & Ha' & _ & Hacc).
  rewrite (contributions_none a a es) in Hacc; [| apply Hinv | done].
  simpl in Hacc. injection Hacc as Hacc.
  exists va'. split; [done|]. by rewrite <- Hacc.
Qed.

End SharedOperand.

Lemma shared_operand_gets_both_contributions_witness :
  ∃ va', store (@backward int_power 5
                  (@__add__ insertion_order 0 (ObjValue 0) sample_config).2).2 !! 0
         = Some va'
         ∧ (grad va' = PyInt 2 ∨ grad va' = PyFloat 2).
Proof.
  apply (@shared_operand_gets_both_contributions int_power insertion_order
           sample_config
           (@__add__ insertion_order 0 (ObjValue 0) sample_config).2
           (@backward int_power 5
              (@__add__ insertion_order 0 (ObjValue 0) sample_config).2).2
           0 5
           (mkValue (PyFloat (-2)) (PyFloat 0) NoBackward "" [] OpNone)
           [0; 5]).
  - apply wf_check. vm_compute. reflexivity.
  - vm_compute. reflexivity.
  - vm_compute. reflexivity.
  - vm_compute. reflexivity.
  - vm_compute. reflexivity.
Defined.

(** * More of the engine

    What the backward pass leaves alone, the derivative rules as the pass
    computes them end to end, unary minus, and the graph that [draw_dot]
    collects. *)

(** ** What a pass leaves alone *)

(** [c'] holds the objects of [c], each with the attributes that its
    construction wrote, and identical when it is not one of [T]. *)
Definition grads_only (T : ref → Prop) (c c' : config) : Prop :=
  length (store c') = length (store c)
  ∧ ∀ i n, store c !! i = Some n →
      ∃ n', store c' !! i = Some n' ∧ same_but_grad n n' ∧ (¬ T i → n' = n).

Lemma grads_only_refl (T : ref → Prop) (c : config) : grads_only T c c.
Proof.
  split; [done|]. intros i n Hn. exists n.
  split; [done|]. split; [apply same_but_grad_refl | done].
Qed.

Lemma grads_only_trans (T : ref → Prop) (c1 c2 c3 : config) :
  grads_only T c1 c2 → grads_only T c2 c3 → grads_only T c1 c3.
Proof.
  intros [Hl1 H1] [Hl2 H2]. split; [congruence|].
  intros i n Hn. destruct (H1 i n Hn) as (n1 & Hn1 & Hs1 & He1).
  destruct (H2 i n1 Hn1) as (n2 & Hn2 & Hs2 & He2).
  exists n2. split; [done|]. split; [by eapply same_but_grad_trans|].
  intros HT. rewrite He2, He1; done.
Qed.

Lemma grads_only_mono (T T' : ref → Prop) (c c' : config) :
  (∀ i, T i → T' i) → grads_only T c c' → grads_only T' c c'.
Proof.
  intros HT [Hl H]. split; [done|].
  intros i n Hn. destruct (H i n Hn) as (n' & Hn' & Hs & He).
  exists n'. split; [done|]. split; [done|]. intros HT'. apply He. auto.
Qed.

Lemma grads_only_trace (T : ref → Prop) (c : config) (es : list event) :
  grads_only T c (mkConfig (store c) es).
Proof.
  split; [done|]. intros i n Hn. exists n.
  split; [done|]. split; [apply same_but_grad_refl | done].
Qed.

Lemma grads_only_insert (T : ref → Prop) (c : config) (r : ref) (v : Value)
    (g : pynum) (es : list event) :
  store c !! r = Some v → T r →
  grads_only T c (mkConfig (<[r := with_grad g v]> (store c)) es).
Proof.
  intros Hv HT. split; [apply length_insert|].
  intros i n Hn. simpl. destruct (decide (r = i)) as [-> | Hne].
  - exists (with_grad g v).
    rewrite list_lookup_insert_eq by (by eapply lookup_lt_Some).
    assert (n = v) as -> by congruence. by split_and!.
  - exists n. rewrite list_lookup_insert_ne by done.
    split; [done|]. split; [apply same_but_grad_refl | done].
Qed.

Section Frame.
Context {pow : PowerOp} {order : SetOrder}.

Lemma iadd_grad_frame (T : ref → Prop) (r : ref) (rhs : M pynum) (c : config) :
  readonly rhs → T r → grads_only T c (iadd_grad r rhs c).2.
Proof.
  intros Hro HT. rewrite (iadd_grad_run r rhs c Hro).
  destruct (store c !! r) as [v|] eqn:Hv; [|apply grads_only_refl].
  destruct (rhs c).1 as [t|e|]; simpl; [|apply grads_only_refl..].
  destruct (py_add (grad v) t) as [s|e]; simpl; [|apply grads_only_refl].
  by apply grads_only_insert.
Qed.

Lemma bind_frame (T : ref → Prop) {A B : Type} (m : M A) (k : A → M B) (c : config) :
  grads_only T c (m c).2 → (∀ a, grads_only T (m c).2 (k a (m c).2).2) →
  grads_only T c ((m ≫= k) c).2.
Proof.
  intros Hm Hk. rewrite bind_run.
  destruct (m c) as [[a|e|] c1] eqn:Hrun; simpl in *; try done.
  eapply grads_only_trans; [exact Hm | apply Hk].
Qed.

(** A backward function writes the gradients of its targets, nothing else. *)
Lemma call_frame (T : ref → Prop) (f : closure) (c : config) :
  (∀ t, t ∈ targets f → T t) → grads_only T c (call f c).2.
Proof.
  intros HT.
  destruct f as [| self other out | self other out | self power out | self out];
    unfold call; simpl in HT.
  - apply grads_only_refl.
  - apply bind_frame; [|intros []];
      (apply iadd_grad_frame; [auto with readonly | apply HT; set_solver]).
  - apply bind_frame; [|intros []];
      (apply iadd_grad_frame; [auto with readonly | apply HT; set_solver]).
  - apply iadd_grad_frame; [auto 10 with readonly | apply HT; set_solver].
  - apply iadd_grad_frame; [auto with readonly | apply HT; set_solver].
Qed.

(** The loop of [backward] over [vs]: [T] holds the targets of the backward
    functions of the objects of [vs]. *)
Lemma for_each_frame (T : ref → Prop) (vs : list ref) (c : config) :
  (∀ v n t, v ∈ vs → store c !! v = Some n → t ∈ targets (_backward n) → T t) →
  grads_only T c
    (for_each vs (λ v, n ← load v; emit (Call v);; call (_backward n)) c).2.
Proof.
  revert c. induction vs as [|v vs IH]; intros c HT; [apply grads_only_refl|].
  cbn [for_each].
  assert (grads_only T c ((n ← load v; emit (Call v);; call (_backward n)) c).2)
    as Hbody.
  { rewrite bind_run. unfold load.
    destruct (store c !! v) as [n|] eqn:Hn; [|apply grads_only_refl].
    rewrite bind_run. cbn [emit].
    eapply grads_only_trans; [apply (grads_only_trace T c (trace c ++ [Call v]))|].
    apply call_frame. intros t Ht. apply (HT v n t); [by left | done | done]. }
  apply bind_frame; [exact Hbody|]. intros [].
  apply IH. intros w n t Hw Hn Ht.
  destruct Hbody as [Hlen Hsame].
  assert (w < length (store c)) as Hlt by (apply lookup_lt_Some in Hn; lia).
  destruct (lookup_lt_is_Some_2 (store c) w Hlt) as [n0 Hn0].
  destruct (Hsame w n0 Hn0) as (n' & Hn' & (_ & Hb & _) & _).
  assert (n' = n) as -> by congruence.
  apply (HT w n0 t); [by right | done | by rewrite <- Hb].
Qed.

(** In a store built by the operations, a backward function writes to
    operands of the object that holds it. *)
Lemma shaped_targets (st : list Value) (v t : ref) (n : Value) :
  shaped st → st !! v = Some n → t ∈ targets (_backward n) → t ∈ operands st v.
Proof.
  intros Hs Hn Ht. unfold operands. rewrite Hn.
  specialize (Hs v n Hn). unfold shaped_node in Hs. destruct (_op n).
  - destruct Hs as [_ Hb]. rewrite Hb in Ht. by apply elem_of_nil in Ht.
  - destruct Hs as (a & b & _ & _ & -> & Hb). rewrite Hb in Ht.
    by apply set_of_elem.
  - destruct Hs as (a & b & _ & _ & -> & Hb). rewrite Hb in Ht.
    by apply set_of_elem.
  - destruct Hs as (a & _ & -> & Hb). rewrite Hb in Ht. by apply set_of_elem.
  - destruct Hs as (a & _ & -> & Hb). rewrite Hb in Ht. by apply set_of_elem.
Qed.

Lemma backward_frame (c : config) (root : ref) :
  shaped (store c) →
  grads_only (reachable (store c) root) c (backward root c).2.
Proof.
  intros Hs. pose proof (shaped_wf _ Hs) as Hwf.
  destruct (decide (root < length (store c))) as [Hroot | Hroot];
    [|rewrite backward_outside by lia; apply grads_only_refl].
  destruct (build_topo_root (store c) root Hwf Hroot)
    as (V & topo & before & Hrun & _ & _ & _ & Hreach & _).
  destruct (lookup_lt_is_Some_2 (store c) root Hroot) as [vroot Hvroot].
  unfold backward. rewrite Hrun.
  assert (grads_only (reachable (store c) root) c (assign_grad root (PyInt 1) c).2)
    as Hseed.
  { unfold assign_grad. rewrite bind_run. unfold update. rewrite Hvroot.
    cbn [emit store trace snd]. apply grads_only_insert; [done | constructor]. }
  apply bind_frame; [exact Hseed|].
  intros []. apply bind_frame; [|intros []; apply grads_only_refl].
  destruct Hseed as [Hlen Hsame].
  apply for_each_frame. intros v n t Hv Hn Ht.
  apply elem_of_reverse, Hreach in Hv.
  assert (v < length (store c)) as Hlt by (apply lookup_lt_Some in Hn; lia).
  destruct (lookup_lt_is_Some_2 (store c) v Hlt) as [n0 Hn0].
  destruct (Hsame v n0 Hn0) as (n' & Hn' & (_ & Hb & _) & _).
  assert (n' = n) as -> by congruence. rewrite Hb in Ht.
  eapply reachable_trans; [exact Hv|].
  eapply reach_step; [by eapply shaped_targets | constructor].
Qed.

(** After the backward function of the root, the loop of [backward] writes
    no gradient of [x], when [x] is no operand of an object that an operand
    of the root reaches. *)
Lemma backward_after_root (c c' : config) (root x : ref) (topo : list ref) :
  shaped (store c) → root < length (store c) →
  (∀ y, y ∈ operands (store c) root → reachable (store c) y x → x = y) →
  backward root c = (Ok topo, c') →
  ∃ vroot c2,
    store c !! root = Some vroot
    ∧ call (_backward vroot)
        (mkConfig (<[root := with_grad (PyInt 1) vroot]> (store c))
           ((trace c ++ [SetGrad root (PyInt 1)]) ++ [Call root])) = (Ok tt, c2)
    ∧ store c' !! x = store c2 !! x.
Proof.
  intros Hs Hroot Hx Hback. pose proof (shaped_wf _ Hs) as Hwf.
  destruct (backward_unfold c root Hwf Hroot) as (before & vroot & Hbefore & Hvroot & Hrun).
  rewrite Hrun in Hback. clear Hrun.
  set (c1 := mkConfig (<[root := with_grad (PyInt 1) vroot]> (store c))
               ((trace c ++ [SetGrad root (PyInt 1)]) ++ [Call root])) in *.
  assert (grads_only (λ _, True) c c1) as Hseed
    by (unfold c1; apply grads_only_insert; [exact Hvroot | exact I]).
  pose proof (call_frame (λ _, True) (_backward vroot) c1 (λ _ _, I)) as Hcall.
  destruct (call (_backward vroot) c1) as [[[]|e|] c2] eqn:Hrun; [|done..].
  exists vroot, c2. split; [done|]. split; [exact Hrun|]. simpl in Hcall.
  pose proof (grads_only_trans _ _ _ _ Hseed Hcall) as [Hlen2 Hsame2].
  assert (∀ v n t, v ∈ reverse before → store c2 !! v = Some n →
            t ∈ targets (_backward n) → t ≠ x) as Hprem.
  { intros v n t Hv Hn Ht ->.
    apply elem_of_reverse, Hbefore in Hv as (y & Hy & Hyv).
    assert (v < length (store c)) as Hlt by (apply lookup_lt_Some in Hn; lia).
    destruct (lookup_lt_is_Some_2 (store c) v Hlt) as [n0 Hn0].
    destruct (Hsame2 v n0 Hn0) as (n' & Hn' & (_ & Hb & _) & _).
    assert (n' = n) as -> by congruence. rewrite Hb in Ht.
    pose proof (shaped_targets _ _ _ _ Hs Hn0 Ht) as Hop.
    assert (x = y) as ->.
    { apply Hx; [done|]. eapply reachable_trans; [exact Hyv|].
      eapply reach_step; [exact Hop | constructor]. }
    apply (reachable_le _ _ _ Hwf) in Hyv.
    unfold operands in Hop. rewrite Hn0 in Hop.
    apply (Hwf v n0 Hn0) in Hop. lia. }
  pose proof (for_each_frame (λ t, t ≠ x) (reverse before) c2 Hprem) as Hloop.
  destruct (for_each (reverse before) _ c2) as [[[]|e|] c3]; [|done..].
  injection Hback as _ <-. simpl in Hloop.
  destruct Hloop as [Hlen3 Hsame3].
  destruct (store c2 !! x) as [n|] eqn:Hn.
  - destruct (Hsame3 x n Hn) as (n' & Hn' & _ & He). rewrite Hn'.
    f_equal. apply He. by intros H.
  - apply lookup_ge_None in Hn. apply lookup_ge_None. lia.
Qed.

End Frame.

(** ** The derivative rules, end to end *)

Lemma py_mul_minus_one (d : pynum) : py_mul d (PyInt (-1)) = Fine (py_neg d).
Proof.
  destruct d as [z | f]; simpl.
  - f_equal. f_equal. lia.
  - unfold float_op. simpl.
    replace (float_of_int (-1)) with (Fine (-1)%float) by (vm_compute; reflexivity).
    by rewrite float_mul_minus_one.
Qed.

(** Among the objects that were there, one more object changes nothing to
    what reaches what. *)
Lemma reachable_push_old (c : config) (v : Value) (u w : ref) :
  wf (store c) → u < length (store c) →
  reachable (store (push c v)) u w → reachable (store c) u w.
Proof.
  intros Hwf Hu Hr. induction Hr as [u | u d w Hd _ IH]; [constructor|].
  unfold operands in Hd.
  destruct (lookup_lt_is_Some_2 (store c) u Hu) as [nu Hnu].
  rewrite (push_lookup_old _ _ _ _ Hnu) in Hd.
  eapply reach_step; [unfold operands; by rewrite Hnu|].
  apply IH. apply (Hwf u nu Hnu) in Hd. lia.
Qed.

(** The operands [a] and [b] of a new object, neither of which reaches the
    other: what an operand reaches among them is itself. *)
Lemma operands_apart (c : config) (v : Value) (a b x y : ref) :
  wf (store c) → a < length (store c) → b < length (store c) →
  (∀ z, z ∈ _prev v → z = a ∨ z = b) →
  (a ≠ b → ¬ reachable (store c) a b ∧ ¬ reachable (store c) b a) →
  x = a ∨ x = b →
  y ∈ operands (store (push c v)) (length (store c)) →
  reachable (store (push c v)) y x → x = y.
Proof.
  intros Hwf Ha Hb Hprev Hsep Hx Hy Hr.
  unfold operands in Hy. rewrite push_lookup_new in Hy. apply Hprev in Hy.
  destruct (decide (x = y)) as [|Hne]; [done|]. exfalso.
  assert (a ≠ b) as Hab by (intros ->; destruct Hx, Hy; congruence).
  destruct (Hsep Hab) as [H1 H2].
  destruct Hx as [-> | ->], Hy as [-> | ->]; try done.
  - apply H2. by eapply reachable_push_old.
  - apply H1. by eapply reachable_push_old.
Qed.

Section Rules.
Context {pow : PowerOp} {order : SetOrder}.

(** The gradient of the root when its backward function runs. *)
Lemma seeded_lookups (c : config) (v : Value) (es : list event) (a : ref) (va : Value) :
  store c !! a = Some va →
  let c0 := mkConfig (<[length (store c) := with_grad (PyInt 1) v]> (store (push c v))) es in
  store c0 !! a = Some va
  ∧ store c0 !! length (store c) = Some (with_grad (PyInt 1) v).
Proof.
  intros Ha. apply lookup_lt_Some in Ha as Hlt. cbn [store]. split.
  - rewrite list_lookup_insert_ne by lia. by apply push_lookup_old.
  - apply list_lookup_insert_eq. rewrite push_length. lia.
Qed.

(** X1. [backward] writes the gradients of objects that the root reaches,
    and nothing else: an object of the store that the root does not reach is
    after the pass exactly what it was, whether the pass returns or raises,
    and no object is added or removed. *)
Theorem backward_leaves_the_rest_alone (c : config) (root i : ref) (n : Value) :
  shaped (store c) → store c !! i = Some n → ¬ reachable (store c) root i →
  store (backward root c).2 !! i = Some n
  ∧ length (store (backward root c).2) = length (store c).
Proof.
  intros Hs Hn Hi. destruct (backward_frame c root Hs) as [Hlen Hsame].
  split; [|done]. destruct (Hsame i n Hn) as (n' & Hn' & _ & He).
  by rewrite Hn', He.
Qed.

(** X2. The sum rule, end to end. For two objects [a] and [b] neither of
    which feeds the other, [s = a + b] and then [s.backward()], when it
    returns, has added 1 to the gradient of [a] and 1 to the gradient of [b]:
    one addend each, [1 * out.grad] with the seed 1 as [out.grad]. *)
Theorem sum_rule (c c1 c2 : config) (a b s : ref) (va vb : Value)
    (topo : list ref) :
  shaped (store c) → store c !! a = Some va → store c !! b = Some vb →
  ¬ reachable (store c) a b → ¬ reachable (store c) b a →
  __add__ a (ObjValue b) c = (Ok s, c1) →
  backward s c1 = (Ok topo, c2) →
  ∃ va' vb',
    store c2 !! a = Some va' ∧ store c2 !! b = Some vb'
    ∧ py_add (grad va) (PyInt 1) = Fine (grad va')
    ∧ py_add (grad vb) (PyInt 1) = Fine (grad vb')
    ∧ data va' = data va ∧ data vb' = data vb.
Proof.
  intros Hs Ha Hb Hab Hba Hadd Hback.
  assert (a ≠ b) as Hne by (intros ->; apply Hab; constructor).
  pose proof (add_keeps_shaped a (ObjValue b) c Hs) as Hs1.
  rewrite Hadd in Hs1. simpl in Hs1.
  rewrite add_value in Hadd. unfold binop_run in Hadd. rewrite Ha, Hb in Hadd.
  destruct (py_add (data va) (data vb)) as [sum|e]; [|done].
  injection Hadd as <- <-.
  set (nm := new_object sum (AddBackward a b (length (store c))) [a; b] OpAdd) in *.
  assert (a < length (store c) ∧ b < length (store c)) as [Hla Hlb]
    by (split; by eapply lookup_lt_Some).
  assert (∀ x y, x = a ∨ x = b → y ∈ operands (store (push c nm)) (length (store c)) →
            reachable (store (push c nm)) y x → x = y) as Hsep.
  { intros x y. apply (operands_apart c nm a b); try done.
    - by apply shaped_wf.
    - intros z. unfold nm, new_object. cbn [_prev].
      rewrite set_of_elem, !elem_of_cons, elem_of_nil. tauto. }
  destruct (backward_after_root (push c nm) c2 (length (store c)) a topo Hs1)
    as (vr & c3 & Hvr & Hcall & Hxa);
    [rewrite push_length; lia | intros y; apply Hsep; by left | exact Hback |].
  destruct (backward_after_root (push c nm) c2 (length (store c)) b topo Hs1)
    as (vr' & c3' & Hvr' & Hcall' & Hxb);
    [rewrite push_length; lia | intros y; apply Hsep; by right | exact Hback |].
  rewrite push_lookup_new in Hvr, Hvr'. injection Hvr as <-. injection Hvr' as <-.
  rewrite Hcall in Hcall'. injection Hcall' as <-.
  rewrite Hxa, Hxb. clear Hxa Hxb Hback Hsep.
  destruct (seeded_lookups c nm ((trace c ++ [SetGrad (length (store c)) (PyInt 1)])
                                  ++ [Call (length (store c))]) a va Ha) as [Ha0 Hm0].
  destruct (seeded_lookups c nm ((trace c ++ [SetGrad (length (store c)) (PyInt 1)])
                                  ++ [Call (length (store c))]) b vb Hb) as [Hb0 _].
  cbn [nm new_object _backward call] in Hcall.
  set (c0 := mkConfig _ _) in *.
  rewrite bind_run, iadd_grad_run in Hcall by auto with readonly.
  rewrite Ha0 in Hcall. rewrite bind_run in Hcall. unfold load at 1 in Hcall.
  rewrite Hm0 in Hcall.
  cbn [with_grad grad] in Hcall. rewrite py_mul_one_l in Hcall.
  cbn [num fst mret M_ret] in Hcall.
  destruct (py_add (grad va) (PyInt 1)) as [ga|e] eqn:Hga; [|done].
  rewrite iadd_grad_run in Hcall by auto with readonly. cbn [store] in Hcall.
  rewrite list_lookup_insert_ne, Hb0 in Hcall by done.
  rewrite bind_run in Hcall. unfold load at 1 in Hcall. cbn [store] in Hcall.
  rewrite list_lookup_insert_ne, Hm0 in Hcall by lia.
  cbn [with_grad grad data] in Hcall. rewrite py_mul_one_l in Hcall.
  cbn [num fst mret M_ret] in Hcall.
  destruct (py_add (grad vb) (PyInt 1)) as [gb|e] eqn:Hgb; [|done].
  injection Hcall as <-. cbn [store].
  exists (with_grad ga va), (with_grad gb vb). split_and!; try done.
  - rewrite list_lookup_insert_ne by done. apply list_lookup_insert_eq.
    by eapply lookup_lt_Some.
  - apply list_lookup_insert_eq. rewrite length_insert. by eapply lookup_lt_Some.
Qed.

(** X3. The product rule, end to end. For two objects [a] and [b] neither of
    which feeds the other, [m = a * b] and then [m.backward()], when it
    returns, has added [b.data] to the gradient of [a] and [a.data] to the
    gradient of [b]: one addend each, the factor [out.grad] being the seed 1. *)
Theorem product_rule (c c1 c2 : config) (a b m : ref) (va vb : Value)
    (topo : list ref) :
  shaped (store c) → store c !! a = Some va → store c !! b = Some vb →
  ¬ reachable (store c) a b → ¬ reachable (store c) b a →
  __mul__ a (ObjValue b) c = (Ok m, c1) →
  backward m c1 = (Ok topo, c2) →
  ∃ va' vb',
    store c2 !! a = Some va' ∧ store c2 !! b = Some vb'
    ∧ py_add (grad va) (data vb) = Fine (grad va')
    ∧ py_add (grad vb) (data va) = Fine (grad vb')
    ∧ data va' = data va ∧ data vb' = data vb.
Proof.
  intros Hs Ha Hb Hab Hba Hmul Hback.
  assert (a ≠ b) as Hne by (intros ->; apply Hab; constructor).
  pose proof (mul_keeps_shaped a (ObjValue b) c Hs) as Hs1.
  rewrite Hmul in Hs1. simpl in Hs1.
  rewrite mul_value in Hmul. unfold binop_run in Hmul. rewrite Ha, Hb in Hmul.
  destruct (py_mul (data va) (data vb)) as [prod|e]; [|done].
  injection Hmul as <- <-.
  set (nm := new_object prod (MulBackward a b (length (store c))) [a; b] OpMul) in *.
  assert (a < length (store c) ∧ b < length (store c)) as [Hla Hlb]
    by (split; by eapply lookup_lt_Some).
  assert (∀ x y, x = a ∨ x = b → y ∈ operands (store (push c nm)) (length (store c)) →
            reachable (store (push c nm)) y x → x = y) as Hsep.
  { intros x y. apply (operands_apart c nm a b); try done.
    - by apply shaped_wf.
    - intros z. unfold nm, new_object. cbn [_prev].
      rewrite set_of_elem, !elem_of_cons, elem_of_nil. tauto. }
  destruct (backward_after_root (push c nm) c2 (length (store c)) a topo Hs1)
    as (vr & c3 & Hvr & Hcall & Hxa);
    [rewrite push_length; lia | intros y; apply Hsep; by left | exact Hback |].
  destruct (backward_after_root (push c nm) c2 (length (store c)) b topo Hs1)
    as (vr' & c3' & Hvr' & Hcall' & Hxb);
    [rewrite push_length; lia | intros y; apply Hsep; by right | exact Hback |].
  rewrite push_lookup_new in Hvr, Hvr'. injection Hvr as <-. injection Hvr' as <-.
  rewrite Hcall in Hcall'. injection Hcall' as <-.
  rewrite Hxa, Hxb. clear Hxa Hxb Hback Hsep.
  destruct (seeded_lookups c nm ((trace c ++ [SetGrad (length (store c)) (PyInt 1)])
                                  ++ [Call (length (store c))]) a va Ha) as [Ha0 Hm0].
  destruct (seeded_lookups c nm ((trace c ++ [SetGrad (length (store c)) (PyInt 1)])
                                  ++ [Call (length (store c))]) b vb Hb) as [Hb0 _].
  cbn [nm new_object _backward call] in Hcall.
  set (c0 := mkConfig _ _) in *.
  rewrite bind_run, iadd_grad_run in Hcall by auto with readonly.
  rewrite Ha0 in Hcall. rewrite bind_run in Hcall. unfold load at 1 in Hcall.
  rewrite Hb0, bind_run in Hcall. unfold load at 1 in Hcall. rewrite Hm0 in Hcall.
  cbn [with_grad grad] in Hcall. rewrite py_mul_one_r in Hcall.
  cbn [num fst mret M_ret] in Hcall.
  destruct (py_add (grad va) (data vb)) as [ga|e] eqn:Hga; [|done].
  rewrite iadd_grad_run in Hcall by auto with readonly. cbn [store] in Hcall.
  rewrite list_lookup_insert_ne, Hb0 in Hcall by done.
  rewrite bind_run in Hcall. unfold load at 1 in Hcall. cbn [store] in Hcall.
  rewrite list_lookup_insert_eq in Hcall by (by eapply lookup_lt_Some).
  rewrite bind_run in Hcall. unfold load at 1 in Hcall. cbn [store] in Hcall.
  rewrite list_lookup_insert_ne, Hm0 in Hcall by lia.
  cbn [with_grad grad data] in Hcall. rewrite py_mul_one_r in Hcall.
  cbn [num fst mret M_ret] in Hcall.
  destruct (py_add (grad vb) (data va)) as [gb|e] eqn:Hgb; [|done].
  injection Hcall as <-. cbn [store].
  exists (with_grad ga va), (with_grad gb vb). split_and!; try done.
  - rewrite list_lookup_insert_ne by done. apply list_lookup_insert_eq.
    by eapply lookup_lt_Some.
  - apply list_lookup_insert_eq. rewrite length_insert. by eapply lookup_lt_Some.
Qed.

(** X4. The power rule, end to end. For any object [a] and number [k],
    [p = a ** k] and then [p.backward()], when it returns, has added
    [k * a.data ** (k - 1)] to the gradient of [a], once. *)
Theorem power_rule (c c1 c2 : config) (a p : ref) (k : pynum) (va : Value)
    (topo : list ref) :
  shaped (store c) → store c !! a = Some va →
  __pow__ a (ObjNum k) c = (Ok p, c1) →
  backward p c1 = (Ok topo, c2) →
  ∃ va' e w t,
    store c2 !! a = Some va'
    ∧ py_sub k (PyInt 1) = Fine e
    ∧ py_pow (data va) e = Fine w
    ∧ py_mul k w = Fine t
    ∧ py_add (grad va) t = Fine (grad va')
    ∧ data va' = data va.
Proof.
  intros Hs Ha Hpow Hback.
  pose proof (pow_keeps_shaped a (ObjNum k) c Hs) as Hs1.
  rewrite Hpow in Hs1. simpl in Hs1.
  rewrite pow_num, Ha in Hpow.
  destruct (py_pow (data va) k) as [x|err]; [|done].
  injection Hpow as <- <-.
  set (nm := new_object x (PowBackward a k (length (store c))) [a] (OpPow k)) in *.
  assert (a < length (store c)) as Hla by (by eapply lookup_lt_Some).
  destruct (backward_after_root (push c nm) c2 (length (store c)) a topo Hs1)
    as (vr & c3 & Hvr & Hcall & Hxa); [rewrite push_length; lia | | exact Hback |].
  { intros y. apply (operands_apart c nm a a); try done.
    - by apply shaped_wf.
    - intros z. unfold nm, new_object. cbn [_prev].
      rewrite set_of_one, list_elem_of_singleton. tauto.
    - by left. }
  rewrite push_lookup_new in Hvr. injection Hvr as <-.
  rewrite Hxa. clear Hxa Hback.
  destruct (seeded_lookups c nm ((trace c ++ [SetGrad (length (store c)) (PyInt 1)])
                                  ++ [Call (length (store c))]) a va Ha) as [Ha0 Hm0].
  cbn [nm new_object _backward call] in Hcall.
  set (c0 := mkConfig _ _) in *.
  rewrite iadd_grad_run in Hcall by auto 10 with readonly.
  rewrite Ha0 in Hcall. rewrite bind_run in Hcall. unfold load at 1 in Hcall.
  rewrite Ha0 in Hcall. rewrite bind_run in Hcall.
  destruct (py_sub k (PyInt 1)) as [e|err] eqn:He; [|done].
  cbn [num mret M_ret] in Hcall. rewrite bind_run in Hcall.
  destruct (py_pow (data va) e) as [w|err] eqn:Hw; [|done].
  cbn [num mret M_ret] in Hcall. rewrite bind_run in Hcall.
  destruct (py_mul k w) as [t|err] eqn:Ht; [|done].
  cbn [num mret M_ret] in Hcall. rewrite bind_run in Hcall. unfold load at 1 in Hcall.
  rewrite Hm0 in Hcall. cbn [with_grad grad] in Hcall.
  rewrite py_mul_one_r in Hcall. cbn [num fst mret M_ret] in Hcall.
  destruct (py_add (grad va) t) as [ga|err] eqn:Hga; [|done].
  injection Hcall as <-. cbn [store].
  exists (with_grad ga va), e, w, t. split_and!; try done.
  apply list_lookup_insert_eq. by eapply lookup_lt_Some.
Qed.

(** X5. The ReLU rule, end to end. For any object [a], [r = a.relu()] and
    then [r.backward()], when it returns, has added to the gradient of [a] the
    int [1] when [a.data > 0] and the int [0] otherwise, once. *)
Theorem relu_rule (c c1 c2 : config) (a r : ref) (va : Value) (topo : list ref) :
  shaped (store c) → store c !! a = Some va →
  relu a c = (Ok r, c1) →
  backward r c1 = (Ok topo, c2) →
  ∃ va',
    store c2 !! a = Some va'
    ∧ py_add (grad va) (PyInt (if py_gt_zero (data va) then 1 else 0))
      = Fine (grad va')
    ∧ data va' = data va.
Proof.
  intros Hs Ha Hrelu Hback.
  pose proof (relu_keeps_shaped a c Hs) as Hs1.
  rewrite Hrelu in Hs1. simpl in Hs1.
  rewrite relu_run, Ha in Hrelu. injection Hrelu as <- <-.
  set (nm := new_object (py_max_zero (data va)) (ReluBackward a (length (store c)))
               [a] OpReLU) in *.
  assert (a < length (store c)) as Hla by (by eapply lookup_lt_Some).
  destruct (backward_after_root (push c nm) c2 (length (store c)) a topo Hs1)
    as (vr & c3 & Hvr & Hcall & Hxa); [rewrite push_length; lia | | exact Hback |].
  { intros y. apply (operands_apart c nm a a); try done.
    - by apply shaped_wf.
    - intros z. unfold nm, new_object. cbn [_prev].
      rewrite set_of_one, list_elem_of_singleton. tauto.
    - by left. }
  rewrite push_lookup_new in Hvr. injection Hvr as <-.
  rewrite Hxa. clear Hxa Hback.
  destruct (seeded_lookups c nm ((trace c ++ [SetGrad (length (store c)) (PyInt 1)])
                                  ++ [Call (length (store c))]) a va Ha) as [Ha0 Hm0].
  cbn [nm new_object _backward call] in Hcall.
  set (c0 := mkConfig _ _) in *.
  rewrite iadd_grad_run in Hcall by auto with readonly.
  rewrite Ha0 in Hcall. rewrite bind_run in Hcall. unfold load at 1 in Hcall.
  rewrite Ha0 in Hcall. rewrite bind_run in Hcall. unfold load at 1 in Hcall.
  rewrite Hm0 in Hcall. cbn [with_grad grad] in Hcall.
  rewrite py_mul_one_r in Hcall. cbn [num fst mret M_ret] in Hcall.
  destruct (py_add (grad va) _) as [ga|err] eqn:Hga; [|done].
  injection Hcall as <-. cbn [store].
  exists (with_grad ga va). split_and!; try done.
  apply list_lookup_insert_eq. by eapply lookup_lt_Some.
Qed.

(** X6. Unary minus. [-a] never fails: it builds the leaf [-1] and the
    product [a * -1], whose value is exactly [-a.data], for an int and for
    every float (infinities and NaN included). Then [backward] on the result,
    when it returns, has added [-1] to the gradient of [a]. *)
Theorem negation_value_and_gradient (c : config) (a : ref) (va : Value) :
  shaped (store c) → store c !! a = Some va →
  ∃ c1 vout,
    __neg__ a c = (Ok (S (length (store c))), c1)
    ∧ length (store c1) = S (S (length (store c)))
    ∧ store c1 !! S (length (store c)) = Some vout
    ∧ data vout = py_neg (data va)
    ∧ ∀ topo c2, backward (S (length (store c))) c1 = (Ok topo, c2) →
        ∃ va', store c2 !! a = Some va'
               ∧ py_add (grad va) (PyInt (-1)) = Fine (grad va')
               ∧ data va' = data va.
Proof.
  intros Hs Ha.
  pose proof (neg_keeps_shaped a c Hs) as Hs1.
  unfold __neg__ in *. rewrite mul_num in *. unfold binop_run in *.
  set (leaf := new_object (PyInt (-1)) NoBackward [] OpNone) in *.
  rewrite (push_lookup_old _ _ _ _ Ha), push_lookup_new in *.
  cbn [leaf new_object data] in *. rewrite py_mul_minus_one in *.
  fold leaf in Hs1 |- *. rewrite push_length in *.
  set (nm := new_object (py_neg (data va))
               (MulBackward a (length (store c)) (S (length (store c))))
               [a; length (store c)] OpMul) in *.
  cbn [snd] in Hs1.
  eexists _, nm. split; [reflexivity|]. split; [by rewrite !push_length|].
  split; [apply push_lookup_at; by rewrite push_length|]. split; [done|].
  intros topo c2 Hback.
  assert (a < length (store c)) as Hla by (by eapply lookup_lt_Some).
  assert (store (push c leaf) !! a = Some va) as Ha1 by (by apply push_lookup_old).
  assert (wf (store (push c leaf))) as Hwf1.
  { apply wf_snoc; [by apply shaped_wf | |done].
    intros x. unfold leaf, new_object. cbn [_prev]. rewrite set_of_nil.
    by intros ?%elem_of_nil. }
  rewrite <- (push_length c leaf) in Hback.
  destruct (backward_after_root (push (push c leaf) nm) c2 (length (store (push c leaf)))
              a topo Hs1) as (vr & c3 & Hvr & Hcall & Hxa);
    [rewrite !push_length; lia | | exact Hback |].
  { intros y Hy Hr. unfold operands in Hy. rewrite push_lookup_new in Hy.
    unfold nm, new_object in Hy. cbn [_prev] in Hy.
    rewrite set_of_elem, !elem_of_cons, elem_of_nil in Hy.
    destruct Hy as [-> | [-> | []]]; [done|].
    apply reachable_push_old in Hr; [|done | rewrite push_length; lia].
    inversion Hr as [| ? d ? Hd _]; subst; [done|].
    unfold operands in Hd. rewrite push_lookup_new in Hd.
    unfold leaf, new_object in Hd. cbn [_prev] in Hd. rewrite set_of_nil in Hd.
    by apply elem_of_nil in Hd. }
  rewrite push_lookup_new in Hvr. injection Hvr as <-.
  rewrite Hxa. clear Hxa Hback.
  destruct (seeded_lookups (push c leaf) nm
              ((trace (push c leaf) ++ [SetGrad (length (store (push c leaf))) (PyInt 1)])
               ++ [Call (length (store (push c leaf)))]) a va Ha1) as [Ha0 Hm0].
  destruct (seeded_lookups (push c leaf) nm
              ((trace (push c leaf) ++ [SetGrad (length (store (push c leaf))) (PyInt 1)])
               ++ [Call (length (store (push c leaf)))]) (length (store c)) leaf
              (push_lookup_new c leaf)) as [Hl0 _].
  cbn [nm new_object _backward call] in Hcall.
  set (c0 := mkConfig _ _) in *.
  rewrite bind_run, iadd_grad_run in Hcall by auto with readonly.
  rewrite Ha0 in Hcall. rewrite bind_run in Hcall. unfold load at 1 in Hcall.
  rewrite Hl0, bind_run in Hcall. unfold load at 1 in Hcall.
  rewrite push_length in Hm0. rewrite Hm0 in Hcall.
  cbn [leaf new_object with_grad grad data] in Hcall. rewrite py_mul_one_r in Hcall.
  cbn [num fst mret M_ret] in Hcall.
  destruct (py_add (grad va) (PyInt (-1))) as [ga|e] eqn:Hga; [|done].
  rewrite iadd_grad_run in Hcall by auto with readonly. cbn [store] in Hcall.
  rewrite list_lookup_insert_ne, Hl0 in Hcall by lia.
  rewrite bind_run in Hcall. unfold load at 1 in Hcall. cbn [store] in Hcall.
  rewrite list_lookup_insert_eq in Hcall by (by eapply lookup_lt_Some).
  rewrite bind_run in Hcall. unfold load at 1 in Hcall. cbn [store] in Hcall.
  rewrite list_lookup_insert_ne, Hm0 in Hcall by lia.
  cbn [with_grad grad data] in Hcall. rewrite py_mul_one_r in Hcall.
  cbn [num fst mret M_ret] in Hcall.
  unfold leaf at 1, new_object at 1 in Hcall. cbn [grad] in Hcall.
  destruct (py_add (PyFloat 0) (data va)) as [gb|e] eqn:Hgb; [|done].
  injection Hcall as <-. cbn [store].
  exists (with_grad ga va). split_and!; try done.
  rewrite list_lookup_insert_ne by lia. apply list_lookup_insert_eq.
  by eapply lookup_lt_Some.
Qed.

End Rules.

(** ** The order of the events of a pass *)

(** Additions to the gradients of objects of [T], and nothing else. *)
Definition adds_to (T : list ref) (es : list event) : Prop :=
  Forall (λ e, match e with AddGrad t _ => t ∈ T | _ => False end) es.

(** The targets of the backward function of the object at [v]. *)
Definition targets_at (st : list Value) (v : ref) : list ref :=
  match st !! v with
  | Some n => targets (_backward n)
  | None => []
  end.

(** The events of a loop that calls the backward functions of [vs] in turn:
    for each, the call, then the additions that its function makes. *)
Inductive segments (st : list Value) : list ref → list event → Prop :=
  | segments_nil : segments st [] []
  | segments_cons (v : ref) (vs : list ref) (adds es : list event) :
      adds_to (targets_at st v) adds → segments st vs es →
      segments st (v :: vs) (Call v :: adds ++ es).

(** No target of an object of [vs] stands before it in [vs], or is it. *)
Definition targets_follow (st : list Value) (vs : list ref) : Prop :=
  ∀ l1 u l2 t, vs = l1 ++ (u :: l2) → t ∈ targets_at st u → (t ∉ l1) ∧ t ≠ u.

Lemma targets_follow_tail (st : list Value) (v : ref) (vs : list ref) :
  targets_follow st (v :: vs) → targets_follow st vs.
Proof.
  intros H l1 u l2 t -> Ht. destruct (H (v :: l1) u l2 t eq_refl Ht) as [H1 H2].
  split; [|done]. intros Hin. apply H1. by right.
Qed.

Lemma adds_to_contributions (T : list ref) (es : list event) (v : ref) :
  adds_to T es → v ∉ T → contributions v es = [].
Proof.
  intros Hes Hv. induction Hes as [|e es He _ IH]; [done|].
  change (e :: es) with ([e] ++ es). rewrite contributions_app, IH, app_nil_r.
  destruct e as [? ?|t x|?]; try done. unfold contributions. simpl.
  case_decide as Heq; [by subst | done].
Qed.

Lemma segments_contributions (st : list Value) (vs : list ref) (es : list event)
    (v : ref) :
  segments st vs es → (∀ w, w ∈ vs → v ∉ targets_at st w) → contributions v es = [].
Proof.
  induction 1 as [|w vs adds es Hadds _ IH]; intros Hv; [done|].
  change (Call w :: adds ++ es) with ([Call w] ++ adds ++ es).
  rewrite !contributions_app, IH by (intros u Hu; apply Hv; by right).
  rewrite (adds_to_contributions _ _ _ Hadds) by (apply Hv; by left). done.
Qed.

Lemma adds_to_split (T : list ref) (adds es es1 es2 : list event) (v : ref) :
  adds_to T adds → adds ++ es = es1 ++ Call v :: es2 →
  ∃ es1', es1 = adds ++ es1' ∧ es = es1' ++ Call v :: es2.
Proof.
  intros Hadds. revert es1. induction Hadds as [|e adds He _ IH]; intros es1 Heq.
  - by exists es1.
  - destruct es1 as [|e1 es1]; simpl in Heq.
    + injection Heq as -> _. done.
    + injection Heq as -> Heq. destruct (IH es1 Heq) as (es1' & -> & ->).
      by exists es1'.
Qed.

(** In such a sequence of events, nothing is added to the gradient of an
    object after the call of its backward function. *)
Lemma segments_complete (st : list Value) (vs : list ref) (es : list event) :
  segments st vs es → targets_follow st vs →
  ∀ es1 v es2, es = es1 ++ Call v :: es2 → contributions v es2 = [].
Proof.
  induction 1 as [|u vs adds es Hadds Hsegs IH]; intros Hord es1 v es2 Heq.
  - by destruct es1.
  - destruct es1 as [|e es1]; simpl in Heq.
    + injection Heq as -> <-. rewrite contributions_app.
      rewrite (adds_to_contributions _ _ _ Hadds).
      * simpl. eapply segments_contributions; [exact Hsegs|].
        intros w Hw Hin. apply list_elem_of_split in Hw as (l1 & l2 & ->).
        destruct (Hord (v :: l1) w l2 v eq_refl Hin) as [Hnot _].
        apply Hnot. by left.
      * intros Hin. by destruct (Hord [] v vs v eq_refl Hin) as [_ Hne].
    + injection Heq as _ Heq.
      destruct (adds_to_split _ _ _ _ _ _ Hadds Heq) as (es1' & -> & ->).
      eapply IH; [by eapply targets_follow_tail | done].
Qed.

Section Segments.
Context {pow : PowerOp} {order : SetOrder}.

Lemma no_adds (T : list ref) (es : list event) :
  ∃ adds, es = es ++ adds ∧ adds_to T adds.
Proof. exists []. split; [by rewrite app_nil_r | constructor]. Qed.

Lemma iadd_grad_trace (r : ref) (rhs : M pynum) (c : config) :
  readonly rhs →
  ∃ adds, trace (iadd_grad r rhs c).2 = trace c ++ adds ∧ adds_to [r] adds.
Proof.
  intros Hro. rewrite (iadd_grad_run r rhs c Hro).
  destruct (store c !! r) as [v|]; [|apply no_adds].
  destruct (rhs c).1 as [t|e|]; simpl; [|apply no_adds..].
  destruct (py_add (grad v) t) as [s|e]; simpl; [|apply no_adds].
  exists [AddGrad r t]. split; [done|]. constructor; [by left | constructor].
Qed.

Lemma adds_to_mono (T T' : list ref) (es : list event) :
  (∀ t, t ∈ T → t ∈ T') → adds_to T es → adds_to T' es.
Proof.
  intros HT Hes. eapply Forall_impl; [exact Hes|].
  intros [? ?|t x|?]; try done. apply HT.
Qed.

Lemma call_trace (f : closure) (c : config) :
  ∃ adds, trace (call f c).2 = trace c ++ adds ∧ adds_to (targets f) adds.
Proof.
  assert (∀ (r1 r2 : ref) (rhs1 rhs2 : M pynum),
            readonly rhs1 → readonly rhs2 →
            ∃ adds, trace ((iadd_grad r1 rhs1;; iadd_grad r2 rhs2) c).2 = trace c ++ adds
                    ∧ adds_to [r1; r2] adds) as Htwo.
  { intros r1 r2 rhs1 rhs2 H1 H2. rewrite bind_run.
    destruct (iadd_grad_trace r1 rhs1 c H1) as (a1 & Ht1 & Ha1).
    destruct (iadd_grad r1 rhs1 c) as [[[]|e|] c1]; simpl in Ht1;
      [| exists a1; split; [done|]; eapply adds_to_mono; [|exact Ha1];
         intros t ->%list_elem_of_singleton; by left ..].
    destruct (iadd_grad_trace r2 rhs2 c1 H2) as (a2 & Ht2 & Ha2).
    exists (a1 ++ a2). rewrite Ht2, Ht1, app_assoc. split; [done|].
    apply Forall_app. split; (eapply adds_to_mono; [|eassumption]);
      intros t ->%list_elem_of_singleton; [by left | by right; left]. }
  destruct f as [| self other out | self other out | self power out | self out];
    unfold call; cbn [targets].
  - apply no_adds.
  - apply Htwo; auto with readonly.
  - apply Htwo; auto with readonly.
  - apply iadd_grad_trace. auto 10 with readonly.
  - apply iadd_grad_trace. auto with readonly.
Qed.

(** The events of the loop of [backward] over [vs], from a store that holds
    the objects of [c0] but for their gradients. *)
Lemma for_each_segments (c0 : config) (vs : list ref) (c : config) :
  grads_only (λ _, True) c0 c →
  ∃ called es,
    trace (for_each vs (λ v, n ← load v; emit (Call v);; call (_backward n)) c).2
    = trace c ++ es
    ∧ segments (store c0) called es
    ∧ called `prefix_of` vs.
Proof.
  revert c. induction vs as [|v vs IH]; intros c Hc.
  { exists [], []. split; [by rewrite app_nil_r|]. split; [constructor | done]. }
  cbn [for_each]. rewrite bind_run, bind_run. unfold load at 1.
  destruct (store c !! v) as [n|] eqn:Hn.
  2:{ exists [], []. split; [by rewrite app_nil_r|].
      split; [constructor | apply prefix_nil]. }
  rewrite bind_run. cbn [emit].
  set (c1 := mkConfig (store c) (trace c ++ [Call v])).
  destruct (call_trace (_backward n) c1) as (adds & Htr & Hadds).
  assert (targets_at (store c0) v = targets (_backward n)) as Htg.
  { destruct Hc as [Hlen Hsame]. unfold targets_at.
    assert (v < length (store c0)) as Hlt by (apply lookup_lt_Some in Hn; lia).
    destruct (lookup_lt_is_Some_2 (store c0) v Hlt) as [n0 Hn0]. rewrite Hn0.
    destruct (Hsame v n0 Hn0) as (n' & Hn' & (_ & Hb & _) & _).
    assert (n' = n) as -> by congruence. by rewrite Hb. }
  assert (grads_only (λ _, True) c0 (call (_backward n) c1).2) as Hc1.
  { eapply grads_only_trans; [exact Hc|].
    eapply grads_only_trans; [apply (grads_only_trace _ c (trace c ++ [Call v]))|].
    by apply call_frame. }
  destruct (call (_backward n) c1) as [[[]|e|] c2]; cbn [snd] in *.
  - destruct (IH c2 Hc1) as (called & es & Htr2 & Hsegs & Hpre).
    exists (v :: called), (Call v :: adds ++ es). split_and!.
    + rewrite Htr2, Htr. cbn [c1 trace]. by rewrite <- !app_assoc.
    + constructor; [by rewrite Htg | done].
    + by apply prefix_cons.
  - exists [v], (Call v :: adds ++ []). split_and!.
    + rewrite Htr. cbn [c1 trace]. by rewrite app_nil_r, <- app_assoc.
    + constructor; [by rewrite Htg | constructor].
    + apply prefix_cons, prefix_nil.
  - exists [v], (Call v :: adds ++ []). split_and!.
    + rewrite Htr. cbn [c1 trace]. by rewrite app_nil_r, <- app_assoc.
    + constructor; [by rewrite Htg | constructor].
    + apply prefix_cons, prefix_nil.
Qed.

Lemma targets_follow_prefix (st : list Value) (l k : list ref) :
  l `prefix_of` k → targets_follow st k → targets_follow st l.
Proof.
  intros [rest ->] H l1 u l2 t -> Ht.
  apply (H l1 u (l2 ++ rest) t); [by rewrite <- app_assoc | done].
Qed.

(** Along the reversed order of [build_topo], the targets of an object come
    after it. *)
Lemma reverse_topo_targets_follow (st : list Value) (topo : list ref) :
  shaped st → NoDup topo → topological st topo →
  targets_follow st (reverse topo).
Proof.
  intros Hs Hnd Htopo l1 u l2 t Heq Ht.
  assert (topo = reverse l2 ++ u :: reverse l1) as ->.
  { rewrite <- (reverse_involutive topo), Heq, reverse_app, reverse_cons.
    by rewrite <- app_assoc. }
  unfold targets_at in Ht. destruct (st !! u) as [n|] eqn:Hn; [|by apply elem_of_nil in Ht].
  pose proof (shaped_targets st u t n Hs Hn Ht) as Hop.
  destruct (Htopo (length (reverse l2)) u) with (x := t) as (j & Hj & Hjt);
    [by rewrite list_lookup_middle | done |].
  rewrite lookup_app_l in Hjt by done.
  apply list_elem_of_lookup_2 in Hjt.
  apply NoDup_app in Hnd as (_ & Hdisj & _). specialize (Hdisj t Hjt).
  split.
  - intros Hin. apply Hdisj. right. by apply elem_of_reverse.
  - intros ->. apply Hdisj. by left.
Qed.

(** X7. A gradient is complete before it is used. In the pass that
    [backward] runs on a store built by the operations, once the backward
    function of an object has been called, nothing is added to the gradient
    of that object any more: the [out.grad] that the function reads is the
    final gradient of the object. *)
Theorem gradient_is_complete_before_use (c : config) (root v : ref)
    (es1 es2 : list event) :
  shaped (store c) → root < length (store c) →
  trace (backward root c).2 = trace c ++ SetGrad root (PyInt 1) :: es1 ++ Call v :: es2 →
  contributions v es2 = [].
Proof.
  intros Hs Hroot Htr. pose proof (shaped_wf _ Hs) as Hwf.
  destruct (build_topo_root (store c) root Hwf Hroot)
    as (V & topo & before & Hrun & _ & Hnd & Htopo & _ & _).
  destruct (lookup_lt_is_Some_2 (store c) root Hroot) as [vroot Hvroot].
  unfold backward in Htr. rewrite Hrun in Htr.
  rewrite bind_run in Htr. unfold assign_grad in Htr. rewrite bind_run in Htr.
  unfold update in Htr. rewrite Hvroot in Htr. cbn [emit store trace] in Htr.
  set (c1 := mkConfig (<[root := with_grad (PyInt 1) vroot]> (store c))
               (trace c ++ [SetGrad root (PyInt 1)])) in *.
  destruct (for_each_segments c (reverse topo) c1) as (called & es & Htr1 & Hsegs & Hpre).
  { unfold c1. by apply grads_only_insert. }
  rewrite bind_run in Htr.
  assert (es = es1 ++ Call v :: es2) as ->.
  { destruct (for_each (reverse topo) _ c1) as [[[]|e|] c2]; simpl in Htr, Htr1;
      rewrite Htr in Htr1; rewrite <- app_assoc in Htr1;
      apply app_inv_head in Htr1; by injection Htr1. }
  eapply segments_complete; [exact Hsegs | | done].
  eapply targets_follow_prefix; [exact Hpre|].
  by apply reverse_topo_targets_follow.
Qed.

End Segments.

(** ** The chain rule, as the pass applies it *)

Definition fine {A : Type} (r : arith A) : option A :=
  match r with
  | Fine a => Some a
  | Fails _ => None
  end.

(** What the backward function [f] adds when the gradient of its object is
    [g]: to each input, in the order of the code, the local derivative times
    [g]. The data are read in [st]. *)
Definition local_addends {pow : PowerOp} (st : list Value) (f : closure) (g : pynum)
    : option (list event) :=
  match f with
  | NoBackward => Some []
  | AddBackward self other _ =>
      x ← fine (py_mul (PyInt 1) g);
      Some [AddGrad self x; AddGrad other x]
  | MulBackward self other _ =>
      s ← st !! self;
      o ← st !! other;
      x ← fine (py_mul (data o) g);
      y ← fine (py_mul (data s) g);
      Some [AddGrad self x; AddGrad other y]
  | PowBackward self power _ =>
      s ← st !! self;
      e ← fine (py_sub power (PyInt 1));
      w ← fine (py_pow (data s) e);
      x ← fine (py_mul power w);
      y ← fine (py_mul x g);
      Some [AddGrad self y]
  | ReluBackward self _ =>
      s ← st !! self;
      x ← fine (py_mul (PyInt (if py_gt_zero (data s) then 1 else 0)) g);
      Some [AddGrad self x]
  end.

(** The events of one step of the loop of [backward], read off the store
    [st]: the call of the backward function of [u], and what it adds given
    the gradient that [u] has in [st]. *)
Definition step_events {pow : PowerOp} (st : list Value) (u : ref)
    : option (list event) :=
  n ← st !! u;
  l ← local_addends st (_backward n) (grad n);
  Some (Call u :: l).

Section ChainRule.
Context {pow : PowerOp} {order : SetOrder}.

Lemma local_addends_data (st st' : list Value) (f : closure) (g : pynum) :
  (∀ i, data <$> st !! i = data <$> st' !! i) →
  local_addends st f g = local_addends st' f g.
Proof.
  intros Hdata.
  assert (∀ i (k : Value → option (list event)),
            (∀ v v', data v = data v' → k v = k v') →
            st !! i ≫= k = st' !! i ≫= k) as Hbind.
  { intros i k Hk. specialize (Hdata i).
    destruct (st !! i) as [v|], (st' !! i) as [v'|]; simpl in *; try done.
    apply Hk. congruence. }
  destruct f as [| a b out | a b out | a p out | a out]; cbn [local_addends]; try done.
  - etransitivity; [apply Hbind | apply option_bind_ext; [|done]].
    + intros v v' Hv. apply option_bind_ext; [|done]. intros w. by rewrite Hv.
    + intros v. apply Hbind. intros w w' Hw. by rewrite Hw.
  - apply Hbind. intros v v' Hv. by rewrite Hv.
  - apply Hbind. intros v v' Hv. by rewrite Hv.
Qed.

Lemma iadd_grad_ok (r : ref) (rhs : M pynum) (c c1 : config) :
  readonly rhs → iadd_grad r rhs c = (Ok tt, c1) →
  ∃ v t s,
    store c !! r = Some v ∧ (rhs c).1 = Ok t ∧ py_add (grad v) t = Fine s
    ∧ c1 = mkConfig (<[r := with_grad s v]> (store c)) (trace c ++ [AddGrad r t]).
Proof.
  intros Hro. rewrite (iadd_grad_run r rhs c Hro).
  destruct (store c !! r) as [v|]; [|done].
  destruct (rhs c).1 as [t|e|]; [|done..].
  destruct (py_add (grad v) t) as [s|e] eqn:Hs; [|done].
  intros [= <-]. by exists v, t, s.
Qed.

(** A backward function that returns has added what [local_addends] says,
    for the gradient that its object has at that time. *)
Lemma call_exact (u : ref) (n : Value) (c c1 : config) :
  closure_ok u (_backward n) → store c !! u = Some n →
  call (_backward n) c = (Ok tt, c1) →
  ∃ l, local_addends (store c) (_backward n) (grad n) = Some l
       ∧ trace c1 = trace c ++ l.
Proof.
  intros Hok Hn Hcall.
  destruct (_backward n) as [| a b out | a b out | a p out | a out];
    cbn [call local_addends closure_ok] in *.
  - injection Hcall as <-. exists []. by rewrite app_nil_r.
  - destruct Hok as (-> & Ha & Hb). rewrite bind_run in Hcall.
    destruct (iadd_grad a _ c) as [[[]|e|] c0] eqn:H1; [|done..].
    apply iadd_grad_ok in H1 as (va & t1 & s1 & Hva & Ht1 & _ & ->);
      [|auto with readonly].
    apply iadd_grad_ok in Hcall as (vb & t2 & s2 & Hvb & Ht2 & _ & ->);
      [|auto with readonly].
    rewrite bind_run in Ht1. unfold load in Ht1. rewrite Hn in Ht1.
    rewrite bind_run in Ht2. unfold load in Ht2. cbn [store] in Ht2.
    rewrite list_lookup_insert_ne, Hn in Ht2 by lia.
    destruct (py_mul (PyInt 1) (grad n)) as [x|e]; [|done].
    injection Ht1 as <-. injection Ht2 as <-.
    eexists. split; [reflexivity|]. cbn [trace]. by rewrite <- app_assoc.
  - destruct Hok as (-> & Ha & Hb). rewrite bind_run in Hcall.
    destruct (iadd_grad a _ c) as [[[]|e|] c0] eqn:H1; [|done..].
    apply iadd_grad_ok in H1 as (va & t1 & s1 & Hva & Ht1 & _ & ->);
      [|auto with readonly].
    apply iadd_grad_ok in Hcall as (vb & t2 & s2 & Hvb & Ht2 & _ & ->);
      [|auto with readonly].
    rewrite bind_run in Ht1. unfold load at 1 in Ht1.
    destruct (store c !! b) as [vb0|] eqn:Hvb0; [|done].
    rewrite bind_run in Ht1. unfold load in Ht1. rewrite Hn in Ht1.
    rewrite bind_run in Ht2. unfold load at 1 in Ht2. cbn [store] in Ht2.
    rewrite list_lookup_insert_eq in Ht2 by (by eapply lookup_lt_Some).
    rewrite bind_run in Ht2. unfold load in Ht2. cbn [store] in Ht2.
    rewrite list_lookup_insert_ne, Hn in Ht2 by lia.
    cbn [with_grad data] in Ht2. rewrite Hva. cbn [mbind option_bind].
    destruct (py_mul (data vb0) (grad n)) as [x|e]; [|done].
    destruct (py_mul (data va) (grad n)) as [y|e]; [|done].
    injection Ht1 as <-. injection Ht2 as <-.
    eexists. split; [reflexivity|]. cbn [trace]. by rewrite <- app_assoc.
  - destruct Hok as (-> & Ha).
    apply iadd_grad_ok in Hcall as (va & t & s & Hva & Ht & _ & ->);
      [|auto 10 with readonly].
    rewrite bind_run in Ht. unfold load at 1 in Ht. rewrite Hva in Ht.
    rewrite Hva. cbn [mbind option_bind].
    rewrite bind_run in Ht. destruct (py_sub p (PyInt 1)) as [e|err]; [|done].
    cbn [num mret M_ret] in Ht. rewrite bind_run in Ht. cbn [fine mbind option_bind].
    destruct (py_pow (data va) e) as [w|err]; [|done].
    cbn [num mret M_ret] in Ht. rewrite bind_run in Ht. cbn [fine mbind option_bind].
    destruct (py_mul p w) as [x|err]; [|done].
    cbn [num mret M_ret] in Ht. rewrite bind_run in Ht. unfold load in Ht.
    cbn [fine mbind option_bind].
    rewrite Hn in Ht. destruct (py_mul x (grad n)) as [y|err]; [|done].
    injection Ht as <-. eexists. split; [reflexivity | done].
  - destruct Hok as (-> & Ha).
    apply iadd_grad_ok in Hcall as (va & t & s & Hva & Ht & _ & ->);
      [|auto with readonly].
    rewrite bind_run in Ht. unfold load at 1 in Ht. rewrite Hva in Ht.
    rewrite Hva. cbn [mbind option_bind].
    rewrite bind_run in Ht. unfold load in Ht. rewrite Hn in Ht.
    destruct (py_mul _ (grad n)) as [x|err]; [|done].
    injection Ht as <-. eexists. split; [reflexivity | done].
Qed.

Lemma grads_only_data (T : ref → Prop) (c c' : config) :
  grads_only T c c' → ∀ i, data <$> store c !! i = data <$> store c' !! i.
Proof.
  intros [Hlen Hsame] i. destruct (store c !! i) as [n|] eqn:Hn.
  - destruct (Hsame i n Hn) as (n' & -> & (Hd & _) & _). simpl. by rewrite Hd.
  - apply lookup_ge_None in Hn. rewrite <- Hlen in Hn.
    apply lookup_ge_None in Hn. by rewrite Hn.
Qed.

(** The loop of [backward] over [vs], when it returns: its events are the
    steps of the objects of [vs], each read off the final store. *)
Lemma for_each_exact (c0 : config) (vs : list ref) :
  wf (store c0) → targets_follow (store c0) vs →
  ∀ c c',
    grads_only (λ _, True) c0 c →
    for_each vs (λ v, n ← load v; emit (Call v);; call (_backward n)) c = (Ok tt, c') →
    ∃ segs, mapM (step_events (store c')) vs = Some segs
            ∧ trace c' = trace c ++ concat segs.
Proof.
  intros Hwf. induction vs as [|u vs IH]; intros Hord c c' Hc Hrun.
  { injection Hrun as <-. exists []. split; [done|]. simpl. by rewrite app_nil_r. }
  cbn [for_each] in Hrun. rewrite bind_run, bind_run in Hrun. unfold load at 1 in Hrun.
  destruct (store c !! u) as [n|] eqn:Hn; [|done].
  rewrite bind_run in Hrun. cbn [emit] in Hrun.
  set (c1 := mkConfig (store c) (trace c ++ [Call u])) in *.
  destruct (call (_backward n) c1) as [[[]|e|] c2] eqn:Hcall; [|done..].
  assert (u < length (store c0)) as Hu
    by (destruct Hc as [Hlen _]; apply lookup_lt_Some in Hn; lia).
  destruct (lookup_lt_is_Some_2 (store c0) u Hu) as [n0 Hn0].
  assert (_backward n = _backward n0) as Hb.
  { destruct Hc as [_ Hsame]. destruct (Hsame u n0 Hn0) as (n' & Hn' & (_ & Hb & _) & _).
    by assert (n' = n) as -> by congruence. }
  destruct (call_exact u n c1 c2) as (l & Hl & Htr); [| done | done |].
  { rewrite Hb. by apply (Hwf u n0 Hn0). }
  assert (grads_only (λ t, t ≠ u) c1 c2) as Hstep.
  { pose proof (call_frame (λ t, t ≠ u) (_backward n) c1) as Hf.
    rewrite Hcall in Hf. apply Hf. intros t Ht ->.
    rewrite Hb in Ht.
    destruct (Hord [] u vs u eq_refl) as [_ Hne]; [|done].
    unfold targets_at. by rewrite Hn0. }
  assert (grads_only (λ _, True) c0 c2) as Hc2.
  { eapply grads_only_trans; [exact Hc|].
    eapply grads_only_trans; [apply (grads_only_trace _ c (trace c ++ [Call u]))|].
    eapply grads_only_mono; [|exact Hstep]. done. }
  destruct (IH (targets_follow_tail _ _ _ Hord) c2 c' Hc2 Hrun) as (segs & Hsegs & Htr').
  assert (grads_only (λ t, t ≠ u) c2 c') as Hrest.
  { pose proof (for_each_frame (λ t, t ≠ u) vs c2) as Hf.
    rewrite Hrun in Hf. apply Hf. intros v nv t Hv Hnv Ht ->.
    apply list_elem_of_split in Hv as (l1 & l2 & ->).
    assert (v < length (store c0)) as Hvlt
      by (destruct Hc2 as [Hlen _]; apply lookup_lt_Some in Hnv; lia).
    destruct (lookup_lt_is_Some_2 (store c0) v Hvlt) as [nv0 Hnv0].
    destruct Hc2 as [_ Hsame].
    destruct (Hsame v nv0 Hnv0) as (n' & Hn' & (_ & Hbv & _) & _).
    assert (n' = nv) as -> by congruence.
    destruct (Hord (u :: l1) v l2 u eq_refl) as [Hnot _].
    - unfold targets_at. rewrite Hnv0. by rewrite <- Hbv.
    - apply Hnot. by left. }
  pose proof (grads_only_trans _ _ _ _ Hstep Hrest) as Hu'.
  assert (store c' !! u = Some n) as Hn'.
  { destruct Hu' as [_ Hsame]. destruct (Hsame u n Hn) as (n' & -> & _ & He).
    f_equal. apply He. by intros H. }
  exists ((Call u :: l) :: segs). split.
  - cbn [mapM]. assert (step_events (store c') u = Some (Call u :: l)) as ->.
    { unfold step_events. rewrite Hn'. cbn [mbind option_bind].
      rewrite <- (local_addends_data (store c1) (store c'))
        by (by apply (grads_only_data _ _ _ Hu')).
      by rewrite Hl. }
    by rewrite Hsegs.
  - rewrite Htr', Htr. cbn [c1 trace concat]. by rewrite <- !app_assoc.
Qed.

(** The steps of a pass that returns, each read off the final store. *)
Lemma backward_steps (c c' : config) (root : ref) (topo : list ref) :
  shaped (store c) → root < length (store c) →
  backward root c = (Ok topo, c') →
  ∃ segs,
    Forall2 (λ u seg, step_events (store c') u = Some seg) (reverse topo) segs
    ∧ trace c' = trace c ++ SetGrad root (PyInt 1) :: concat segs.
Proof.
  intros Hs Hroot Hback. pose proof (shaped_wf _ Hs) as Hwf.
  destruct (build_topo_root (store c) root Hwf Hroot)
    as (V & topo' & before & Hrun & _ & Hnd & Htopo & _ & _).
  destruct (lookup_lt_is_Some_2 (store c) root Hroot) as [vroot Hvroot].
  unfold backward in Hback. rewrite Hrun in Hback.
  rewrite bind_run in Hback. unfold assign_grad in Hback. rewrite bind_run in Hback.
  unfold update in Hback. rewrite Hvroot in Hback. cbn [emit store trace] in Hback.
  set (c1 := mkConfig (<[root := with_grad (PyInt 1) vroot]> (store c))
               (trace c ++ [SetGrad root (PyInt 1)])) in *.
  rewrite bind_run in Hback.
  destruct (for_each (reverse topo') _ c1) as [[[]|e|] c2] eqn:Hloop; [|done..].
  injection Hback as <- <-.
  destruct (for_each_exact c (reverse topo') Hwf
              (reverse_topo_targets_follow _ _ Hs Hnd Htopo) c1 c2)
    as (segs & Hsegs & Htr); [by apply grads_only_insert | exact Hloop |].
  exists segs. split; [by apply mapM_Some|]. rewrite Htr. cbn [c1 trace].
  by rewrite <- app_assoc.
Qed.

(** X8. The chain rule as [backward] applies it. When a pass on a store
    built by the operations returns, its events after the seed are, for each
    object of the reversed order in turn, the call of its backward function
    followed by one addition for each of its inputs: the local derivative of
    the operation times the gradient of the object, and that gradient is the
    final one, as it stands in the store when the pass has ended. *)
Theorem backward_applies_the_chain_rule (c c' : config) (root : ref)
    (topo : list ref) :
  shaped (store c) → root < length (store c) →
  backward root c = (Ok topo, c') →
  ∃ segs,
    mapM (step_events (store c')) (reverse topo) = Some segs
    ∧ trace c' = trace c ++ SetGrad root (PyInt 1) :: concat segs.
Proof.
  intros Hs Hroot Hback.
  destruct (backward_steps c c' root topo Hs Hroot Hback) as (segs & Hsegs & Htr).
  exists segs. split; [|exact Htr]. by apply mapM_Some.
Qed.

End ChainRule.

(** ** The gradient that a pass leaves on an object *)

Section Gradients.
Context {pow : PowerOp} {order : SetOrder}.

Lemma contributions_concat_nil (v : ref) (segs : list (list event)) :
  Forall (λ seg, contributions v seg = []) segs → contributions v (concat segs) = [].
Proof.
  induction 1 as [|seg segs Hseg _ IH]; [done|].
  cbn [concat]. by rewrite contributions_app, Hseg, IH.
Qed.

Lemma local_addends_targets (st : list Value) (f : closure) (g : pynum)
    (l : list event) :
  local_addends st f g = Some l → adds_to (targets f) l.
Proof.
  intros H.
  destruct f as [| a b out | a b out | a p out | a out]; cbn [local_addends targets] in *;
    repeat (apply bind_Some in H as (? & ? & H)); injection H as <-;
    repeat constructor.
Qed.

Lemma step_events_elsewhere (st : list Value) (u v : ref) (seg : list event) :
  step_events st u = Some seg → v ∉ targets_at st u → contributions v seg = [].
Proof.
  unfold step_events, targets_at. intros H Hv.
  apply bind_Some in H as (n & Hn & H). apply bind_Some in H as (l & Hl & H).
  injection H as <-. rewrite Hn in Hv.
  change (Call u :: l) with ([Call u] ++ l). rewrite contributions_app.
  by rewrite (adds_to_contributions _ _ _ (local_addends_targets _ _ _ _ Hl) Hv).
Qed.

Lemma no_consumer (st : list Value) (v : ref) (vs : list ref)
    (segs : list (list event)) :
  Forall2 (λ u seg, step_events st u = Some seg) vs segs →
  (∀ u, u ∈ vs → v ∉ targets_at st u) →
  contributions v (concat segs) = [].
Proof.
  induction 1 as [|u seg vs segs Hseg _ IH]; intros Hv; [done|].
  cbn [concat]. rewrite contributions_app, IH by (intros w Hw; apply Hv; by right).
  rewrite (step_events_elsewhere st u v seg Hseg) by (apply Hv; by left). done.
Qed.

(** When one object only of [vs] has [v] among its inputs, what the steps
    of [vs] add to the gradient of [v] is what the step of that object adds. *)
Lemma unique_consumer (st : list Value) (v u0 : ref) (vs : list ref)
    (segs : list (list event)) :
  Forall2 (λ u seg, step_events st u = Some seg) vs segs →
  NoDup vs → u0 ∈ vs →
  (∀ u, u ∈ vs → u ≠ u0 → v ∉ targets_at st u) →
  ∃ seg, step_events st u0 = Some seg
         ∧ contributions v (concat segs) = contributions v seg.
Proof.
  induction 1 as [|u seg vs segs Hseg Hrest IH]; intros Hnd Hin Hv.
  - by apply elem_of_nil in Hin.
  - apply NoDup_cons in Hnd as [Hu Hnd]. cbn [concat]. rewrite contributions_app.
    apply elem_of_cons in Hin as [-> | Hin].
    + exists seg. split; [done|].
      rewrite (no_consumer st v vs segs Hrest), app_nil_r; [done|].
      intros w Hw. apply Hv; [by right|]. by intros ->.
    + destruct IH as (seg0 & Hseg0 & Heq); [done | done | |].
      { intros w Hw Hne. apply Hv; [by right | done]. }
      exists seg0. split; [done|]. rewrite Heq.
      rewrite (step_events_elsewhere st u v seg Hseg); [done|].
      apply Hv; [by left|]. by intros ->.
Qed.

Lemma targets_at_grads_only (T : ref → Prop) (c c' : config) (u : ref) :
  grads_only T c c' → targets_at (store c') u = targets_at (store c) u.
Proof.
  intros [Hlen Hsame]. unfold targets_at.
  destruct (store c !! u) as [n|] eqn:Hn.
  - destruct (Hsame u n Hn) as (n' & -> & (_ & -> & _) & _). done.
  - apply lookup_ge_None in Hn. rewrite <- Hlen in Hn.
    by rewrite (proj2 (lookup_ge_None (store c') u) Hn).
Qed.

Lemma targets_below (st : list Value) (u t : ref) :
  wf st → t ∈ targets_at st u → t < u.
Proof.
  intros Hwf. unfold targets_at. destruct (st !! u) as [n|] eqn:Hn; [|by intros ?%elem_of_nil].
  destruct (Hwf u n Hn) as [_ Hok].
  destruct (_backward n) as [| a b out | a b out | a p out | a out];
    cbn [targets closure_ok] in *; rewrite ?elem_of_cons, ?elem_of_nil; intros H;
    destruct_or?; destruct_and?; subst; done || lia.
Qed.

(** The gradients after a pass that returns: every object is as it was but
    for its gradient, which is the old one (the seed, for the root) and then
    what the steps of the reversed order added, from the left. *)
Lemma backward_gradients (c c' : config) (root : ref) (topo : list ref) :
  shaped (store c) → root < length (store c) →
  backward root c = (Ok topo, c') →
  ∃ segs,
    Forall2 (λ u seg, step_events (store c') u = Some seg) (reverse topo) segs
    ∧ NoDup topo
    ∧ (∀ x, x ∈ topo ↔ reachable (store c) root x)
    ∧ grads_only (λ _, True) c c'
    ∧ ∀ n v0, store c !! n = Some v0 →
        ∃ v, store c' !! n = Some v
             ∧ accumulate (if decide (n = root) then PyInt 1 else grad v0)
                 (contributions n (concat segs)) = Fine (grad v).
Proof.
  intros Hs Hroot Hback. pose proof (shaped_wf _ Hs) as Hwf.
  destruct (backward_steps c c' root topo Hs Hroot Hback) as (segs & Hsegs & Htr).
  destruct (backward_run c root Hwf Hroot)
    as (topo' & before & vroot & es & o & c2 & _ & Hnd & _ & Hreach & _ & Hvroot
        & Hrun & Ho & Htr' & Hinv & _).
  rewrite Hback in Hrun. injection Hrun as <- <-.
  destruct Ho as [[= <-] | [e [=]]].
  rewrite Htr in Htr'. apply app_inv_head in Htr'. injection Htr' as <-.
  exists segs. split; [done|]. split; [done|]. split; [done|].
  assert (grads_only (λ _, True) c c') as Hg.
  { pose proof (backward_frame c root Hs) as Hf. rewrite Hback in Hf.
    eapply grads_only_mono; [|exact Hf]. done. }
  split; [done|]. intros n v0 Hn.
  destruct (decide (n = root)) as [-> | Hne].
  - destruct (pi_nodes _ _ _ _ Hinv root (with_grad (PyInt 1) vroot))
      as (v & Hv & _ & Hacc).
    { apply list_lookup_insert_eq. by eapply lookup_lt_Some. }
    by exists v.
  - destruct (pi_nodes _ _ _ _ Hinv n v0) as (v & Hv & _ & Hacc).
    { by rewrite list_lookup_insert_ne. }
    by exists v.
Qed.

(** The root keeps the seed. *)
Lemma root_gradient (c c' : config) (root : ref) (topo : list ref) :
  shaped (store c) → root < length (store c) →
  backward root c = (Ok topo, c') →
  ∃ v, store c' !! root = Some v ∧ grad v = PyInt 1.
Proof.
  intros Hs Hroot Hback. pose proof (shaped_wf _ Hs) as Hwf.
  destruct (backward_gradients c c' root topo Hs Hroot Hback)
    as (segs & Hsegs & _ & Hreach & Hg & Hgrads).
  destruct (lookup_lt_is_Some_2 (store c) root Hroot) as [vroot Hvroot].
  destruct (Hgrads root vroot Hvroot) as (v & Hv & Hacc).
  rewrite decide_True in Hacc by done.
  rewrite (no_consumer (store c') root (reverse topo) segs Hsegs) in Hacc.
  - injection Hacc as Hacc. by exists v.
  - intros u Hu Hin. rewrite (targets_at_grads_only _ _ _ _ Hg) in Hin.
    apply (targets_below _ _ _ Hwf) in Hin.
    apply elem_of_reverse, Hreach, (reachable_le _ _ _ Hwf) in Hu. lia.
Qed.

(** An object other than the root that one object only of the graph has
    among its inputs: its gradient is the old one and then what the step of
    that object adds. *)
Lemma single_use (c c' : config) (root v u0 : ref) (topo : list ref) (v0 : Value) :
  shaped (store c) → root < length (store c) →
  backward root c = (Ok topo, c') →
  store c !! v = Some v0 → v ≠ root → reachable (store c) root u0 →
  (∀ u, reachable (store c) root u → u ≠ u0 → v ∉ targets_at (store c) u) →
  ∃ v' seg,
    store c' !! v = Some v' ∧ step_events (store c') u0 = Some seg
    ∧ accumulate (grad v0) (contributions v seg) = Fine (grad v').
Proof.
  intros Hs Hroot Hback Hv Hne Hu0 Hothers.
  destruct (backward_gradients c c' root topo Hs Hroot Hback)
    as (segs & Hsegs & Hnd & Hreach & Hg & Hgrads).
  destruct (Hgrads v v0 Hv) as (v' & Hv' & Hacc).
  rewrite decide_False in Hacc by done.
  destruct (unique_consumer (store c') v u0 (reverse topo) segs Hsegs)
    as (seg & Hseg & Heq).
  - by rewrite (reverse_Permutation topo).
  - by apply elem_of_reverse, Hreach.
  - intros u Hu Hneq. rewrite (targets_at_grads_only _ _ _ _ Hg).
    apply Hothers; [|done]. by apply Hreach, elem_of_reverse.
  - exists v', seg. by rewrite <- Heq.
Qed.

(** The step of a sum and of a product. *)
Lemma step_events_add (st : list Value) (u a b : ref) (n : Value) (seg : list event) :
  st !! u = Some n → _backward n = AddBackward a b u →
  step_events st u = Some seg →
  seg = [Call u; AddGrad a (grad n); AddGrad b (grad n)].
Proof.
  intros Hn Hb. unfold step_events. rewrite Hn. cbn [mbind option_bind].
  rewrite Hb. cbn [local_addends]. rewrite py_mul_one_l. cbn [fine mbind option_bind].
  by intros [= <-].
Qed.

Lemma step_events_mul (st : list Value) (u a b : ref) (n na nb : Value)
    (seg : list event) :
  st !! u = Some n → _backward n = MulBackward a b u →
  st !! a = Some na → st !! b = Some nb →
  step_events st u = Some seg →
  ∃ x y, py_mul (data nb) (grad n) = Fine x ∧ py_mul (data na) (grad n) = Fine y
         ∧ seg = [Call u; AddGrad a x; AddGrad b y].
Proof.
  intros Hn Hb Ha Hnb. unfold step_events. rewrite Hn. cbn [mbind option_bind].
  rewrite Hb. cbn [local_addends]. rewrite Ha, Hnb. cbn [mbind option_bind].
  destruct (py_mul (data nb) (grad n)) as [x|]; [|done].
  destruct (py_mul (data na) (grad n)) as [y|]; [|done].
  cbn [fine mbind option_bind]. intros [= <-]. by exists x, y.
Qed.

End Gradients.

(** ** The graph that [draw_dot] collects *)

(** The nested function [build] of [draw_dot], on the sets [nodes] and
    [edges] it updates: an object not seen yet is added to [nodes]; then, for
    each of its operands, the edge from the operand is added and the operand
    is visited. [build] calls itself as [build_topo] does, once for each
    object on the way down a chain of operands: [room] is the number of
    nested calls that the interpreter has left, and [TooDeep] its
    [RecursionError]. *)
Fixpoint build (room : nat) (st : list Value) (v : ref)
    (acc : gset ref * gset (ref * ref)) : walk (gset ref * gset (ref * ref)) :=
  match room with
  | O => TooDeep
  | S room' =>
      let '(nodes, edges) := acc in
      if decide (v ∈ nodes) then Walked acc
      else
        match st !! v with
        | None => Dangling
        | Some node =>
            Stack.visit_all
              (λ child '(nodes', edges'),
                 build room' st child (nodes', {[(child, v)]} ∪ edges'))
              (_prev node) ({[v]} ∪ nodes, edges)
        end
  end.

(** The edges into the objects of [D]: one from each operand. *)
Definition edges_into (st : list Value) (D : list ref) : gset (ref * ref) :=
  list_to_set (D ≫= λ x, (λ c, (c, x)) <$> operands st x).

Lemma edges_into_nil (st : list Value) : edges_into st [] = ∅.
Proof. reflexivity. Qed.

Lemma edges_into_app (st : list Value) (D1 D2 : list ref) :
  edges_into st (D1 ++ D2) = edges_into st D1 ∪ edges_into st D2.
Proof. unfold edges_into. by rewrite bind_app, list_to_set_app_L. Qed.

Lemma elem_of_edges_into (st : list Value) (D : list ref) (c v : ref) :
  (c, v) ∈ edges_into st D ↔ v ∈ D ∧ c ∈ operands st v.
Proof.
  unfold edges_into. rewrite elem_of_list_to_set, list_elem_of_bind. split.
  - intros (x & Hc & Hx). apply list_elem_of_fmap in Hc as (c' & [= -> ->] & Hc').
    done.
  - intros [Hv Hc]. exists v. split; [|done]. apply list_elem_of_fmap. by exists c.
Qed.

(** [build] visits what [build_topo] visits, in the same order and with the
    same nesting of calls: it ends as [build_topo] does, with the same set of
    objects seen, and has added the edges into the objects that [build_topo]
    has appended. *)
Lemma build_follows_build_topo (st : list Value) (room : nat) :
  ∀ v V T E,
    match Stack.build_topo room st v (V, T) with
    | Walked (V', T') =>
        ∃ D, T' = T ++ D ∧ V' = V ∪ list_to_set D
             ∧ build room st v (V, E) = Walked (V', E ∪ edges_into st D)
    | TooDeep => build room st v (V, E) = TooDeep
    | Dangling => build room st v (V, E) = Dangling
    end.
Proof.
  induction room as [|room IH]; intros v V T E; [done|].
  rewrite stack_build_topo_S. cbn [build]. case_decide as HvV.
  { exists []. split; [by rewrite app_nil_r|].
    split; [simpl; by rewrite (right_id_L ∅ (∪))|].
    by rewrite edges_into_nil, (right_id_L ∅ (∪)). }
  destruct (st !! v) as [node|] eqn:Hnode; [|done].
  assert (∀ cs V0 T0 E0,
            match Stack.visit_all (Stack.build_topo room st) cs (V0, T0) with
            | Walked (V', T') =>
                ∃ D, T' = T0 ++ D ∧ V' = V0 ∪ list_to_set D
                     ∧ Stack.visit_all
                         (λ child '(nodes', edges'),
                            build room st child (nodes', {[(child, v)]} ∪ edges'))
                         cs (V0, E0)
                       = Walked (V', E0 ∪ list_to_set ((λ c, (c, v)) <$> cs)
                                      ∪ edges_into st D)
            | TooDeep =>
                Stack.visit_all
                  (λ child '(nodes', edges'),
                     build room st child (nodes', {[(child, v)]} ∪ edges'))
                  cs (V0, E0) = TooDeep
            | Dangling =>
                Stack.visit_all
                  (λ child '(nodes', edges'),
                     build room st child (nodes', {[(child, v)]} ∪ edges'))
                  cs (V0, E0) = Dangling
            end) as Hloop.
  { induction cs as [|c cs IHcs]; intros V0 T0 E0.
    - exists []. split; [by rewrite app_nil_r|].
      split; [simpl; by rewrite (right_id_L ∅ (∪))|].
      simpl. by rewrite edges_into_nil, !(right_id_L ∅ (∪)).
    - cbn [Stack.visit_all].
      specialize (IH c V0 T0 ({[(c, v)]} ∪ E0)).
      destruct (Stack.build_topo room st c (V0, T0)) as [[V1 T1]| |];
        [| by rewrite IH..].
      destruct IH as (D1 & -> & -> & ->).
      specialize (IHcs (V0 ∪ list_to_set D1) (T0 ++ D1)
                    ({[(c, v)]} ∪ E0 ∪ edges_into st D1)).
      destruct (Stack.visit_all (Stack.build_topo room st) cs _) as [[V2 T2]| |];
        [| done..].
      destruct IHcs as (D2 & -> & -> & ->).
      exists (D1 ++ D2). split; [by rewrite app_assoc|].
      split; [by rewrite list_to_set_app_L, (assoc_L (∪))|].
      f_equal. f_equal. rewrite edges_into_app, fmap_cons.
      apply set_eq. intros p.
      rewrite list_to_set_cons, !elem_of_union. tauto. }
  specialize (Hloop (_prev node) ({[v]} ∪ V) T E).
  destruct (Stack.visit_all (Stack.build_topo room st) (_prev node) _)
    as [[V1 T1]| |]; [| done..].
  destruct Hloop as (D1 & -> & -> & ->).
  exists (D1 ++ [v]). split; [by rewrite app_assoc|]. split.
  { rewrite list_to_set_app_L. simpl. apply set_eq. intros x.
    rewrite !elem_of_union, elem_of_singleton, elem_of_empty. tauto. }
  f_equal. f_equal. rewrite edges_into_app. apply set_eq. intros [a b].
  rewrite !elem_of_union, !elem_of_edges_into, elem_of_list_to_set,
    list_elem_of_fmap, list_elem_of_singleton.
  unfold operands at 2. split.
  - intros [[HE | (a' & [= -> ->] & Ha')] | HD]; [tauto | | tauto].
    right. right. split; [done|]. unfold operands. by rewrite Hnode.
  - intros [HE | [HD | [-> Ha]]]; [tauto | tauto |].
    left. right. exists a. split; [done|]. unfold operands in Ha. by rewrite Hnode in Ha.
Qed.


(** * The neural-network library ([micrograd/nn.py])

    Neurons, layers and multi-layer perceptrons over [Value] objects. The
    attributes of these objects ([w], [b], [nonlin], [neurons], [layers]) are
    written once, by [__init__]: an object is the record of its attributes. *)

(** [random.uniform(-1, 1)] is Python's library, not this repository's:
    [uniform k] is the float that the call number [k] of a run returns, and
    the classes are verified for every such sequence. The state of the
    generator is the number of calls made so far. *)
Class RandomSource : Type := uniform : nat → float.

(** What a neuron is called on and what a layer hands to the next one: a
    list (or tuple) of objects, or a single [Value], which cannot be iterated. *)
Inductive activation : Type :=
  | Many (xs : list pyobj)
  | One (r : ref).

(** A list comprehension [[body for i in items]] whose body steps the
    random generator. *)
Fixpoint comprehension {I A : Type} (items : list I)
    (body : I → nat → M (A * nat)) (k : nat) : M (list A * nat) :=
  match items with
  | [] => mret ([], k)
  | i :: rest =>
      r ← body i k;
      rs ← comprehension rest body r.2;
      mret (r.1 :: rs.1, rs.2)
  end.

(** The loop [for i in items: x = body(i, x)]. *)
Fixpoint for_fold {I S : Type} (items : list I) (body : I → S → M S) (x : S) : M S :=
  match items with
  | [] => mret x
  | i :: rest => y ← body i x; for_fold rest body y
  end.

(** The builtin [sum(items, start)] on a generator of [Value] objects: each
    item is computed when the loop asks for it, then added to the total with
    [+], the [__add__] of the total. *)
Definition py_sum {order : SetOrder} (items : list (M ref)) (start : ref) : M ref :=
  for_fold items (λ item total, i ← item; __add__ total (ObjValue i)) start.

(** The base class [Module]: what has a method [parameters]. *)
Class Module (T : Type) : Type := parameters : T → list ref.

(** [Module.zero_grad]. *)
Definition zero_grad {T : Type} `{Module T} (self : T) : M unit :=
  for_each (parameters self) (λ p, assign_grad p (PyInt 0)).

(** [Module.parameters], for an object of the base class itself. *)
#[global] Instance base_parameters : Module unit := λ _, [].

Module Neuron.

Record t : Type := mk {
  w : list ref;
  b : ref;
  nonlin : bool
}.

Section Methods.
Context {rnd : RandomSource} {order : SetOrder}.

(** [Neuron(nin, nonlin)], with [k] calls of the generator made before. *)
Definition __init__ (nin : Z) (nonlin : bool) (k : nat) : M (t * nat) :=
  ws ← comprehension (seq 0 (Z.to_nat nin))
          (λ _ k, v ← __init__ (PyFloat (uniform k)) "" [] OpNone; mret (v, S k)) k;
  b ← __init__ (PyInt 0) "" [] OpNone;
  mret (mk ws.1 b nonlin, ws.2).

Definition __call__ (self : t) (x : activation) : M ref :=
  match x with
  | One _ => raise TypeError
  | Many xs =>
      act ← py_sum ((λ '(wi, xi), __mul__ wi xi) <$> zip (w self) xs) (b self);
      if nonlin self then relu act else mret act
  end.

Definition parameters (self : t) : list ref := w self ++ [b self].

End Methods.
End Neuron.

#[global] Instance Neuron_parameters : Module Neuron.t := Neuron.parameters.

Module Layer.

Record t : Type := mk {
  neurons : list Neuron.t
}.

Section Methods.
Context {rnd : RandomSource} {order : SetOrder}.

(** [Layer(nin, nout, **kwargs)]: [kwargs] holds the keyword [nonlin] or
    nothing, and then [Neuron] takes its default, [True]. *)
Definition __init__ (nin nout : Z) (kwargs : option bool) (k : nat) : M (t * nat) :=
  ns ← comprehension (seq 0 (Z.to_nat nout))
          (λ _, Neuron.__init__ nin (default true kwargs)) k;
  mret (mk ns.1, ns.2).

Definition __call__ (self : t) (x : activation) : M activation :=
  out ← mapM (λ n, Neuron.__call__ n x) (neurons self);
  mret (match out with
        | [r] => One r
        | _ => Many (ObjValue <$> out)
        end).

Definition parameters (self : t) : list ref :=
  n ← neurons self; Neuron.parameters n.

End Methods.
End Layer.

#[global] Instance Layer_parameters : Module Layer.t := Layer.parameters.

Module MLP.

Record t : Type := mk {
  layers : list Layer.t
}.

Section Methods.
Context {rnd : RandomSource} {order : SetOrder}.

(** [MLP(nin, nouts)]. The indices [i] and [i+1] are within [sz], which is
    one longer than [nouts]. *)
Definition __init__ (nin : Z) (nouts : list Z) (k : nat) : M (t * nat) :=
  let sz := [nin] ++ nouts in
  ls ← comprehension (seq 0 (length nouts))
          (λ i k,
             match sz !! i, sz !! (i + 1) with
             | Some a, Some b =>
                 Layer.__init__ a b
                   (Some (bool_decide (Z.of_nat i ≠ Z.of_nat (length nouts) - 1)%Z)) k
             | _, _ => λ c, (Undefined, c)
             end) k;
  mret (mk ls.1, ls.2).

Definition __call__ (self : t) (x : activation) : M activation :=
  for_fold (layers self) Layer.__call__ x.

Definition parameters (self : t) : list ref :=
  layer ← layers self; Layer.parameters layer.

End Methods.
End MLP.

#[global] Instance MLP_parameters : Module MLP.t := MLP.parameters.

(** A sample generator, for running the classes: 0.5, -0.25, 0.125, ... *)
Definition sample_draws : RandomSource := λ k,
  PrimFloat.div (if Nat.even k then 0.5 else (-0.5))%float (float_power 2 k).

(** ** Construction *)

(** The object that [Value(d)] builds. *)
Definition leaf (d : pynum) : Value :=
  mkValue d (PyFloat 0) NoBackward "" [] OpNone.

Lemma init_leaf {order : SetOrder} (d : pynum) (c : config) :
  __init__ d "" [] OpNone c = (Ok (length (store c)), push c (leaf d)).
Proof. rewrite init_run. unfold new_object. by rewrite set_of_nil. Qed.

(** A float, or the int [0]: what the constructors write ([0] for a bias) and
    what [max(0, x)] adds to floats. Arithmetic on such numbers cannot fail. *)
Definition tame (d : pynum) : bool :=
  match d with
  | PyInt z => bool_decide (z = 0%Z)
  | PyFloat _ => true
  end.

(** [c'] is [c] and then the new objects [new], all leaves that hold a float
    or the int [0], and [ps] are the references to them, in the order they
    were built. *)
Definition fresh_leaves (c c' : config) (ps : list ref) (new : list Value) : Prop :=
  c' = mkConfig (store c ++ new) (trace c)
  ∧ ps = seq (length (store c)) (length new)
  ∧ Forall (λ v, ∃ d, v = leaf d ∧ tame d = true) new.

Lemma fresh_leaves_nil (c : config) : fresh_leaves c c [] [].
Proof.
  split_and!; [|done|done]. destruct c. simpl. by rewrite app_nil_r.
Qed.

Lemma fresh_leaves_app (c1 c2 c3 : config) (ps1 ps2 : list ref) (new1 new2 : list Value) :
  fresh_leaves c1 c2 ps1 new1 → fresh_leaves c2 c3 ps2 new2 →
  fresh_leaves c1 c3 (ps1 ++ ps2) (new1 ++ new2).
Proof.
  intros (-> & -> & H1) (-> & -> & H2). split_and!.
  - simpl. by rewrite app_assoc.
  - simpl. rewrite !length_app. by rewrite seq_app.
  - by apply Forall_app.
Qed.

Lemma fresh_leaves_push (c : config) (d : pynum) :
  tame d = true →
  fresh_leaves c (push c (leaf d)) [length (store c)] [leaf d].
Proof.
  intros Hd. split_and!; [done | done |]. constructor; [by exists d | constructor].
Qed.

Lemma fresh_leaves_extends (c c' : config) (ps : list ref) (new : list Value) :
  fresh_leaves c c' ps new → extends c c'.
Proof. intros (-> & _). by exists new. Qed.

Section Construction.
Context {rnd : RandomSource} {order : SetOrder}.

(** The weights of a neuron: [n] new leaves that hold the next [n] numbers
    of the generator. *)
Lemma weights_run (n i k : nat) (c : config) :
  ∃ c' new,
    comprehension (seq i n)
      (λ _ k, v ← __init__ (PyFloat (uniform k)) "" [] OpNone; mret (v, S k)) k c
    = (Ok (seq (length (store c)) n, k + n), c')
    ∧ fresh_leaves c c' (seq (length (store c)) n) new
    ∧ length new = n
    ∧ ∀ j, j < n → new !! j = Some (leaf (PyFloat (uniform (k + j)))).
Proof.
  revert i k c. induction n as [|n IH]; intros i k c.
  - exists c, []. rewrite Nat.add_0_r. split_and!; [done | apply fresh_leaves_nil | done |].
    intros j Hj. lia.
  - cbn [seq comprehension]. rewrite bind_run, bind_run, init_leaf.
    cbn [mret M_ret fst snd].
    destruct (IH (S i) (S k) (push c (leaf (PyFloat (uniform k)))))
      as (c' & new & Hrun & Hfresh & Hlen & Hnew).
    rewrite bind_run, Hrun. cbn [mret M_ret fst snd].
    rewrite push_length in *.
    exists c', (leaf (PyFloat (uniform k)) :: new). split_and!.
    + unfold mret, M_ret. do 3 f_equal. lia.
    + apply (fresh_leaves_app c (push c (leaf (PyFloat (uniform k)))) c'
               [length (store c)] (seq (S (length (store c))) n)
               [leaf (PyFloat (uniform k))] new);
        [by apply fresh_leaves_push | done].
    + simpl. by rewrite Hlen.
    + intros [|j] Hj; simpl; [by rewrite Nat.add_0_r|].
      rewrite Hnew by lia. do 4 f_equal. lia.
Qed.

Lemma neuron_init_run (nin : Z) (nonlin : bool) (k : nat) (c : config) :
  ∃ c' new,
    Neuron.__init__ nin nonlin k c
    = (Ok (Neuron.mk (seq (length (store c)) (Z.to_nat nin))
             (length (store c) + Z.to_nat nin) nonlin,
           k + Z.to_nat nin), c')
    ∧ fresh_leaves c c' (seq (length (store c)) (Z.to_nat nin + 1)) new
    ∧ length new = Z.to_nat nin + 1
    ∧ (∀ j, j < Z.to_nat nin → new !! j = Some (leaf (PyFloat (uniform (k + j)))))
    ∧ new !! Z.to_nat nin = Some (leaf (PyInt 0)).
Proof.
  unfold Neuron.__init__. rewrite bind_run.
  destruct (weights_run (Z.to_nat nin) 0 k c) as (c1 & new & -> & Hfresh & Hlen & Hnew).
  cbn [fst snd]. rewrite bind_run, init_leaf. cbn [mret M_ret].
  assert (length (store c1) = length (store c) + Z.to_nat nin) as Hl1.
  { destruct Hfresh as (-> & _). simpl. rewrite length_app. lia. }
  rewrite Hl1.
  exists (push c1 (leaf (PyInt 0))), (new ++ [leaf (PyInt 0)]). split_and!.
  - reflexivity.
  - rewrite seq_app. simpl.
    apply (fresh_leaves_app c c1 _ _ [_] new [_]); [done|].
    rewrite <- Hl1. by apply fresh_leaves_push.
  - rewrite length_app, Hlen. simpl. lia.
  - intros j Hj. rewrite lookup_app_l by lia. by apply Hnew.
  - rewrite lookup_app_r by lia. by rewrite Hlen, Nat.sub_diag.
Qed.

(** A comprehension over constructors: each builds new leaves, its
    parameters, and an object that [Q] describes. *)
Lemma comprehension_fresh {I A : Type} (P : A → list ref) (Q : I → A → Prop)
    (body : I → nat → M (A * nat)) (items : list I) :
  (∀ i k c, i ∈ items →
     ∃ a k' c' new, body i k c = (Ok (a, k'), c')
                    ∧ fresh_leaves c c' (P a) new ∧ Q i a) →
  ∀ k c, ∃ l k' c' new,
    comprehension items body k c = (Ok (l, k'), c')
    ∧ fresh_leaves c c' (l ≫= P) new ∧ Forall2 Q items l.
Proof.
  induction items as [|i items IH]; intros Hbody k c.
  - exists [], k, c, []. split_and!; [done | apply fresh_leaves_nil | constructor].
  - destruct (Hbody i k c) as (a & k1 & c1 & new1 & Hrun1 & Hf1 & Hq1); [by left|].
    destruct (IH (λ i' k' c' Hi, Hbody i' k' c' (list_elem_of_further _ _ _ Hi)) k1 c1)
      as (l & k2 & c2 & new2 & Hrun2 & Hf2 & Hq2).
    exists (a :: l), k2, c2, (new1 ++ new2). split_and!.
    + cbn [comprehension]. rewrite bind_run, Hrun1. cbn [fst snd].
      by rewrite bind_run, Hrun2.
    + by apply (fresh_leaves_app c c1 c2).
    + by constructor.
Qed.

Lemma length_bind_const {A : Type} (P : A → list ref) (m : nat) (l : list A) :
  Forall (λ a, length (P a) = m) l → length (l ≫= P) = length l * m.
Proof.
  induction 1 as [|a l Ha _ IH]; [done|].
  change ((a :: l) ≫= P) with (P a ++ (l ≫= P)).
  rewrite length_app, Ha, IH. simpl. lia.
Qed.

Lemma layer_init_run (nin nout : Z) (kwargs : option bool) (k : nat) (c : config) :
  ∃ l k' c' new,
    Layer.__init__ nin nout kwargs k c = (Ok (l, k'), c')
    ∧ fresh_leaves c c' (Layer.parameters l) new
    ∧ length (Layer.neurons l) = Z.to_nat nout
    ∧ Forall (λ n, length (Neuron.w n) = Z.to_nat nin
                   ∧ Neuron.nonlin n = default true kwargs) (Layer.neurons l)
    ∧ length new = Z.to_nat nout * (Z.to_nat nin + 1).
Proof.
  unfold Layer.__init__. rewrite bind_run.
  destruct (comprehension_fresh Neuron.parameters
              (λ (_ : nat) n, length (Neuron.w n) = Z.to_nat nin
                              ∧ Neuron.nonlin n = default true kwargs)
              (λ _, Neuron.__init__ nin (default true kwargs))
              (seq 0 (Z.to_nat nout))) with (k := k) (c := c)
    as (l & k' & c' & new & -> & Hfresh & Hq).
  { intros i k0 c0 _.
    destruct (neuron_init_run nin (default true kwargs) k0 c0)
      as (c1 & new & Hrun & Hf & _).
    eexists _, _, c1, new. split; [exact Hrun|]. split.
    - unfold Neuron.parameters. cbn [Neuron.w Neuron.b].
      rewrite seq_app in Hf. exact Hf.
    - cbn [Neuron.w Neuron.nonlin]. by rewrite length_seq. }
  assert (Forall (λ n, length (Neuron.w n) = Z.to_nat nin
                       ∧ Neuron.nonlin n = default true kwargs) l) as Hall.
  { clear -Hq. induction Hq; by constructor. }
  assert (length l = Z.to_nat nout) as Hlen.
  { apply Forall2_length in Hq. by rewrite length_seq in Hq. }
  exists (Layer.mk l), k', c', new. split_and!; try done.
  destruct Hfresh as (_ & Hps & _).
  apply (f_equal length) in Hps. rewrite length_seq in Hps. rewrite <- Hps, <- Hlen.
  apply length_bind_const. eapply Forall_impl; [exact Hall|].
  intros n [Hw _]. unfold Neuron.parameters. rewrite length_app, Hw. simpl. lia.
Qed.

(** The number of parameters of a perceptron of sizes [sz]: for each layer,
    one weight for each input and one bias, for each neuron. *)
Fixpoint count_parameters (sz : list Z) : nat :=
  match sz with
  | [] => 0
  | a :: rest =>
      match rest with
      | [] => 0
      | b :: _ => Z.to_nat b * (Z.to_nat a + 1) + count_parameters rest
      end
  end.

(** What [MLP.__init__] makes of layer [i]. *)
Definition layer_shape (nin : Z) (nouts : list Z) (i : nat) (l : Layer.t) : Prop :=
  ∃ a b,
    ([nin] ++ nouts) !! i = Some a ∧ nouts !! i = Some b
    ∧ length (Layer.neurons l) = Z.to_nat b
    ∧ (∀ n, n ∈ Layer.neurons l →
         length (Neuron.w n) = Z.to_nat a
         ∧ Neuron.nonlin n = bool_decide (i + 1 ≠ length nouts))
    ∧ length (Layer.parameters l) = Z.to_nat b * (Z.to_nat a + 1).

Lemma count_layers (nin : Z) (nouts : list Z) (n i : nat) (ls : list Layer.t) :
  i + n = length nouts →
  Forall2 (layer_shape nin nouts) (seq i n) ls →
  length (ls ≫= Layer.parameters) = count_parameters (drop i ([nin] ++ nouts)).
Proof.
  revert i ls. induction n as [|n IH]; intros i ls Hi Hls.
  - apply Forall2_nil_inv_l in Hls as ->. simpl.
    destruct (drop i (nin :: nouts)) as [|a [|b rest]] eqn:Hd; [done | done |].
    apply (f_equal length) in Hd. rewrite length_drop in Hd. simpl in Hd. lia.
  - cbn [seq] in Hls. apply Forall2_cons_inv_l in Hls as (l & ls' & Hl & Hls' & ->).
    change ((l :: ls') ≫= Layer.parameters)
      with (Layer.parameters l ++ (ls' ≫= Layer.parameters)).
    rewrite length_app, (IH (S i) ls') by (done || lia).
    destruct Hl as (a & b & Ha & Hb & _ & _ & Hlen).
    rewrite (drop_S _ a i Ha).
    assert (([nin] ++ nouts) !! S i = Some b) as Hb' by done.
    rewrite (drop_S _ b (S i) Hb'). cbn [count_parameters].
    rewrite Hlen. done.
Qed.

Lemma mlp_init_run (nin : Z) (nouts : list Z) (k : nat) (c : config) :
  ∃ m k' c' new,
    MLP.__init__ nin nouts k c = (Ok (m, k'), c')
    ∧ fresh_leaves c c' (MLP.parameters m) new
    ∧ Forall2 (layer_shape nin nouts) (seq 0 (length nouts)) (MLP.layers m)
    ∧ length new = count_parameters ([nin] ++ nouts).
Proof.
  unfold MLP.__init__. cbv zeta. rewrite bind_run.
  match goal with
  | |- context [comprehension _ ?f k c] =>
      destruct (comprehension_fresh Layer.parameters (layer_shape nin nouts) f
                  (seq 0 (length nouts))) with (k := k) (c := c)
        as (ls & k' & c' & new & -> & Hfresh & Hq)
  end.
  { intros i k0 c0 Hi. apply elem_of_seq in Hi as [_ Hi]. simpl in Hi.
    destruct (lookup_lt_is_Some_2 ([nin] ++ nouts) i) as [a Ha]; [simpl; lia|].
    destruct (lookup_lt_is_Some_2 nouts i Hi) as [b Hb].
    assert (([nin] ++ nouts) !! (i + 1) = Some b) as Hb'
      by (by rewrite Nat.add_1_r).
    rewrite Ha, Hb'.
    destruct (layer_init_run a b
                (Some (bool_decide (Z.of_nat i ≠ Z.of_nat (length nouts) - 1)%Z)) k0 c0)
      as (l & k1 & c1 & new & Hrun & Hf & Hn & Hall & Hlen).
    exists l, k1, c1, new. split; [exact Hrun|]. split; [exact Hf|].
    exists a, b. split_and!; try done.
    - intros n Hn'. rewrite Forall_forall in Hall. destruct (Hall n Hn') as [Hw Hnl].
      split; [done|]. rewrite Hnl. simpl. apply bool_decide_ext. lia.
    - destruct Hf as (_ & Hps & _). apply (f_equal length) in Hps.
      rewrite length_seq in Hps. by rewrite Hps. }
  exists (MLP.mk ls), k', c', new. split_and!; try done.
  destruct Hfresh as (_ & Hps & _). apply (f_equal length) in Hps.
  rewrite length_seq in Hps. rewrite <- Hps.
  by rewrite (count_layers nin nouts (length nouts) 0 ls).
Qed.

(** X10. [Neuron(nin, nonlin)] never fails. It builds [max(nin, 0) + 1] new
    leaves, with gradient [0.0]: the weights, which hold the next numbers of
    the generator in order, and then the bias, which holds the int [0]. The
    neuron refers to these objects, and nothing else in the store changes. *)
Theorem neuron_init_builds_its_parameters (nin : Z) (nonlin : bool) (k : nat)
    (c : config) :
  ∃ c',
    Neuron.__init__ nin nonlin k c
    = (Ok (Neuron.mk (seq (length (store c)) (Z.to_nat nin))
             (length (store c) + Z.to_nat nin) nonlin,
           k + Z.to_nat nin), c')
    ∧ extends c c'
    ∧ length (store c') = length (store c) + Z.to_nat nin + 1
    ∧ (∀ j, j < Z.to_nat nin →
         store c' !! (length (store c) + j) = Some (leaf (PyFloat (uniform (k + j)))))
    ∧ store c' !! (length (store c) + Z.to_nat nin) = Some (leaf (PyInt 0)).
Proof.
  destruct (neuron_init_run nin nonlin k c) as (c' & new & Hrun & Hf & Hlen & Hw & Hb).
  exists c'. split; [exact Hrun|]. pose proof (fresh_leaves_extends _ _ _ _ Hf) as Hext.
  destruct Hf as (-> & _ & _). cbn [store]. split_and!.
  - exact Hext.
  - rewrite length_app, Hlen. lia.
  - intros j Hj. rewrite lookup_app_r by lia.
    replace (length (store c) + j - length (store c)) with j by lia. by apply Hw.
  - rewrite lookup_app_r by lia.
    by replace (length (store c) + Z.to_nat nin - length (store c)) with (Z.to_nat nin)
      by lia.
Qed.

Lemma fresh_leaves_shaped (c c' : config) (ps : list ref) (new : list Value) :
  fresh_leaves c c' ps new → shaped (store c) → shaped (store c').
Proof.
  intros (-> & _ & Hnew) Hs. cbn [store]. clear ps.
  induction new as [|v new IH] using rev_ind.
  - by rewrite app_nil_r.
  - apply Forall_app in Hnew as [Hnew [(d & -> & _) _]%Forall_cons].
    rewrite app_assoc. apply shaped_snoc; [by apply IH|]. by unfold shaped_node.
Qed.

Lemma mlp_init_keeps_shaped (nin : Z) (nouts : list Z) (k : nat) (c : config) :
  shaped (store c) → shaped (store (MLP.__init__ nin nouts k c).2).
Proof.
  intros Hs. destruct (mlp_init_run nin nouts k c) as (m & k' & c' & new & -> & Hf & _).
  by eapply fresh_leaves_shaped.
Qed.

(** X11. The architecture that [MLP(nin, nouts)] builds, which never fails:
    one layer for each element of [nouts]; layer [i] has [nouts[i]] neurons,
    each with as many weights as the layer before has neurons ([nin] for the
    first layer); the neurons of every layer but the last apply ReLU, those of
    the last layer are linear. (A negative size counts as zero, as [range]
    has it.) *)
Theorem mlp_init_architecture (nin : Z) (nouts : list Z) (k : nat) (c : config) :
  ∃ m k' c',
    MLP.__init__ nin nouts k c = (Ok (m, k'), c')
    ∧ length (MLP.layers m) = length nouts
    ∧ ∀ i l, MLP.layers m !! i = Some l →
        ∃ a b,
          ([nin] ++ nouts) !! i = Some a ∧ nouts !! i = Some b
          ∧ length (Layer.neurons l) = Z.to_nat b
          ∧ ∀ n, n ∈ Layer.neurons l →
              length (Neuron.w n) = Z.to_nat a
              ∧ Neuron.nonlin n = bool_decide (i + 1 ≠ length nouts).
Proof.
  destruct (mlp_init_run nin nouts k c) as (m & k' & c' & new & Hrun & _ & Hq & _).
  exists m, k', c'. split; [exact Hrun|].
  pose proof (Forall2_length _ _ _ Hq) as Hlen. rewrite length_seq in Hlen.
  split; [done|]. intros i l Hl.
  assert (seq 0 (length nouts) !! i = Some i) as Hi.
  { apply lookup_lt_Some in Hl. rewrite lookup_seq. split; [done | lia]. }
  destruct (Forall2_lookup_lr _ _ _ _ _ _ Hq Hi Hl) as (a & b & Ha & Hb & Hn & Hall & _).
  by exists a, b.
Qed.

(** X12. The parameters of [MLP(nin, nouts)] are exactly the objects that
    the constructor builds, in the order it builds them, each once: new
    leaves with gradient [0.0], and nothing else in the store changes. Their
    number is the sum over the layers of (inputs + 1) * neurons. *)
Theorem mlp_parameters_are_the_new_leaves (nin : Z) (nouts : list Z) (k : nat)
    (c : config) :
  ∃ m k' c',
    MLP.__init__ nin nouts k c = (Ok (m, k'), c')
    ∧ extends c c'
    ∧ parameters m
      = seq (length (store c)) (count_parameters ([nin] ++ nouts))
    ∧ length (store c') = length (store c) + count_parameters ([nin] ++ nouts)
    ∧ NoDup (parameters m)
    ∧ ∀ p, p ∈ parameters m → ∃ d, store c' !! p = Some (leaf d).
Proof.
  destruct (mlp_init_run nin nouts k c) as (m & k' & c' & new & Hrun & Hf & _ & Hlen).
  exists m, k', c'. split; [exact Hrun|].
  pose proof (fresh_leaves_extends _ _ _ _ Hf) as Hext.
  destruct Hf as (-> & Hps & Hleaves).
  unfold parameters, MLP_parameters. rewrite Hps, Hlen. cbn [store]. split_and!.
  - exact Hext.
  - done.
  - rewrite length_app. lia.
  - apply NoDup_seq.
  - intros p Hp. apply elem_of_seq in Hp as [Hp1 Hp2].
    rewrite lookup_app_r by lia.
    destruct (lookup_lt_is_Some_2 new (p - length (store c))) as [v Hv]; [lia|].
    rewrite Hv. rewrite Forall_forall in Hleaves.
    destruct (Hleaves v) as (d & -> & _); [by eapply list_elem_of_lookup_2|]. by exists d.
Qed.

End Construction.

(** ** The forward pass *)

(** The number that an argument of an operation stands for: the data of a
    [Value], or the number itself. *)
Definition number_of (st : list Value) (o : pyobj) : option pynum :=
  match o with
  | ObjValue r => data <$> st !! r
  | ObjNum n => Some n
  | ObjOther _ => None
  end.

Lemma number_of_extends (c c' : config) (o : pyobj) (d : pynum) :
  extends c c' → number_of (store c) o = Some d → number_of (store c') o = Some d.
Proof.
  intros Hext. destruct o as [r | n | ty]; simpl; [|done..].
  destruct (store c !! r) as [v|] eqn:Hv; [|done].
  by rewrite (extends_lookup _ _ _ _ Hext Hv).
Qed.

(** [((acc + w0*x0) + w1*x1) + ...], in Python's arithmetic, from the left. *)
Fixpoint weighted_sum (acc : pynum) (wxs : list (pynum * pynum)) : arith pynum :=
  match wxs with
  | [] => Fine acc
  | (w, x) :: rest =>
      match py_mul w x with
      | Fine p =>
          match py_add acc p with
          | Fine s => weighted_sum s rest
          | Fails e => Fails e
          end
      | Fails e => Fails e
      end
  end.

Section Forward.
Context {order : SetOrder}.

Lemma binop_run_number (op : pynum → pynum → arith pynum)
    (f : ref → ref → ref → closure) (tag : op_tag) (a b : ref) (da db : pynum)
    (c : config) :
  number_of (store c) (ObjValue a) = Some da →
  number_of (store c) (ObjValue b) = Some db →
  match op da db with
  | Fine p =>
      ∃ r c', binop_run op f tag a b c = (Ok r, c') ∧ extends c c'
              ∧ number_of (store c') (ObjValue r) = Some p
  | Fails e =>
      ∃ c', binop_run op f tag a b c = (Raise (exn_of_arith e), c') ∧ extends c c'
  end.
Proof.
  simpl. unfold binop_run. intros Ha Hb.
  destruct (store c !! a) as [va|]; [|done].
  destruct (store c !! b) as [vb|]; [|done].
  injection Ha as <-. injection Hb as <-.
  destruct (op (data va) (data vb)) as [p|e].
  - eexists _, _. split; [reflexivity|]. split; [apply extends_push|].
    by rewrite push_lookup_new.
  - eexists. split; [reflexivity | apply extends_refl].
Qed.

(** [w * x] for a [Value] [w] and a [Value] or a number [x]. *)
Lemma mul_run_number (w : ref) (x : pyobj) (dw dx : pynum) (c : config) :
  number_of (store c) (ObjValue w) = Some dw →
  number_of (store c) x = Some dx →
  match py_mul dw dx with
  | Fine p =>
      ∃ r c', __mul__ w x c = (Ok r, c') ∧ extends c c'
              ∧ number_of (store c') (ObjValue r) = Some p
  | Fails e =>
      ∃ c', __mul__ w x c = (Raise (exn_of_arith e), c') ∧ extends c c'
  end.
Proof.
  intros Hw Hx. destruct x as [r | n | ty]; [| |done].
  - rewrite mul_value. by apply binop_run_number.
  - rewrite mul_num. simpl in Hx. injection Hx as ->.
    pose proof (binop_run_number py_mul MulBackward OpMul w (length (store c)) dw dx
                  (push c (new_object dx NoBackward [] OpNone))) as Hrun.
    destruct (py_mul dw dx) as [p|e].
    + destruct Hrun as (r & c' & Hrun & Hext & Hr).
      { eapply number_of_extends; [apply extends_push | done]. }
      { simpl. by rewrite list_lookup_middle. }
      exists r, c'. split; [done|]. split; [|done].
      eapply extends_trans; [apply extends_push | done].
    + destruct Hrun as (c' & Hrun & Hext).
      { eapply number_of_extends; [apply extends_push | done]. }
      { simpl. by rewrite list_lookup_middle. }
      exists c'. split; [done|]. eapply extends_trans; [apply extends_push | done].
Qed.

(** The sum of the products, as [Neuron.__call__] computes it. *)
Lemma weighted_sum_run (ws : list ref) :
  ∀ (xs : list pyobj) (dw dx : list pynum) (start : ref) (acc : pynum) (c : config),
    Forall2 (λ r d, number_of (store c) (ObjValue r) = Some d) ws dw →
    Forall2 (λ o d, number_of (store c) o = Some d) (take (length ws) xs) dx →
    number_of (store c) (ObjValue start) = Some acc →
    match weighted_sum acc (zip dw dx) with
    | Fine s =>
        ∃ out c',
          py_sum ((λ '(wi, xi), __mul__ wi xi) <$> zip ws xs) start c = (Ok out, c')
          ∧ extends c c' ∧ number_of (store c') (ObjValue out) = Some s
    | Fails e =>
        ∃ c',
          py_sum ((λ '(wi, xi), __mul__ wi xi) <$> zip ws xs) start c
          = (Raise (exn_of_arith e), c')
          ∧ extends c c'
    end.
Proof.
  induction ws as [|w ws IH]; intros xs dw dx start acc c Hw Hx Hacc.
  { apply Forall2_nil_inv_l in Hw as ->. simpl.
    exists start, c. split; [done|]. split; [apply extends_refl | done]. }
  apply Forall2_cons_inv_l in Hw as (d & dw' & Hd & Hw' & ->).
  destruct xs as [|x xs].
  { apply Forall2_nil_inv_l in Hx as ->. simpl.
    exists start, c. split; [done|]. split; [apply extends_refl | done]. }
  cbn [length take] in Hx.
  apply Forall2_cons_inv_l in Hx as (e & dx' & He & Hx' & ->).
  cbn [zip zip_with weighted_sum fmap list_fmap].
  unfold py_sum. cbn [for_fold]. rewrite bind_run, bind_run.
  pose proof (mul_run_number w x d e c Hd He) as Hmul.
  destruct (py_mul d e) as [p|err].
  - destruct Hmul as (r & c1 & -> & Hext1 & Hr).
    rewrite add_value.
    pose proof (binop_run_number py_add AddBackward OpAdd start r acc p c1
                  (number_of_extends _ _ _ _ Hext1 Hacc) Hr) as Hadd.
    destruct (py_add acc p) as [s|err].
    + destruct Hadd as (t & c2 & -> & Hext2 & Ht).
      pose proof (extends_trans _ _ _ Hext1 Hext2) as Hext.
      specialize (IH xs dw' dx' t s c2).
      destruct (weighted_sum s (zip dw' dx')) as [s'|err].
      * destruct IH as (out & c3 & Hrun & Hext3 & Hout); try done.
        { eapply Forall2_impl; [exact Hw'|]. intros ? ?. by apply number_of_extends. }
        { eapply Forall2_impl; [exact Hx'|]. intros ? ?. by apply number_of_extends. }
        exists out, c3. split; [exact Hrun|]. split; [|done].
        by eapply extends_trans.
      * destruct IH as (c3 & Hrun & Hext3); try done.
        { eapply Forall2_impl; [exact Hw'|]. intros ? ?. by apply number_of_extends. }
        { eapply Forall2_impl; [exact Hx'|]. intros ? ?. by apply number_of_extends. }
        exists c3. split; [exact Hrun|]. by eapply extends_trans.
    + destruct Hadd as (c2 & -> & Hext2). exists c2. split; [done|].
      by eapply extends_trans.
  - destruct Hmul as (c1 & -> & Hext1). by exists c1.
Qed.

(** X13. The value of a neuron. On a list [xs] whose items, as far as there
    are weights, are [Value] objects or numbers, [Neuron.__call__] returns a
    [Value] that holds [((b + w0*x0) + w1*x1) + ...], the bias first and the
    products added from the left, in Python's arithmetic, and [max(0, .)] of
    it when the neuron is not linear; or it raises the error of that
    arithmetic. Weights and inputs are paired as [zip] pairs them: items of
    [xs] beyond the number of weights are never looked at, whatever they are,
    and weights beyond the length of [xs] are not used. *)
Theorem neuron_forward_value (self : Neuron.t) (xs : list pyobj) (c : config)
    (dw dx : list pynum) (db : pynum) :
  Forall2 (λ r d, number_of (store c) (ObjValue r) = Some d) (Neuron.w self) dw →
  number_of (store c) (ObjValue (Neuron.b self)) = Some db →
  Forall2 (λ o d, number_of (store c) o = Some d)
    (take (length (Neuron.w self)) xs) dx →
  match weighted_sum db (zip dw dx) with
  | Fine s =>
      ∃ out c',
        Neuron.__call__ self (Many xs) c = (Ok out, c')
        ∧ extends c c'
        ∧ number_of (store c') (ObjValue out)
          = Some (if Neuron.nonlin self then py_max_zero s else s)
  | Fails e =>
      ∃ c', Neuron.__call__ self (Many xs) c = (Raise (exn_of_arith e), c')
            ∧ extends c c'
  end.
Proof.
  intros Hw Hb Hx. unfold Neuron.__call__. rewrite bind_run.
  pose proof (weighted_sum_run (Neuron.w self) xs dw dx (Neuron.b self) db c Hw Hx Hb)
    as Hsum.
  destruct (weighted_sum db (zip dw dx)) as [s|e].
  - destruct Hsum as (act & c1 & -> & Hext & Hact).
    destruct (Neuron.nonlin self); [|by exists act, c1].
    rewrite relu_run. simpl in Hact.
    destruct (store c1 !! act) as [v|]; [|done]. injection Hact as <-.
    eexists _, _. split; [reflexivity|]. split.
    + eapply extends_trans; [exact Hext | apply extends_push].
    + cbn [number_of]. by rewrite push_lookup_new.
  - destruct Hsum as (c1 & -> & Hext). by exists c1.
Qed.

End Forward.

(** ** From layer to layer *)

Lemma for_fold_app {I S : Type} (l1 l2 : list I) (body : I → S → M S) (x : S)
    (c : config) :
  for_fold (l1 ++ l2) body x c = (y ← for_fold l1 body x; for_fold l2 body y) c.
Proof.
  revert x c. induction l1 as [|i l1 IH]; intros x c; [done|].
  cbn [app for_fold]. rewrite !bind_run.
  destruct (body i x c) as [[y|e|] c1]; [|done..]. rewrite IH. by rewrite bind_run.
Qed.

Lemma mapM_length {A B : Type} (f : A → M B) (l : list A) (c c' : config)
    (out : list B) :
  mapM f l c = (Ok out, c') → length out = length l.
Proof.
  revert c out. induction l as [|a l IH]; intros c out; cbn [mapM].
  - by intros [= <- <-].
  - rewrite bind_run. destruct (f a c) as [[b|e|] c1]; [|done..].
    rewrite bind_run. destruct (mapM f l c1) as [[bs|e|] c2] eqn:Hl; [|done..].
    intros [= <- <-]. simpl. f_equal. by eapply IH.
Qed.

(** The neurons [ns] called in turn on [x], from the configuration [c]: each
    on the configuration that the one before left. [rs] are the values they
    return, in order. *)
Inductive calls_in_turn {order : SetOrder} (x : activation)
    : list Neuron.t → config → list ref → config → Prop :=
  | calls_nil (c : config) : calls_in_turn x [] c [] c
  | calls_cons (n : Neuron.t) (ns : list Neuron.t) (r : ref) (rs : list ref)
      (c c1 c2 : config) :
      Neuron.__call__ n x c = (Ok r, c1) → calls_in_turn x ns c1 rs c2 →
      calls_in_turn x (n :: ns) c (r :: rs) c2.

Section Layers.
Context {order : SetOrder}.

(** The list comprehension [[n(x) for n in self.neurons]]. *)
Lemma mapM_calls_in_turn (x : activation) (ns : list Neuron.t) (c c' : config)
    (out : list ref) :
  mapM (λ n, Neuron.__call__ n x) ns c = (Ok out, c') ↔ calls_in_turn x ns c out c'.
Proof.
  revert c out. induction ns as [|n ns IH]; intros c out; cbn [mapM].
  - split; [intros [= <- <-]; constructor | by inversion 1].
  - rewrite bind_run. split.
    + destruct (Neuron.__call__ n x c) as [[r|e|] c1] eqn:Hn; [|done..].
      rewrite bind_run.
      destruct (mapM (M := M) (λ n, Neuron.__call__ n x) ns c1) as [[rs|e|] c2] eqn:Hns;
        [|done..].
      intros [= <- <-]. econstructor; [exact Hn|]. by apply IH.
    + inversion 1 as [|? ? r rs ? c1 ? Hn Hns]; subst. rewrite Hn, bind_run.
      apply IH in Hns. by rewrite Hns.
Qed.

(** A layer with a neuron, called on a single [Value]. *)
Lemma layer_on_a_value (self : Layer.t) (r : ref) (c : config) :
  Layer.neurons self ≠ [] →
  Layer.__call__ self (One r) c = (Raise TypeError, c).
Proof.
  unfold Layer.__call__. destruct (Layer.neurons self) as [|n ns]; [done|].
  intros _. by rewrite bind_run.
Qed.

Lemma layer_of_one_neuron (self : Layer.t) (x y : activation) (c c' : config) :
  length (Layer.neurons self) = 1 →
  Layer.__call__ self x c = (Ok y, c') → ∃ r, y = One r.
Proof.
  intros Hlen. unfold Layer.__call__. rewrite bind_run.
  destruct (mapM (M := M) (λ n, Neuron.__call__ n x) (Layer.neurons self) c)
    as [[out|e|] c1] eqn:Hrun; [|done..].
  apply mapM_length in Hrun. rewrite Hlen in Hrun.
  destruct out as [|r [|? ?]]; [done | | done]. intros [= <- <-]. by exists r.
Qed.

(** X14. What a layer returns. A layer calls its neurons in turn on the
    same input, each on the store that the one before left, and returns the
    [Value] that its neuron returned when it has exactly one neuron, and
    else the list of the values that its neurons returned, in their order,
    which is the empty list for a layer without neurons. *)
Theorem layer_output_shape (self : Layer.t) (x y : activation) (c c' : config) :
  Layer.__call__ self x c = (Ok y, c') →
  ∃ rs,
    calls_in_turn x (Layer.neurons self) c rs c'
    ∧ length rs = length (Layer.neurons self)
    ∧ (length (Layer.neurons self) = 1 → ∃ r, rs = [r] ∧ y = One r)
    ∧ (length (Layer.neurons self) ≠ 1 → y = Many (ObjValue <$> rs)).
Proof.
  intros Hrun. unfold Layer.__call__ in Hrun. rewrite bind_run in Hrun.
  destruct (mapM (M := M) (λ n, Neuron.__call__ n x) (Layer.neurons self) c)
    as [[out|e|] c1] eqn:Hmap; [|done..].
  injection Hrun as <- <-. pose proof (mapM_length _ _ _ _ _ Hmap) as Hlen.
  exists out. split; [by apply mapM_calls_in_turn|]. split; [done|]. split.
  - intros H1. rewrite H1 in Hlen. destruct out as [|r [|? ?]]; [done | | done].
    by exists r.
  - intros H1. rewrite <- Hlen in H1. by destruct out as [|r [|? ?]].
Qed.

(** A layer of one neuron, not the last, before a layer that has a neuron. *)
Lemma one_neuron_then_a_layer (pre post : list Layer.t) (l1 l2 : Layer.t)
    (x : activation) (c : config) :
  length (Layer.neurons l1) = 1 → Layer.neurons l2 ≠ [] →
  (∀ y, (for_fold (pre ++ l1 :: l2 :: post) Layer.__call__ x c).1 ≠ Ok y)
  ∧ ∀ z c1, for_fold (pre ++ [l1]) Layer.__call__ x c = (Ok z, c1) →
      for_fold (pre ++ l1 :: l2 :: post) Layer.__call__ x c = (Raise TypeError, c1).
Proof.
  intros H1 H2.
  assert (for_fold (pre ++ l1 :: l2 :: post) Layer.__call__ x c
          = (z ← for_fold (pre ++ [l1]) Layer.__call__ x;
             for_fold (l2 :: post) Layer.__call__ z) c) as ->.
  { by rewrite <- for_fold_app, <- app_assoc. }
  rewrite bind_run.
  assert (∀ z c1, for_fold (pre ++ [l1]) Layer.__call__ x c = (Ok z, c1) →
            for_fold (l2 :: post) Layer.__call__ z c1 = (Raise TypeError, c1)) as Hstop.
  { intros z c1 Hrun. rewrite for_fold_app, bind_run in Hrun.
    destruct (for_fold pre Layer.__call__ x c) as [[y|e|] c0]; [|done..].
    cbn [for_fold] in Hrun. rewrite bind_run in Hrun.
    destruct (Layer.__call__ l1 y c0) as [[z'|e|] c0'] eqn:Hl1; [|done..].
    injection Hrun as -> ->.
    destruct (layer_of_one_neuron l1 y z c0 c1 H1 Hl1) as [r ->].
    cbn [for_fold]. by rewrite bind_run, layer_on_a_value. }
  split.
  - intros y. destruct (for_fold (pre ++ [l1]) Layer.__call__ x c) as [[z|e|] c1];
      [|done..].
    by rewrite (Hstop z c1).
  - intros z c1 Hrun. rewrite Hrun. by apply Hstop.
Qed.

End Layers.

Section Networks.
Context {rnd : RandomSource} {order : SetOrder}.

(** X15. A hidden layer of one neuron makes the network unusable. When
    [nouts[i]] is 1 and [nouts[i+1]] is at least 1, no call of
    [MLP(nin, nouts)] returns: layer [i] hands its single [Value] to layer
    [i+1], not a list, and the first neuron of that layer raises [TypeError]
    when it iterates it (unless something was raised before). *)
Theorem hidden_layer_of_one_neuron_never_returns (nin : Z) (nouts : list Z)
    (i : nat) (width : Z) (k k' : nat) (c0 c0' : config) (m : MLP.t)
    (x : activation) (c : config) :
  nouts !! i = Some 1%Z → nouts !! (i + 1) = Some width → (1 ≤ width)%Z →
  MLP.__init__ nin nouts k c0 = (Ok (m, k'), c0') →
  (∀ y, (MLP.__call__ m x c).1 ≠ Ok y)
  ∧ ∀ z c1,
      for_fold (take (i + 1) (MLP.layers m)) Layer.__call__ x c = (Ok z, c1) →
      MLP.__call__ m x c = (Raise TypeError, c1).
Proof.
  intros Hi Hi1 Hwidth Hinit.
  destruct (mlp_init_run nin nouts k c0) as (m' & k1 & c1' & new & Hrun & _ & Hq & _).
  rewrite Hinit in Hrun. injection Hrun as <- <- <-.
  pose proof (Forall2_length _ _ _ Hq) as Hlen. rewrite length_seq in Hlen.
  assert (i + 1 < length nouts) as Hlt by (by eapply lookup_lt_Some).
  destruct (lookup_lt_is_Some_2 (MLP.layers m) i) as [l1 Hl1]; [lia|].
  destruct (lookup_lt_is_Some_2 (MLP.layers m) (i + 1)) as [l2 Hl2]; [lia|].
  assert (length (Layer.neurons l1) = 1) as H1.
  { assert (seq 0 (length nouts) !! i = Some i) as Hs
      by (rewrite lookup_seq; split; [done | lia]).
    destruct (Forall2_lookup_lr _ _ _ _ _ _ Hq Hs Hl1) as (a & b & _ & Hb & Hn & _).
    rewrite Hi in Hb. injection Hb as <-. by rewrite Hn. }
  assert (Layer.neurons l2 ≠ []) as H2.
  { assert (seq 0 (length nouts) !! (i + 1) = Some (i + 1)) as Hs
      by (rewrite lookup_seq; split; [done | lia]).
    destruct (Forall2_lookup_lr _ _ _ _ _ _ Hq Hs Hl2) as (a & b & _ & Hb & Hn & _).
    rewrite Hi1 in Hb. injection Hb as <-.
    intros Hnil. rewrite Hnil in Hn. simpl in Hn. lia. }
  assert (MLP.layers m = take i (MLP.layers m) ++ l1 :: l2 :: drop (i + 2) (MLP.layers m))
    as Hsplit.
  { rewrite <- (take_drop_middle (MLP.layers m) i l1 Hl1) at 1. do 2 f_equal.
    replace (i + 2) with (S (S i)) by lia.
    rewrite <- (drop_S (MLP.layers m) l2 (S i)); [done|].
    by rewrite <- Nat.add_1_r. }
  assert (take (i + 1) (MLP.layers m) = take i (MLP.layers m) ++ [l1]) as Htake.
  { rewrite Nat.add_1_r. by apply take_S_r. }
  unfold MLP.__call__. rewrite Htake.
  destruct (one_neuron_then_a_layer (take i (MLP.layers m))
              (drop (i + 2) (MLP.layers m)) l1 l2 x c H1 H2) as [Hnever Hraise].
  rewrite <- Hsplit in Hnever, Hraise. done.
Qed.

End Networks.

(** ** [zero_grad] *)

(** X16. [zero_grad] assigns the int [0] to the gradient of each parameter,
    in the order of [parameters], and does nothing else: the other
    attributes of the parameters and all the other objects, the gradients of
    the intermediate results among them, are as before. *)
Theorem zero_grad_resets_the_parameters {T : Type} `{Module T} (self : T)
    (c : config) :
  Forall (λ p, p < length (store c)) (parameters self) →
  ∃ c',
    zero_grad self c = (Ok tt, c')
    ∧ length (store c') = length (store c)
    ∧ (∀ i v, store c !! i = Some v →
         store c' !! i
         = Some (if bool_decide (i ∈ parameters self)
                 then with_grad (PyInt 0) v else v))
    ∧ trace c' = trace c ++ ((λ p, SetGrad p (PyInt 0)) <$> parameters self).
Proof.
  unfold zero_grad. generalize (parameters self) as ps. clear self. intros ps.
  revert c. induction ps as [|p ps IH]; intros c Hps.
  - exists c. split_and!; [done | done | | by rewrite app_nil_r].
    intros i v Hv. by rewrite bool_decide_eq_false_2 by apply not_elem_of_nil.
  - apply Forall_cons in Hps as [Hp Hps].
    destruct (lookup_lt_is_Some_2 (store c) p Hp) as [vp Hvp].
    set (c1 := mkConfig (<[p := with_grad (PyInt 0) vp]> (store c))
                 (trace c ++ [SetGrad p (PyInt 0)])).
    assert (assign_grad p (PyInt 0) c = (Ok tt, c1)) as Hstep.
    { unfold assign_grad. rewrite bind_run. unfold update. by rewrite Hvp. }
    destruct (IH c1) as (c' & Hrun & Hlen & Hst & Htr).
    { cbn [c1 store]. by rewrite length_insert. }
    exists c'. cbn [for_each]. rewrite bind_run, Hstep. split; [exact Hrun|].
    split; [by rewrite Hlen; cbn [c1 store]; rewrite length_insert|]. split.
    + intros i v Hv. destruct (decide (i = p)) as [-> | Hne].
      * rewrite (Hst p (with_grad (PyInt 0) vp))
          by (cbn [c1 store]; apply list_lookup_insert_eq; by eapply lookup_lt_Some).
        assert (v = vp) as -> by congruence.
        rewrite (bool_decide_eq_true_2 (p ∈ p :: ps)) by left.
        by destruct (bool_decide (p ∈ ps)).
      * rewrite (Hst i v) by (cbn [c1 store]; by rewrite list_lookup_insert_ne).
        rewrite (bool_decide_ext (i ∈ p :: ps) (i ∈ ps)); [done|].
        rewrite elem_of_cons. tauto.
    + rewrite Htr. cbn [c1 trace]. by rewrite <- app_assoc.
Qed.

(** ** The graph of a forward pass *)

(** A reference into the store, and an argument that refers into it. *)
Definition valid (c : config) (r : ref) : Prop := r < length (store c).

Definition valid_obj (c : config) (o : pyobj) : Prop :=
  match o with
  | ObjValue r => valid c r
  | _ => True
  end.

Definition valid_activation (c : config) (x : activation) : Prop :=
  match x with
  | Many xs => Forall (valid_obj c) xs
  | One r => valid c r
  end.

(** A computation that, on the store [c], builds a graph: it only adds
    objects, each as its operation builds it, follows no reference out of the
    store, and returns a result that satisfies [post]. *)
Definition builds {A : Type} {order : SetOrder} (c : config) (m : M A)
    (post : config → A → Prop) : Prop :=
  shaped (store (m c).2) ∧ extends c (m c).2 ∧ (m c).1 ≠ Undefined
  ∧ ∀ a, (m c).1 = Ok a → post (m c).2 a.

Lemma valid_extends (c c' : config) (r : ref) : extends c c' → valid c r → valid c' r.
Proof. intros Hext Hr. apply extends_length in Hext. unfold valid in *. lia. Qed.

Lemma valid_obj_extends (c c' : config) (o : pyobj) :
  extends c c' → valid_obj c o → valid_obj c' o.
Proof. destruct o; simpl; [apply valid_extends | done..]. Qed.

Section Graph.
Context {order : SetOrder}.

Lemma builds_ret {A : Type} (c : config) (a : A) (post : config → A → Prop) :
  shaped (store c) → post c a → builds c (mret a) post.
Proof.
  intros Hs Hp. split_and!; [done | apply extends_refl | done |].
  by intros a' [= <-].
Qed.

Lemma builds_raise {A : Type} (c : config) (e : exn) (post : config → A → Prop) :
  shaped (store c) → builds c (raise e) post.
Proof. intros Hs. split_and!; [done | apply extends_refl | done | done]. Qed.

Lemma builds_bind {A B : Type} (c : config) (m : M A) (k : A → M B)
    (P : config → A → Prop) (Q : config → B → Prop) :
  builds c m P →
  (∀ a c1, m c = (Ok a, c1) → extends c c1 → P c1 a → builds c1 (k a) Q) →
  builds c (m ≫= k) Q.
Proof.
  intros (Hs & Hext & Hdef & Hpost) Hk. unfold builds. rewrite bind_run.
  destruct (m c) as [[a|e|] c1] eqn:Hrun; simpl in *; [| by split_and! | done].
  destruct (Hk a c1 eq_refl Hext (Hpost a eq_refl)) as (Hs2 & Hext2 & Hdef2 & Hpost2).
  split_and!; try done. by eapply extends_trans.
Qed.

Lemma builds_weaken {A : Type} (c : config) (m : M A) (P Q : config → A → Prop) :
  builds c m P → (∀ c' a, extends c c' → P c' a → Q c' a) → builds c m Q.
Proof.
  intros (Hs & Hext & Hdef & Hpost) HPQ. split_and!; try done.
  intros a Ha. apply HPQ; [done|]. by apply Hpost.
Qed.

Lemma binop_run_builds (op : pynum → pynum → arith pynum)
    (f : ref → ref → ref → closure) (tag : op_tag) (a b : ref) (c : config) :
  (tag = OpAdd ∧ f = AddBackward) ∨ (tag = OpMul ∧ f = MulBackward) →
  shaped (store c) → valid c a → valid c b →
  builds c (binop_run op f tag a b) valid.
Proof.
  intros Htag Hs Ha Hb. split_and!.
  - by apply binop_run_shaped.
  - apply binop_run_extends.
  - unfold binop_run.
    destruct (lookup_lt_is_Some_2 (store c) a Ha) as [va ->].
    destruct (lookup_lt_is_Some_2 (store c) b Hb) as [vb ->].
    by destruct (op (data va) (data vb)).
  - unfold binop_run.
    destruct (lookup_lt_is_Some_2 (store c) a Ha) as [va ->].
    destruct (lookup_lt_is_Some_2 (store c) b Hb) as [vb ->].
    destruct (op (data va) (data vb)); [|done].
    cbn [fst snd]. intros r [= <-]. unfold valid. rewrite push_length. lia.
Qed.

Lemma mul_builds (w : ref) (x : pyobj) (c : config) :
  shaped (store c) → valid c w → valid_obj c x → builds c (__mul__ w x) valid.
Proof.
  intros Hs Hw Hx. destruct x as [r | n | ty].
  - unfold builds. rewrite mul_value. apply binop_run_builds; auto.
  - unfold builds. rewrite mul_num.
    destruct (binop_run_builds py_mul MulBackward OpMul w (length (store c))
                (push c (new_object n NoBackward [] OpNone)))
      as (Hs1 & Hext1 & Hdef1 & Hpost1); auto.
    + apply (init_keeps_shaped n "" c Hs).
    + unfold valid. rewrite push_length. unfold valid in Hw. lia.
    + unfold valid. rewrite push_length. lia.
    + split_and!; try done. eapply extends_trans; [apply extends_push | done].
  - unfold builds. rewrite mul_other. by apply builds_raise.
Qed.

Lemma add_builds (a b : ref) (c : config) :
  shaped (store c) → valid c a → valid c b →
  builds c (__add__ a (ObjValue b)) valid.
Proof.
  intros Hs Ha Hb. unfold builds. rewrite add_value. apply binop_run_builds; auto.
Qed.

Lemma relu_builds (a : ref) (c : config) :
  shaped (store c) → valid c a → builds c (relu a) valid.
Proof.
  intros Hs Ha. split_and!.
  - by apply relu_keeps_shaped.
  - apply relu_grows.
  - rewrite relu_run. by destruct (lookup_lt_is_Some_2 (store c) a Ha) as [va ->].
  - rewrite relu_run. destruct (lookup_lt_is_Some_2 (store c) a Ha) as [va ->].
    cbn [fst snd]. intros r [= <-]. unfold valid. rewrite push_length. lia.
Qed.

Lemma py_sum_builds (wxs : list (ref * pyobj)) (start : ref) (c : config) :
  shaped (store c) → valid c start →
  Forall (λ wx, valid c wx.1 ∧ valid_obj c wx.2) wxs →
  builds c (py_sum ((λ '(wi, xi), __mul__ wi xi) <$> wxs) start) valid.
Proof.
  revert start c. induction wxs as [|[w x] wxs IH]; intros start c Hs Hstart Hall.
  - by apply builds_ret.
  - apply Forall_cons in Hall as [[Hw Hx] Hall]. simpl in Hw, Hx.
    unfold py_sum. cbn [fmap list_fmap for_fold].
    eapply builds_bind.
    + eapply builds_bind; [by apply mul_builds|].
      intros p c1 Hrun Hext Hp. apply add_builds.
      * pose proof (mul_keeps_shaped w x c Hs) as Hs1. by rewrite Hrun in Hs1.
      * by eapply valid_extends.
      * done.
    + intros t c2 Hrun Hext Ht. apply IH; [|done|].
      * pose proof (keeps_bind shaped (__mul__ w x)
                      (λ i, __add__ start (ObjValue i))
                      (mul_keeps_shaped w x)
                      (λ i, add_keeps_shaped start (ObjValue i)) c Hs) as Hs2.
        by rewrite Hrun in Hs2.
      * eapply Forall_impl; [exact Hall|]. intros [w' x'] [Hw' Hx']. simpl in *.
        split; [by eapply valid_extends | by eapply valid_obj_extends].
Qed.

Lemma neuron_builds (self : Neuron.t) (x : activation) (c : config) :
  shaped (store c) → Forall (valid c) (Neuron.parameters self) →
  valid_activation c x →
  builds c (Neuron.__call__ self x) valid.
Proof.
  intros Hs Hps Hx. unfold Neuron.parameters in Hps.
  apply Forall_app in Hps as [Hw Hb]. rewrite Forall_singleton in Hb.
  destruct x as [xs | r]; [|by apply builds_raise].
  unfold Neuron.__call__. eapply builds_bind.
  - apply py_sum_builds; [done | done |].
    simpl in Hx. apply Forall_forall. intros [w x] Hwx.
    apply elem_of_zip_l in Hwx as Hw'. apply elem_of_zip_r in Hwx as Hx'.
    rewrite Forall_forall in Hw. rewrite Forall_forall in Hx. simpl. auto.
  - intros act c1 Hrun Hext Hact.
    assert (shaped (store c1)) as Hs1.
    { destruct (py_sum_builds (zip (Neuron.w self) xs) (Neuron.b self) c) as (Hs1 & _);
        [done | done | |].
      - simpl in Hx. apply Forall_forall. intros [w x] Hwx.
        apply elem_of_zip_l in Hwx as Hw'. apply elem_of_zip_r in Hwx as Hx'.
        rewrite Forall_forall in Hw. rewrite Forall_forall in Hx. simpl. auto.
      - by rewrite Hrun in Hs1. }
    destruct (Neuron.nonlin self); [by apply relu_builds | by apply builds_ret].
Qed.

Lemma valid_activation_extends (c c' : config) (x : activation) :
  extends c c' → valid_activation c x → valid_activation c' x.
Proof.
  intros Hext. destruct x as [xs | r]; simpl; [|by apply valid_extends].
  intros Hxs. eapply Forall_impl; [exact Hxs|]. intros o. by apply valid_obj_extends.
Qed.

Lemma mapM_builds {A : Type} (f : A → M ref) (l : list A) (c : config) :
  shaped (store c) →
  (∀ a c1, a ∈ l → extends c c1 → shaped (store c1) → builds c1 (f a) valid) →
  builds c (mapM f l) (λ c' out, Forall (valid c') out).
Proof.
  revert c. induction l as [|a l IH]; intros c Hs Hf.
  - apply builds_ret; [done | constructor].
  - cbn [mapM]. eapply builds_bind; [apply Hf; [by left | apply extends_refl | done]|].
    intros r c1 Hrun Hext Hr.
    assert (shaped (store c1)) as Hs1.
    { destruct (Hf a c) as (Hs1 & _); [by left | apply extends_refl | done|].
      by rewrite Hrun in Hs1. }
    eapply builds_bind.
    + apply IH; [done|]. intros a' c2 Ha' Hext2 Hs2. apply Hf; [by right | | done].
      by eapply extends_trans.
    + intros rs c2 Hrun2 Hext2 Hrs.
      assert (shaped (store c2)) as Hs2.
      { destruct (IH c1 Hs1) as (Hs2 & _).
        - intros a' c3 Ha' Hext3 Hs3. apply Hf; [by right | | done].
          by eapply extends_trans.
        - by rewrite Hrun2 in Hs2. }
      apply builds_ret; [done|]. constructor; [by eapply valid_extends | done].
Qed.

Lemma layer_builds (self : Layer.t) (x : activation) (c : config) :
  shaped (store c) → Forall (valid c) (Layer.parameters self) →
  valid_activation c x →
  builds c (Layer.__call__ self x) valid_activation.
Proof.
  intros Hs Hps Hx. unfold Layer.__call__.
  assert (builds c (mapM (λ n, Neuron.__call__ n x) (Layer.neurons self))
            (λ c' out, Forall (valid c') out)) as Hmap.
  { apply mapM_builds; [done|]. intros n c1 Hn Hext Hs1. apply neuron_builds; [done | |].
    - rewrite Forall_forall in Hps. apply Forall_forall. intros p Hp.
      eapply valid_extends; [exact Hext|]. apply Hps.
      unfold Layer.parameters. apply list_elem_of_bind. by exists n.
    - by eapply valid_activation_extends. }
  eapply builds_bind; [exact Hmap|].
  intros out c1 Hrun Hext Hout.
  apply builds_ret.
  - destruct Hmap as (Hs1 & _). by rewrite Hrun in Hs1.
  - destruct out as [|r [|r' out]]; cbn [valid_activation].
    + constructor.
    + by rewrite Forall_singleton in Hout.
    + apply Forall_fmap. eapply Forall_impl; [exact Hout | done].
Qed.

Lemma layers_build (ls : list Layer.t) (x : activation) (c : config) :
  shaped (store c) → Forall (valid c) (ls ≫= Layer.parameters) →
  valid_activation c x →
  builds c (for_fold ls Layer.__call__ x) valid_activation.
Proof.
  revert x c. induction ls as [|l ls IH]; intros x c Hs Hps Hx.
  - by apply builds_ret.
  - change ((l :: ls) ≫= Layer.parameters)
      with (Layer.parameters l ++ (ls ≫= Layer.parameters)) in Hps.
    apply Forall_app in Hps as [Hl Hls]. cbn [for_fold].
    pose proof (layer_builds l x c Hs Hl Hx) as Hlayer.
    eapply builds_bind; [exact Hlayer|].
    intros y c1 Hrun Hext Hy. apply IH; [| |done].
    + destruct Hlayer as (Hs1 & _). by rewrite Hrun in Hs1.
    + eapply Forall_impl; [exact Hls|]. intros p. by apply valid_extends.
Qed.

End Graph.

Section ForwardThenBackward.
Context {pow : PowerOp} {order : SetOrder}.


End ForwardThenBackward.

(** ** A forward pass on floats *)

Definition tame_ref (c : config) (r : ref) : Prop :=
  ∃ v, store c !! r = Some v ∧ tame (data v) = true.

Definition tame_obj (c : config) (o : pyobj) : Prop :=
  match o with
  | ObjValue r => tame_ref c r
  | ObjNum n => tame n = true
  | ObjOther _ => False
  end.

Lemma tame_arith (op : pynum → pynum → arith pynum) (a b : pynum) :
  op = py_add ∨ op = py_mul →
  tame a = true → tame b = true → ∃ s, op a b = Fine s ∧ tame s = true.
Proof.
  assert (float_of_int 0 = Fine 0%float) as Hzero by (vm_compute; reflexivity).
  intros [-> | ->]; destruct a as [x | x], b as [y | y]; simpl;
    rewrite ?bool_decide_eq_true; intros; subst; unfold float_op; simpl;
    rewrite ?Hzero; eexists; (split; [reflexivity | done]).
Qed.

Lemma tame_max_zero (d : pynum) : tame d = true → tame (py_max_zero d) = true.
Proof. intros Hd. unfold py_max_zero. by destruct (py_gt_zero d). Qed.

Lemma tame_ref_extends (c c' : config) (r : ref) :
  extends c c' → tame_ref c r → tame_ref c' r.
Proof.
  intros Hext (v & Hv & Ht). exists v. split; [|done]. by eapply extends_lookup.
Qed.

Lemma tame_obj_extends (c c' : config) (o : pyobj) :
  extends c c' → tame_obj c o → tame_obj c' o.
Proof. destruct o; simpl; [apply tame_ref_extends | done..]. Qed.

(** A computation that returns, having only added objects. *)
Definition returns {A : Type} (c : config) (m : M A) (post : config → A → Prop)
    : Prop :=
  ∃ a c', m c = (Ok a, c') ∧ extends c c' ∧ post c' a.

Lemma returns_bind {A B : Type} (c : config) (m : M A) (k : A → M B)
    (P : config → A → Prop) (Q : config → B → Prop) :
  returns c m P → (∀ a c1, extends c c1 → P c1 a → returns c1 (k a) Q) →
  returns c (m ≫= k) Q.
Proof.
  intros (a & c1 & Hrun & Hext & HP) Hk.
  destruct (Hk a c1 Hext HP) as (b & c2 & Hrun2 & Hext2 & HQ).
  exists b, c2. rewrite bind_run, Hrun. split; [done|]. split; [|done].
  by eapply extends_trans.
Qed.

Lemma returns_ret {A : Type} (c : config) (a : A) (post : config → A → Prop) :
  post c a → returns c (mret a) post.
Proof. intros HP. exists a, c. split; [done|]. split; [apply extends_refl | done]. Qed.

Section Floats.
Context {order : SetOrder}.

Lemma binop_run_returns (op : pynum → pynum → arith pynum)
    (f : ref → ref → ref → closure) (tag : op_tag) (a b : ref) (c : config) :
  op = py_add ∨ op = py_mul → tame_ref c a → tame_ref c b →
  returns c (binop_run op f tag a b) tame_ref.
Proof.
  intros Hop (va & Ha & Hta) (vb & Hb & Htb). unfold returns, binop_run.
  rewrite Ha, Hb. destruct (tame_arith op (data va) (data vb) Hop Hta Htb) as (s & -> & Hs).
  eexists _, _. split; [reflexivity|]. split; [apply extends_push|].
  eexists. split; [apply push_lookup_new | done].
Qed.

Lemma mul_returns (w : ref) (x : pyobj) (c : config) :
  tame_ref c w → tame_obj c x → returns c (__mul__ w x) tame_ref.
Proof.
  intros Hw Hx. destruct x as [r | n | ty]; [| |done].
  - unfold returns. rewrite mul_value. apply binop_run_returns; auto.
  - unfold returns. rewrite mul_num.
    destruct (binop_run_returns py_mul MulBackward OpMul w (length (store c))
                (push c (new_object n NoBackward [] OpNone)))
      as (r & c' & Hrun & Hext & Hr); [auto | | |].
    + eapply tame_ref_extends; [apply extends_push | done].
    + eexists. split; [apply push_lookup_new | done].
    + exists r, c'. split; [done|]. split; [|done].
      eapply extends_trans; [apply extends_push | done].
Qed.

Lemma add_returns (a b : ref) (c : config) :
  tame_ref c a → tame_ref c b → returns c (__add__ a (ObjValue b)) tame_ref.
Proof.
  intros Ha Hb. unfold returns. rewrite add_value. apply binop_run_returns; auto.
Qed.

Lemma relu_returns (a : ref) (c : config) :
  tame_ref c a → returns c (relu a) tame_ref.
Proof.
  intros (va & Ha & Hta). unfold returns. rewrite relu_run, Ha.
  eexists _, _. split; [reflexivity|]. split; [apply extends_push|].
  eexists. split; [apply push_lookup_new|]. by apply tame_max_zero.
Qed.

Lemma py_sum_returns (wxs : list (ref * pyobj)) (start : ref) (c : config) :
  tame_ref c start → Forall (λ wx, tame_ref c wx.1 ∧ tame_obj c wx.2) wxs →
  returns c (py_sum ((λ '(wi, xi), __mul__ wi xi) <$> wxs) start) tame_ref.
Proof.
  revert start c. induction wxs as [|[w x] wxs IH]; intros start c Hstart Hall.
  - by apply returns_ret.
  - apply Forall_cons in Hall as [[Hw Hx] Hall]. simpl in Hw, Hx.
    unfold py_sum. cbn [fmap list_fmap for_fold].
    eapply returns_bind.
    + eapply returns_bind; [by apply mul_returns|].
      intros p c1 Hext Hp. apply add_returns; [by eapply tame_ref_extends | done].
    + intros t c2 Hext Ht. apply IH; [done|].
      eapply Forall_impl; [exact Hall|]. intros [w' x'] [Hw' Hx']. simpl in *.
      split; [by eapply tame_ref_extends | by eapply tame_obj_extends].
Qed.

Lemma neuron_returns (self : Neuron.t) (xs : list pyobj) (c : config) :
  Forall (tame_ref c) (Neuron.parameters self) → Forall (tame_obj c) xs →
  returns c (Neuron.__call__ self (Many xs)) tame_ref.
Proof.
  intros Hps Hxs. unfold Neuron.parameters in Hps.
  apply Forall_app in Hps as [Hw Hb]. rewrite Forall_singleton in Hb.
  unfold Neuron.__call__. eapply returns_bind.
  - apply py_sum_returns; [done|].
    apply Forall_forall. intros [w x] Hwx.
    apply elem_of_zip_l in Hwx as Hw'. apply elem_of_zip_r in Hwx as Hx'.
    rewrite Forall_forall in Hw. rewrite Forall_forall in Hxs. simpl. auto.
  - intros act c1 Hext Hact.
    destruct (Neuron.nonlin self); [by apply relu_returns | by apply returns_ret].
Qed.

Lemma neurons_return (ns : list Neuron.t) (xs : list pyobj) (c : config) :
  Forall (tame_ref c) (ns ≫= Neuron.parameters) → Forall (tame_obj c) xs →
  returns c (mapM (λ n, Neuron.__call__ n (Many xs)) ns)
    (λ c' out, Forall (tame_ref c') out ∧ length out = length ns).
Proof.
  revert c. induction ns as [|n ns IH]; intros c Hps Hxs.
  - apply returns_ret. split; [constructor | done].
  - change ((n :: ns) ≫= Neuron.parameters)
      with (Neuron.parameters n ++ (ns ≫= Neuron.parameters)) in Hps.
    apply Forall_app in Hps as [Hn Hns]. cbn [mapM].
    eapply returns_bind; [by apply neuron_returns|].
    intros r c1 Hext Hr. eapply returns_bind.
    + apply IH.
      * eapply Forall_impl; [exact Hns|]. intros p. by apply tame_ref_extends.
      * eapply Forall_impl; [exact Hxs|]. intros o. by apply tame_obj_extends.
    + intros rs c2 Hext2 [Hrs Hlen]. apply returns_ret. split.
      * constructor; [by eapply tame_ref_extends | done].
      * simpl. by rewrite Hlen.
Qed.

Lemma layers_return (ls : list Layer.t) (xs : list pyobj) (c : config) :
  Forall (tame_ref c) (ls ≫= Layer.parameters) → Forall (tame_obj c) xs →
  (∀ i l, ls !! i = Some l → i + 1 < length ls → length (Layer.neurons l) ≠ 1) →
  returns c (for_fold ls Layer.__call__ (Many xs)) (λ _ _, True).
Proof.
  revert xs c. induction ls as [|l ls IH]; intros xs c Hps Hxs Hwide.
  - by apply returns_ret.
  - change ((l :: ls) ≫= Layer.parameters)
      with (Layer.parameters l ++ (ls ≫= Layer.parameters)) in Hps.
    apply Forall_app in Hps as [Hl Hls]. cbn [for_fold].
    pose proof (neurons_return (Layer.neurons l) xs c Hl Hxs) as Hout.
    destruct ls as [|l2 ls].
    + eapply returns_bind.
      * unfold Layer.__call__. eapply returns_bind; [exact Hout|].
        intros out c1 Hext _. by apply (returns_ret _ _ (λ _ _, True)).
      * intros y c1 _ _. by apply returns_ret.
    + assert (length (Layer.neurons l) ≠ 1) as Hl1
        by (apply (Hwide 0 l); [done | simpl; lia]).
      eapply (returns_bind _ _ _
                (λ c' y, ∃ ys, y = Many ys ∧ Forall (tame_obj c') ys)).
      * unfold Layer.__call__. eapply returns_bind; [exact Hout|].
        intros out c1 Hext [Hrs Hlen]. apply returns_ret.
        exists (ObjValue <$> out). split.
        { rewrite <- Hlen in Hl1. by destruct out as [|r [|? ?]]. }
        apply Forall_fmap. eapply Forall_impl; [exact Hrs | done].
      * intros y c1 Hext (ys & -> & Hys). apply IH; [|done|].
        { eapply Forall_impl; [exact Hls|]. intros p. by apply tame_ref_extends. }
        intros i l' Hi Hlt. apply (Hwide (S i) l'); [done | simpl in *; lia].
Qed.

(** X18. A forward pass on floats returns. When the parameters of a network
    and the items of the input list hold floats or the int [0] (as the
    parameters that the constructors build do), and no layer but the last
    has exactly one neuron, the call returns a result: no arithmetic error
    can occur, and no lengths are compared, so that an input list of any
    length will do. The objects that existed are untouched. *)
Theorem forward_pass_on_floats_returns (self : MLP.t) (xs : list pyobj)
    (c : config) :
  Forall (tame_ref c) (parameters self) → Forall (tame_obj c) xs →
  (∀ i l, MLP.layers self !! i = Some l → i + 1 < length (MLP.layers self) →
          length (Layer.neurons l) ≠ 1) →
  ∃ y c',
    MLP.__call__ self (Many xs) c = (Ok y, c')
    ∧ ∃ new, c' = mkConfig (store c ++ new) (trace c).
Proof.
  intros Hps Hxs Hwide.
  destruct (layers_return (MLP.layers self) xs c Hps Hxs Hwide)
    as (y & c' & Hrun & Hext & _).
  by exists y, c'.
Qed.

(** X19. A network as its constructor builds it, called on floats. When no
    element of [nouts] but the last is [1], [MLP(nin, nouts)] called on a
    list of floats or of objects that hold floats returns a result, whatever
    the numbers drawn for the weights, whatever [nin] and whatever the length
    of the list. *)
Theorem constructed_network_runs_on_floats {rnd : RandomSource} (nin : Z)
    (nouts : list Z) (k : nat) (xs : list pyobj) (c : config) :
  (∀ i n, nouts !! i = Some n → i + 1 < length nouts → n ≠ 1%Z) →
  Forall (tame_obj c) xs →
  ∃ m k' c' y c'',
    MLP.__init__ nin nouts k c = (Ok (m, k'), c')
    ∧ MLP.__call__ m (Many xs) c' = (Ok y, c'').
Proof.
  intros Hnouts Hxs.
  destruct (mlp_init_run nin nouts k c) as (m & k' & c' & new & Hrun & Hf & Hq & _).
  pose proof (fresh_leaves_extends _ _ _ _ Hf) as Hext.
  pose proof (Forall2_length _ _ _ Hq) as Hlen. rewrite length_seq in Hlen.
  destruct (layers_return (MLP.layers m) xs c') as (y & c'' & Hcall & _).
  - change (Forall (tame_ref c') (MLP.parameters m)).
    destruct Hf as (-> & -> & Hleaves).
    apply Forall_forall. intros p [Hp1 Hp2]%elem_of_seq. unfold tame_ref. cbn [store].
    rewrite lookup_app_r by lia.
    destruct (lookup_lt_is_Some_2 new (p - length (store c))) as [v Hv]; [lia|].
    rewrite Forall_forall in Hleaves.
    destruct (Hleaves v) as (d & -> & Hd); [by eapply list_elem_of_lookup_2|].
    by exists (leaf d).
  - eapply Forall_impl; [exact Hxs|]. intros o. by apply tame_obj_extends.
  - intros i l Hl Hlt.
    assert (seq 0 (length nouts) !! i = Some i) as Hi.
    { apply lookup_lt_Some in Hl. rewrite lookup_seq. split; [done | lia]. }
    destruct (Forall2_lookup_lr _ _ _ _ _ _ Hq Hi Hl) as (a & b & _ & Hb & -> & _).
    assert (b ≠ 1%Z) by (apply (Hnouts i b Hb); lia). lia.
  - by exists m, k', c', y, c''.
Qed.

End Floats.

(** ** The gradient of a linear neuron *)

(** The total before item [j] of the sum: the bias, then the sum that the
    item before left, the third of the three objects that an item adds to a
    store of length [L]. *)
Definition prev_sum (L : nat) (b : ref) (j : nat) : ref :=
  match j with
  | O => b
  | S j' => L + 3 * j' + 2
  end.

(** What the sum of a neuron adds to a store of length [L], for numbers
    [ns] as inputs: for item [j], the object made of the number, the
    product with the weight, and the sum with the total so far. *)
Definition weighted_graph {order : SetOrder} (st : list Value) (L : nat)
    (ws : list ref) (ns : list pynum) (b : ref) : Prop :=
  ∀ j w x, ws !! j = Some w → ns !! j = Some x →
    ∃ d e,
      st !! (L + 3 * j) = Some (leaf x)
      ∧ st !! (L + 3 * j + 1)
        = Some (new_object d (MulBackward w (L + 3 * j) (L + 3 * j + 1))
                  [w; L + 3 * j] OpMul)
      ∧ st !! (L + 3 * j + 2)
        = Some (new_object e (AddBackward (prev_sum L b j) (L + 3 * j + 1) (L + 3 * j + 2))
                  [prev_sum L b j; L + 3 * j + 1] OpAdd).

Record linear_graph {order : SetOrder} (st : list Value) (L : nat) (ws : list ref)
    (ns : list pynum) (b : ref) (n : nat) : Prop := {
  lg_n : n = length ws `min` length ns;
  lg_length : length st = L + 3 * n;
  lg_nodes : weighted_graph st L ws ns b;
  lg_params : ∀ p, p ∈ ws ++ [b] →
    p < L ∧ ∃ v, st !! p = Some v ∧ _prev v = [] ∧ _backward v = NoBackward;
  lg_nodup : NoDup (ws ++ [b])
}.

Lemma three_cases (L n u : nat) :
  L ≤ u < L + 3 * n →
  ∃ j, j < n ∧ (u = L + 3 * j ∨ u = L + 3 * j + 1 ∨ u = L + 3 * j + 2).
Proof.
  intros Hu. exists ((u - L) / 3).
  pose proof (Nat.div_mod_eq (u - L) 3).
  pose proof (Nat.mod_upper_bound (u - L) 3). lia.
Qed.

Section LinearNeuron.
Context {pow : PowerOp} {order : SetOrder}.

Lemma binop_run_ok (op : pynum → pynum → arith pynum)
    (f : ref → ref → ref → closure) (tag : op_tag) (a b r : ref) (c c1 : config) :
  binop_run op f tag a b c = (Ok r, c1) →
  ∃ d, r = length (store c)
       ∧ c1 = push c (new_object d (f a b (length (store c))) [a; b] tag).
Proof.
  unfold binop_run. destruct (store c !! a) as [s|]; [|done].
  destruct (store c !! b) as [o|]; [|done].
  destruct (op (data s) (data o)) as [x|e]; [|done].
  intros [= <- <-]. by exists x.
Qed.

(** The objects that the sum of a neuron builds. *)
Lemma py_sum_graph (ws : list ref) :
  ∀ (ns : list pynum) (b out : ref) (c c' : config),
    py_sum ((λ '(wi, xi), __mul__ wi xi) <$> zip ws (ObjNum <$> ns)) b c = (Ok out, c') →
    extends c c'
    ∧ length (store c') = length (store c) + 3 * (length ws `min` length ns)
    ∧ out = prev_sum (length (store c)) b (length ws `min` length ns)
    ∧ weighted_graph (store c') (length (store c)) ws ns b.
Proof.
  induction ws as [|w ws IH]; intros ns b out c c' Hrun.
  { injection Hrun as <- <-. simpl. split_and!; [apply extends_refl | lia | done |].
    by intros j w x Hw. }
  destruct ns as [|x ns].
  { injection Hrun as <- <-. simpl. split_and!; [apply extends_refl | lia | done |].
    by intros j w' x' _ Hx. }
  cbn [fmap list_fmap zip zip_with] in Hrun. unfold py_sum in Hrun.
  cbn [for_fold] in Hrun. rewrite bind_run, bind_run, mul_num in Hrun.
  replace (new_object x NoBackward [] OpNone) with (leaf x) in Hrun
    by (unfold new_object, leaf; by rewrite set_of_nil).
  destruct (binop_run py_mul MulBackward OpMul w (length (store c))
              (push c (leaf x))) as [[r|e|] c1] eqn:Hmul;
    [|done..].
  apply binop_run_ok in Hmul as (d & -> & ->).
  rewrite add_value in Hrun.
  match type of Hrun with
  | context [binop_run py_add AddBackward OpAdd b ?r ?c1] =>
      destruct (binop_run py_add AddBackward OpAdd b r c1) as [[t|e|] c2] eqn:Hadd;
        [|done..]
  end.
  apply binop_run_ok in Hadd as (e & -> & ->).
  fold (py_sum ((λ '(wi, xi), __mul__ wi xi) <$> zip ws (ObjNum <$> ns))) in Hrun.
  apply IH in Hrun as (Hext & Hlen & Hout & Hgraph).
  rewrite !push_length in *.
  set (P := new_object d (MulBackward w (length (store c)) (S (length (store c))))
              [w; length (store c)] OpMul) in *.
  set (S2 := new_object e (AddBackward b (S (length (store c))) (S (S (length (store c)))))
               [b; S (length (store c))] OpAdd) in *.
  assert (extends c (push (push (push c (leaf x)) P) S2)) as Hext3.
  { eapply extends_trans; [apply extends_push|].
    eapply extends_trans; apply extends_push. }
  cbn [length Nat.min]. set (n := length ws `min` length ns) in *.
  split_and!.
  - by eapply extends_trans.
  - lia.
  - rewrite Hout. destruct n; simpl; lia.
  - intros j w' x' Hw Hx. destruct j as [|j].
    + injection Hw as <-. injection Hx as <-. exists d, e.
      rewrite Nat.mul_0_r, !Nat.add_0_r. cbn [prev_sum].
      replace (length (store c) + 1) with (S (length (store c))) by lia.
      replace (length (store c) + 2) with (S (S (length (store c)))) by lia.
      split_and!; eapply extends_lookup; try exact Hext.
      * do 2 apply push_lookup_old. apply push_lookup_new.
      * apply push_lookup_old. apply push_lookup_at. by rewrite push_length.
      * apply push_lookup_at. by rewrite !push_length.
    + cbn in Hw, Hx. destruct (Hgraph j w' x' Hw Hx) as (d' & e' & H1 & H2 & H3).
      exists d', e'.
      replace (length (store c) + 3 * S j) with (S (S (S (length (store c)))) + 3 * j)
        by lia.
      replace (prev_sum (length (store c)) b (S j))
        with (prev_sum (S (S (S (length (store c))))) (S (S (length (store c)))) j)
        by (destruct j; simpl; lia).
      done.
Qed.

(** The objects of the graph of the sum: the parameters and what the sum
    built. *)
Definition in_graph (L : nat) (ws : list ref) (b : ref) (u : ref) : Prop :=
  u ∈ ws ++ [b] ∨ L ≤ u.

Lemma graph_at (st : list Value) (L : nat) (ws : list ref) (ns : list pynum)
    (b : ref) (n j : nat) :
  linear_graph st L ws ns b n → j < n →
  ∃ w x d e,
    ws !! j = Some w ∧ ns !! j = Some x ∧ w < L
    ∧ st !! (L + 3 * j) = Some (leaf x)
    ∧ st !! (L + 3 * j + 1)
      = Some (new_object d (MulBackward w (L + 3 * j) (L + 3 * j + 1))
                [w; L + 3 * j] OpMul)
    ∧ st !! (L + 3 * j + 2)
      = Some (new_object e (AddBackward (prev_sum L b j) (L + 3 * j + 1) (L + 3 * j + 2))
                [prev_sum L b j; L + 3 * j + 1] OpAdd).
Proof.
  intros [Hn Hlen Hnodes Hparams Hnd] Hj.
  destruct (lookup_lt_is_Some_2 ws j) as [w Hw]; [lia|].
  destruct (lookup_lt_is_Some_2 ns j) as [x Hx]; [lia|].
  destruct (Hnodes j w x Hw Hx) as (d & e & H1 & H2 & H3).
  exists w, x, d, e. split_and!; try done.
  apply Hparams. apply elem_of_app. left. by eapply list_elem_of_lookup_2.
Qed.

(** The inputs of an object of the graph. *)
Lemma graph_operands (st : list Value) (L : nat) (ws : list ref) (ns : list pynum)
    (b : ref) (n : nat) (u t : ref) :
  linear_graph st L ws ns b n → in_graph L ws b u → t ∈ operands st u →
  ∃ j w, j < n ∧ ws !! j = Some w
    ∧ ((u = L + 3 * j + 1 ∧ (t = w ∨ t = L + 3 * j))
       ∨ (u = L + 3 * j + 2 ∧ (t = prev_sum L b j ∨ t = L + 3 * j + 1))).
Proof.
  intros Hg Hu Ht. unfold operands in Ht. destruct Hu as [Hu | Hu].
  - destruct Hg as [_ _ _ Hparams _].
    destruct (Hparams u Hu) as (_ & v & Hv & Hprev & _).
    rewrite Hv, Hprev in Ht. by apply elem_of_nil in Ht.
  - destruct (st !! u) as [nu|] eqn:Hnu; [|by apply elem_of_nil in Ht].
    pose proof (lookup_lt_Some _ _ _ Hnu) as Hlt.
    assert (length st = L + 3 * n) as Hlen by (by destruct Hg).
    destruct (three_cases L n u) as (j & Hj & Hcase); [lia|].
    destruct (graph_at st L ws ns b n j Hg Hj)
      as (w & x & d & e & Hw & Hx & HwL & H1 & H2 & H3).
    exists j, w. split; [done|]. split; [done|].
    destruct Hcase as [-> | [-> | ->]].
    + rewrite H1 in Hnu. injection Hnu as <-. by apply elem_of_nil in Ht.
    + rewrite H2 in Hnu. injection Hnu as <-. cbn [new_object _prev] in Ht.
      rewrite set_of_elem, !elem_of_cons, elem_of_nil in Ht. left. tauto.
    + rewrite H3 in Hnu. injection Hnu as <-. cbn [new_object _prev] in Ht.
      rewrite set_of_elem, !elem_of_cons, elem_of_nil in Ht. right. tauto.
Qed.

Lemma graph_targets (st : list Value) (L : nat) (ws : list ref) (ns : list pynum)
    (b : ref) (n : nat) (u t : ref) :
  shaped st → linear_graph st L ws ns b n → in_graph L ws b u →
  t ∈ targets_at st u →
  ∃ j w, j < n ∧ ws !! j = Some w
    ∧ ((u = L + 3 * j + 1 ∧ (t = w ∨ t = L + 3 * j))
       ∨ (u = L + 3 * j + 2 ∧ (t = prev_sum L b j ∨ t = L + 3 * j + 1))).
Proof.
  intros Hs Hg Hu Ht. unfold targets_at in Ht.
  destruct (st !! u) as [nu|] eqn:Hnu; [|by apply elem_of_nil in Ht].
  apply (graph_operands st L ws ns b n u t Hg Hu). by eapply shaped_targets.
Qed.

Lemma in_graph_operands (st : list Value) (L : nat) (ws : list ref) (ns : list pynum)
    (b : ref) (n : nat) (u t : ref) :
  linear_graph st L ws ns b n → in_graph L ws b u → t ∈ operands st u →
  in_graph L ws b t.
Proof.
  intros Hg Hu Ht.
  destruct (graph_operands st L ws ns b n u t Hg Hu Ht)
    as (j & w & Hj & Hw & [[_ [-> | ->]] | [_ [-> | ->]]]).
  - left. apply elem_of_app. left. by eapply list_elem_of_lookup_2.
  - right. lia.
  - destruct j as [|j]; simpl.
    + left. apply elem_of_app. right. by apply list_elem_of_singleton.
    + right. lia.
  - right. lia.
Qed.

Lemma reachable_in_graph (st : list Value) (L : nat) (ws : list ref) (ns : list pynum)
    (b : ref) (n : nat) (r u : ref) :
  linear_graph st L ws ns b n → reachable st r u → in_graph L ws b r →
  in_graph L ws b u.
Proof.
  intros Hg Hr. induction Hr as [v | v c x Hc _ IH]; [done|].
  intros Hv. apply IH. by eapply in_graph_operands.
Qed.

Lemma sums_reachable (st : list Value) (L : nat) (ws : list ref) (ns : list pynum)
    (b : ref) (n i j : nat) :
  linear_graph st L ws ns b n → i ≤ j → j < n →
  reachable st (L + 3 * j + 2) (L + 3 * i + 2).
Proof.
  intros Hg. induction j as [|j IH]; intros Hi Hj.
  - assert (i = 0) as -> by lia. apply reach_self.
  - destruct (decide (i = S j)) as [-> | Hne]; [apply reach_self|].
    destruct (graph_at st L ws ns b n (S j) Hg Hj)
      as (w & x & d & e & _ & _ & _ & _ & _ & H3).
    apply (reach_step st _ (L + 3 * j + 2)); [|apply IH; lia].
    unfold operands. rewrite H3. cbn [new_object _prev prev_sum].
    rewrite set_of_elem. by left.
Qed.

Lemma product_reachable (st : list Value) (L : nat) (ws : list ref) (ns : list pynum)
    (b : ref) (n j : nat) :
  linear_graph st L ws ns b n → j < n →
  reachable st (L + 3 * j + 2) (L + 3 * j + 1).
Proof.
  intros Hg Hj.
  destruct (graph_at st L ws ns b n j Hg Hj) as (w & x & d & e & _ & _ & _ & _ & _ & H3).
  apply (reach_step st _ (L + 3 * j + 1)); [|apply reach_self].
  unfold operands. rewrite H3. cbn [new_object _prev].
  rewrite set_of_elem. right. by left.
Qed.

End LinearNeuron.

(** The pass from the last sum of a neuron, over the graph of [S m] items. *)
Section LinearNeuronPass.
Context {pow : PowerOp} {order : SetOrder}.
Variables (c1 c2 : config) (L m : nat) (ws : list ref) (ns : list pynum) (b : ref).
Variable topo : list ref.
Hypothesis Hs : shaped (store c1).
Hypothesis Hg : linear_graph (store c1) L ws ns b (S m).
Hypothesis Hback : backward (L + 3 * m + 2) c1 = (Ok topo, c2).

Lemma root_valid : L + 3 * m + 2 < length (store c1).
Proof. destruct Hg as [_ Hlen _ _ _]. lia. Qed.

Lemma after_pass (i : ref) (n0 : Value) :
  store c1 !! i = Some n0 → ∃ n', store c2 !! i = Some n' ∧ same_but_grad n0 n'.
Proof.
  pose proof (backward_frame c1 (L + 3 * m + 2) Hs) as Hf. rewrite Hback in Hf.
  destruct Hf as [_ Hsame]. intros Hi.
  destruct (Hsame i n0 Hi) as (n' & ? & ? & _). by exists n'.
Qed.

(** The one object of the graph that has [v] among its inputs is [u0], when
    the inputs of every object but [u0] differ from [v]. *)
Lemma consumer_of (v u0 : ref) :
  (∀ j w, j < S m → ws !! j = Some w →
     (v = w ∨ v = L + 3 * j → L + 3 * j + 1 = u0)
     ∧ (v = prev_sum L b j ∨ v = L + 3 * j + 1 → L + 3 * j + 2 = u0)) →
  ∀ u, reachable (store c1) (L + 3 * m + 2) u → u ≠ u0 →
       v ∉ targets_at (store c1) u.
Proof.
  intros H u Hu Hne Hin.
  assert (in_graph L ws b u) as Hin_graph.
  { eapply reachable_in_graph; [exact Hg | exact Hu |]. right. lia. }
  destruct (graph_targets _ _ _ _ _ _ _ _ Hs Hg Hin_graph Hin)
    as (j & w & Hj & Hw & [[-> Hv] | [-> Hv]]);
    destruct (H j w Hj Hw) as [H1 H2]; [by apply Hne, H1 | by apply Hne, H2].
Qed.

Lemma param_below (p : ref) : p ∈ ws ++ [b] → p < L.
Proof. destruct Hg as [_ _ _ Hparams _]. intros Hp. by apply Hparams. Qed.

Lemma bias_below : b < L.
Proof. apply param_below, elem_of_app. right. by apply list_elem_of_singleton. Qed.

Lemma weight_below (j : nat) (w : ref) : ws !! j = Some w → w < L.
Proof.
  intros Hw. apply param_below, elem_of_app. left. by eapply list_elem_of_lookup_2.
Qed.

Lemma weight_apart (i j : nat) (w : ref) :
  ws !! i = Some w → ws !! j = Some w → i = j.
Proof.
  destruct Hg as [_ _ _ _ Hnd]. apply NoDup_app in Hnd as (Hnd & _ & _).
  intros Hi Hj. by eapply NoDup_lookup.
Qed.

Lemma weight_not_bias (j : nat) : ws !! j = Some b → False.
Proof.
  destruct Hg as [_ _ _ _ Hnd]. apply NoDup_app in Hnd as (_ & Hnot & _).
  intros Hj. apply (Hnot b); [by eapply list_elem_of_lookup_2|].
  by apply list_elem_of_singleton.
Qed.

Lemma contributions_step (v u a a' : ref) (x y : pynum) :
  contributions v [Call u; AddGrad a x; AddGrad a' y]
  = (if decide (a = v) then [x] else []) ++ (if decide (a' = v) then [y] else []).
Proof. unfold contributions. simpl. by repeat case_decide. Qed.

Lemma one_added (g s : pynum) :
  g = PyInt 1 ∨ g = PyFloat 1 → py_add (PyFloat 0) g = Fine s → s = PyFloat 1.
Proof. intros [-> | ->]; vm_compute; by intros [= <-]. Qed.

(** The gradient of the sums, from the last one down. *)
Lemma sum_gradient (k : nat) :
  k ≤ m →
  ∃ v, store c2 !! (L + 3 * (m - k) + 2) = Some v
       ∧ grad v = (if decide (k = 0) then PyInt 1 else PyFloat 1).
Proof.
  induction k as [|k IH]; intros Hk.
  - rewrite Nat.sub_0_r. rewrite decide_True by done.
    apply (root_gradient c1 c2 _ topo Hs root_valid Hback).
  - destruct IH as (vu & Hvu & Hgu); [lia|].
    rewrite decide_False by done.
    replace (m - k) with (S (m - S k)) in Hvu by lia.
    set (j := m - S k) in *.
    destruct (graph_at _ _ _ _ _ _ j Hg)
      as (w & x & d & e & Hw & Hx & HwL & _ & _ & H3); [lia|].
    destruct (graph_at _ _ _ _ _ _ (S j) Hg)
      as (w' & x' & d' & e' & _ & _ & _ & _ & _ & H3'); [lia|].
    destruct (single_use c1 c2 (L + 3 * m + 2) (L + 3 * j + 2) (L + 3 * S j + 2)
                topo _ Hs root_valid Hback H3) as (v' & seg & Hv' & Hseg & Hacc).
    { lia. }
    { apply (sums_reachable _ _ _ _ _ _ (S j) m Hg); lia. }
    { apply consumer_of. intros i wi Hi Hwi. pose proof bias_below.
      pose proof (weight_below i wi Hwi). split; intros [Heq | Heq]; try lia.
      destruct i as [|i]; simpl in Heq; lia. }
    destruct (after_pass _ _ H3') as (n' & Hn' & _ & Hb' & _).
    rewrite Hvu in Hn'. injection Hn' as <-. cbn [new_object _backward prev_sum] in Hb'.
    rewrite (step_events_add _ _ _ _ _ _ Hvu Hb' Hseg) in Hacc.
    rewrite contributions_step, decide_True, decide_False in Hacc by lia.
    cbn [app accumulate] in Hacc. cbn [new_object grad] in Hacc.
    destruct (py_add (PyFloat 0) (grad vu)) as [s|] eqn:Hadd; [|done].
    injection Hacc as ->. exists v'. split; [done|].
    apply (one_added (grad vu)); [|done]. rewrite Hgu. case_decide; auto.
Qed.

Lemma sum_gradient_at (j : nat) :
  j ≤ m →
  ∃ v, store c2 !! (L + 3 * j + 2) = Some v
       ∧ grad v = (if decide (j = m) then PyInt 1 else PyFloat 1).
Proof.
  intros Hj. destruct (sum_gradient (m - j)) as (v & Hv & Hgv); [lia|].
  replace (m - (m - j)) with j in Hv by lia. exists v. split; [done|].
  rewrite Hgv. repeat case_decide; done || lia.
Qed.

(** The gradient of the products. *)
Lemma product_gradient (j : nat) :
  j ≤ m → ∃ v, store c2 !! (L + 3 * j + 1) = Some v ∧ grad v = PyFloat 1.
Proof.
  intros Hj. destruct (sum_gradient_at j Hj) as (vu & Hvu & Hgu).
  destruct (graph_at _ _ _ _ _ _ j Hg)
    as (w & x & d & e & Hw & Hx & HwL & _ & H2 & H3); [lia|].
  destruct (single_use c1 c2 (L + 3 * m + 2) (L + 3 * j + 1) (L + 3 * j + 2)
              topo _ Hs root_valid Hback H2) as (v' & seg & Hv' & Hseg & Hacc).
  { lia. }
  { apply (sums_reachable _ _ _ _ _ _ j m Hg); lia. }
  { apply consumer_of. intros i wi Hi Hwi. pose proof bias_below.
    pose proof (weight_below i wi Hwi). split; intros [Heq | Heq]; try lia.
    destruct i as [|i]; simpl in Heq; lia. }
  destruct (after_pass _ _ H3) as (n' & Hn' & _ & Hb' & _).
  rewrite Hvu in Hn'. injection Hn' as <-. cbn [new_object _backward] in Hb'.
  rewrite (step_events_add _ _ _ _ _ _ Hvu Hb' Hseg) in Hacc.
  pose proof bias_below.
  rewrite contributions_step, decide_False, decide_True in Hacc
    by (done || destruct j; simpl; lia).
  cbn [app accumulate] in Hacc. cbn [new_object grad] in Hacc.
  destruct (py_add (PyFloat 0) (grad vu)) as [s|] eqn:Hadd; [|done].
  injection Hacc as ->. exists v'. split; [done|].
  apply (one_added (grad vu)); [|done]. rewrite Hgu. case_decide; auto.
Qed.

(** The gradient of a weight: the old one plus the input times [1.0]. *)
Lemma weight_gradient (i : nat) (w : ref) (x : pynum) (v0 : Value) :
  ws !! i = Some w → ns !! i = Some x → store c1 !! w = Some v0 →
  ∃ t v', py_mul x (PyFloat 1) = Fine t ∧ store c2 !! w = Some v'
          ∧ py_add (grad v0) t = Fine (grad v') ∧ data v' = data v0.
Proof.
  intros Hw Hx Hv0.
  assert (i ≤ m) as Hi.
  { apply lookup_lt_Some in Hw, Hx. destruct Hg as [Hn _ _ _ _]. lia. }
  destruct (product_gradient i Hi) as (vu & Hvu & Hgu).
  destruct (graph_at _ _ _ _ _ _ i Hg)
    as (w' & x' & d & e & Hw' & Hx' & HwL & H1 & H2 & H3); [lia|].
  rewrite Hw in Hw'. injection Hw' as <-. rewrite Hx in Hx'. injection Hx' as <-.
  destruct (single_use c1 c2 (L + 3 * m + 2) w (L + 3 * i + 1)
              topo _ Hs root_valid Hback Hv0) as (v' & seg & Hv' & Hseg & Hacc).
  { lia. }
  { eapply reachable_trans; [apply (sums_reachable _ _ _ _ _ _ i m Hg); lia|].
    apply (product_reachable _ _ _ _ _ _ i Hg). lia. }
  { apply consumer_of. intros j wj Hj Hwj. pose proof bias_below.
    split; intros [Heq | Heq]; try lia.
    - subst wj. by rewrite (weight_apart _ _ _ Hw Hwj).
    - destruct j as [|j]; simpl in Heq; [|lia]. subst w.
      by destruct (weight_not_bias i). }
  destruct (after_pass _ _ H2) as (n' & Hn' & _ & Hb' & _).
  rewrite Hvu in Hn'. injection Hn' as <-. cbn [new_object _backward] in Hb'.
  destruct (after_pass _ _ H1) as (nx & Hnx & Hdx & _).
  destruct (after_pass _ _ Hv0) as (nw & Hnw & Hdw & _).
  rewrite Hv' in Hnw. injection Hnw as <-.
  destruct (step_events_mul _ _ _ _ _ _ _ _ Hvu Hb' Hv' Hnx Hseg)
    as (t & y & Ht & _ & ->).
  rewrite contributions_step, decide_True, decide_False in Hacc by lia.
  cbn [app accumulate] in Hacc.
  destruct (py_add (grad v0) t) as [s|] eqn:Hadd; [|done].
  injection Hacc as ->. rewrite Hdx, Hgu in Ht. cbn [leaf data] in Ht.
  by exists t, v'.
Qed.

(** The gradient of the bias: the old one plus the gradient of the first
    sum. *)
Lemma bias_gradient (v0 : Value) :
  store c1 !! b = Some v0 →
  ∃ v', store c2 !! b = Some v'
        ∧ py_add (grad v0) (if decide (m = 0) then PyInt 1 else PyFloat 1)
          = Fine (grad v')
        ∧ data v' = data v0.
Proof.
  intros Hv0. destruct (sum_gradient_at 0) as (vu & Hvu & Hgu); [lia|].
  rewrite Nat.mul_0_r, Nat.add_0_r in Hvu.
  destruct (graph_at _ _ _ _ _ _ 0 Hg)
    as (w & x & d & e & Hw & Hx & HwL & _ & _ & H3); [lia|].
  rewrite Nat.mul_0_r, !Nat.add_0_r in H3. cbn [prev_sum] in H3.
  pose proof bias_below as Hb.
  destruct (single_use c1 c2 (L + 3 * m + 2) b (L + 2)
              topo _ Hs root_valid Hback Hv0) as (v' & seg & Hv' & Hseg & Hacc).
  { lia. }
  { pose proof (sums_reachable _ _ _ _ _ _ 0 m Hg) as Hr.
    rewrite Nat.mul_0_r, Nat.add_0_r in Hr. apply Hr; lia. }
  { apply consumer_of. intros j wj Hj Hwj.
    split; intros [Heq | Heq]; try lia.
    - subst wj. by destruct (weight_not_bias j).
    - destruct j as [|j]; simpl in Heq; lia. }
  destruct (after_pass _ _ H3) as (n' & Hn' & _ & Hb' & _).
  rewrite Hvu in Hn'. injection Hn' as <-. cbn [new_object _backward] in Hb'.
  rewrite (step_events_add _ _ _ _ _ _ Hvu Hb' Hseg) in Hacc.
  rewrite contributions_step, decide_True, decide_False in Hacc by lia.
  cbn [app accumulate] in Hacc.
  destruct (py_add (grad v0) (grad vu)) as [s|] eqn:Hadd; [|done].
  injection Hacc as ->.
  destruct (after_pass _ _ Hv0) as (nb & Hnb & Hdb & _).
  rewrite Hv' in Hnb. injection Hnb as <-.
  exists v'. split; [done|]. split; [|done]. rewrite <- Hadd, Hgu.
  by repeat case_decide.
Qed.

End LinearNeuronPass.

Section LinearNeuronGradient.
Context {pow : PowerOp} {order : SetOrder}.

(** X20. The gradient of a linear neuron. Let the weights and the bias of a
    linear neuron be distinct leaves of a store built by the operations, and
    let the neuron be called on a list of numbers. When the call and then
    [backward] on its result return, whatever room the interpreter had for
    the recursion: if there is a weight and a number, the gradient of each
    weight that has an input is its old gradient plus that input times the
    float [1.0] (the input itself, when it is a float), and the gradient of
    the bias is its old gradient plus one: the int [1] when one product only
    was summed, the float [1.0] otherwise. If there is no weight or no
    number, the call returns the bias itself and builds nothing, and
    [backward] puts the int [1] in the place of the gradient that the bias
    had. The data of the parameters are unchanged. *)
Theorem linear_neuron_gradient (ws : list ref) (b : ref) (ns : list pynum)
    (room : nat) (c c1 c2 : config) (out : ref) (topo : list ref) :
  shaped (store c) →
  NoDup (ws ++ [b]) →
  Forall (λ p, ∃ v, store c !! p = Some v ∧ _op v = OpNone) (ws ++ [b]) →
  Neuron.__call__ (Neuron.mk ws b false) (Many (ObjNum <$> ns)) c = (Ok out, c1) →
  Stack.backward room out c1 = (Ok topo, c2) →
  (length ws `min` length ns ≠ 0 →
     (∀ i w x v, ws !! i = Some w → ns !! i = Some x → store c !! w = Some v →
        ∃ t v', py_mul x (PyFloat 1) = Fine t
                ∧ (∀ f, x = PyFloat f → t = PyFloat f)
                ∧ store c2 !! w = Some v'
                ∧ py_add (grad v) t = Fine (grad v') ∧ data v' = data v)
     ∧ (∀ v, store c !! b = Some v →
          ∃ v', store c2 !! b = Some v'
                ∧ py_add (grad v)
                    (if decide (length ws `min` length ns = 1) then PyInt 1
                     else PyFloat 1)
                  = Fine (grad v')
                ∧ data v' = data v))
  ∧ (length ws `min` length ns = 0 →
       out = b ∧ c1 = c
       ∧ ∀ v, store c !! b = Some v →
           ∃ v', store c2 !! b = Some v' ∧ grad v' = PyInt 1 ∧ data v' = data v).
Proof.
  intros Hs Hnd Hparams Hcall Hback.
  assert (shaped (store c1)) as Hs1.
  { pose proof (neuron_builds (Neuron.mk ws b false) (Many (ObjNum <$> ns)) c Hs)
      as (Hshaped & _).
    - unfold Neuron.parameters. cbn [Neuron.w Neuron.b].
      eapply Forall_impl; [exact Hparams|]. intros p (v & Hv & _).
      by eapply lookup_lt_Some.
    - cbn [valid_activation]. apply Forall_fmap. by apply Forall_true.
    - by rewrite Hcall in Hshaped. }
  unfold Neuron.__call__ in Hcall. cbn [Neuron.w Neuron.b Neuron.nonlin] in Hcall.
  rewrite bind_run in Hcall.
  destruct (py_sum _ b c) as [[act|e|] c'] eqn:Hsum; [|done..].
  injection Hcall as -> ->.
  apply py_sum_graph in Hsum as (Hext & Hlen & Hout & Hgraph).
  assert (b < length (store c)) as Hb.
  { rewrite Forall_forall in Hparams. destruct (Hparams b) as (v & Hv & _).
    - apply elem_of_app. right. by apply list_elem_of_singleton.
    - by eapply lookup_lt_Some. }
  assert (out < length (store c1)) as Hvalid.
  { rewrite Hout, Hlen. destruct (length ws `min` length ns); simpl; lia. }
  apply (stack_backward_returns room c1 c2 out topo (shaped_wf _ Hs1) Hvalid) in Hback.
  destruct (length ws `min` length ns) as [|m] eqn:Hn.
  { split; [done|]. intros _. cbn [prev_sum] in Hout. subst out.
    assert (c1 = c) as ->.
    { destruct Hext as [new ->]. cbn [store] in Hlen. rewrite length_app in Hlen.
      destruct new; [|simpl in Hlen; lia]. destruct c. simpl. by rewrite app_nil_r. }
    split_and!; [done | done |]. intros v Hv.
    destruct (root_gradient c c2 b topo Hs Hb Hback) as (v' & Hv' & Hg).
    exists v'. split_and!; [done | done |].
    pose proof (backward_frame c b Hs) as [_ Hsame]. rewrite Hback in Hsame.
    destruct (Hsame b v Hv) as (v'' & Hv'' & (Hd & _) & _).
    cbn [snd] in Hv''. by assert (v'' = v') as -> by congruence. }
  split; [|done]. intros _.
  cbn [prev_sum] in Hout. subst out.
  assert (linear_graph (store c1) (length (store c)) ws ns b (S m)) as Hg.
  { split; [done | done | done | | done].
    intros p Hp. rewrite Forall_forall in Hparams.
    destruct (Hparams p Hp) as (v & Hv & Hop).
    split; [by eapply lookup_lt_Some|]. exists v.
    split; [by eapply extends_lookup|].
    pose proof (Hs p v Hv) as Hnode. unfold shaped_node in Hnode.
    by rewrite Hop in Hnode. }
  split.
  - intros i w x v Hw Hx Hv.
    destruct (weight_gradient c1 c2 (length (store c)) m ws ns b topo Hs1 Hg Hback
                i w x v Hw Hx (extends_lookup _ _ _ _ Hext Hv))
      as (t & v' & Ht & Hv' & Hadd & Hdata).
    exists t, v'. split_and!; try done.
    intros f ->. simpl in Ht. unfold float_op in Ht. simpl in Ht.
    rewrite float_mul_one in Ht. by injection Ht as <-.
  - intros v Hv.
    destruct (bias_gradient c1 c2 (length (store c)) m ws ns b topo Hs1 Hg Hback
                v (extends_lookup _ _ _ _ Hext Hv)) as (v' & Hv' & Hadd & Hdata).
    exists v'. split_and!; try done. rewrite <- Hadd.
    by repeat case_decide; try lia.
Qed.

End LinearNeuronGradient.

(** * Sample runs

    The theorems above, at the sample graph and at small networks built with
    the sample generator, sets iterating by insertion. *)

Lemma sample_config_shaped : @shaped insertion_order (store sample_config).
Proof. apply (@built_shaped int_power insertion_order), sample_config_built. Qed.

Lemma sample_config_wf : wf (store sample_config).
Proof. apply wf_check. vm_compute. reflexivity. Qed.

(** An object without operands reaches itself only. *)
Lemma leaf_reaches_itself (st : list Value) (v x : ref) :
  operands st v = [] → reachable st v x → x = v.
Proof.
  intros Hv Hr. inversion Hr as [|? d ? Hd _]; subst; [done|].
  rewrite Hv in Hd. by apply elem_of_nil in Hd.
Qed.

Lemma backward_leaves_the_rest_alone_witness :
  store (@backward int_power 2 sample_config).2 !! 3
  = Some (mkValue (PyInt 0) (PyFloat 0) (ReluBackward 0 3) "" [0] OpReLU)
  ∧ length (store (@backward int_power 2 sample_config).2)
    = length (store sample_config).
Proof.
  apply (@backward_leaves_the_rest_alone int_power insertion_order sample_config 2 3).
  - apply sample_config_shaped.
  - vm_compute. reflexivity.
  - intros H. apply (reachable_le _ _ _ sample_config_wf) in H. lia.
Defined.

Lemma sum_rule_witness :
  ∃ va' vb',
    store (@backward int_power 5
             (@__add__ insertion_order 0 (ObjValue 1) sample_config).2).2 !! 0 = Some va'
    ∧ store (@backward int_power 5
               (@__add__ insertion_order 0 (ObjValue 1) sample_config).2).2 !! 1 = Some vb'
    ∧ py_add (PyFloat 0) (PyInt 1) = Fine (grad va')
    ∧ py_add (PyFloat 0) (PyInt 1) = Fine (grad vb')
    ∧ data va' = PyFloat (-2) ∧ data vb' = PyFloat 3.
Proof.
  apply (@sum_rule int_power insertion_order sample_config
           (@__add__ insertion_order 0 (ObjValue 1) sample_config).2
           (@backward int_power 5
              (@__add__ insertion_order 0 (ObjValue 1) sample_config).2).2
           0 1 5
           (mkValue (PyFloat (-2)) (PyFloat 0) NoBackward "" [] OpNone)
           (mkValue (PyFloat 3) (PyFloat 0) NoBackward "" [] OpNone)
           [0; 1; 5]).
  - apply sample_config_shaped.
  - vm_compute. reflexivity.
  - vm_compute. reflexivity.
  - intros H. apply (reachable_le _ _ _ sample_config_wf) in H. lia.
  - intros H. apply leaf_reaches_itself in H; [lia | vm_compute; reflexivity].
  - vm_compute. reflexivity.
  - vm_compute. reflexivity.
Defined.

Lemma product_rule_witness :
  ∃ va' vb',
    store (@backward int_power 5
             (@__mul__ insertion_order 0 (ObjValue 1) sample_config).2).2 !! 0 = Some va'
    ∧ store (@backward int_power 5
               (@__mul__ insertion_order 0 (ObjValue 1) sample_config).2).2 !! 1 = Some vb'
    ∧ py_add (PyFloat 0) (PyFloat 3) = Fine (grad va')
    ∧ py_add (PyFloat 0) (PyFloat (-2)) = Fine (grad vb')
    ∧ data va' = PyFloat (-2) ∧ data vb' = PyFloat 3.
Proof.
  apply (@product_rule int_power insertion_order sample_config
           (@__mul__ insertion_order 0 (ObjValue 1) sample_config).2
           (@backward int_power 5
              (@__mul__ insertion_order 0 (ObjValue 1) sample_config).2).2
           0 1 5
           (mkValue (PyFloat (-2)) (PyFloat 0) NoBackward "" [] OpNone)
           (mkValue (PyFloat 3) (PyFloat 0) NoBackward "" [] OpNone)
           [0; 1; 5]).
  - apply sample_config_shaped.
  - vm_compute. reflexivity.
  - vm_compute. reflexivity.
  - intros H. apply (reachable_le _ _ _ sample_config_wf) in H. lia.
  - intros H. apply leaf_reaches_itself in H; [lia | vm_compute; reflexivity].
  - vm_compute. reflexivity.
  - vm_compute. reflexivity.
Defined.

Lemma power_rule_witness :
  ∃ va' e w t,
    store (@backward int_power 5
             (@__pow__ int_power insertion_order 1 (ObjNum (PyInt 2)) sample_config).2).2
      !! 1 = Some va'
    ∧ py_sub (PyInt 2) (PyInt 1) = Fine e
    ∧ @py_pow int_power (PyFloat 3) e = Fine w
    ∧ py_mul (PyInt 2) w = Fine t
    ∧ py_add (PyFloat 0) t = Fine (grad va')
    ∧ data va' = PyFloat 3.
Proof.
  apply (@power_rule int_power insertion_order sample_config
           (@__pow__ int_power insertion_order 1 (ObjNum (PyInt 2)) sample_config).2
           (@backward int_power 5
              (@__pow__ int_power insertion_order 1 (ObjNum (PyInt 2)) sample_config).2).2
           1 5 (PyInt 2)
           (mkValue (PyFloat 3) (PyFloat 0) NoBackward "" [] OpNone)
           [1; 5]).
  - apply sample_config_shaped.
  - vm_compute. reflexivity.
  - vm_compute. reflexivity.
  - vm_compute. reflexivity.
Defined.

Lemma relu_rule_witness :
  ∃ va',
    store (@backward int_power 5 (@relu insertion_order 1 sample_config).2).2 !! 1
    = Some va'
    ∧ py_add (PyFloat 0) (PyInt (if py_gt_zero (PyFloat 3) then 1 else 0))
      = Fine (grad va')
    ∧ data va' = PyFloat 3.
Proof.
  apply (@relu_rule int_power insertion_order sample_config
           (@relu insertion_order 1 sample_config).2
           (@backward int_power 5 (@relu insertion_order 1 sample_config).2).2
           1 5 (mkValue (PyFloat 3) (PyFloat 0) NoBackward "" [] OpNone) [1; 5]).
  - apply sample_config_shaped.
  - vm_compute. reflexivity.
  - vm_compute. reflexivity.
  - vm_compute. reflexivity.
Defined.

Lemma negation_value_and_gradient_witness :
  ∃ c1 vout,
    @__neg__ insertion_order 0 sample_config = (Ok (S (length (store sample_config))), c1)
    ∧ length (store c1) = S (S (length (store sample_config)))
    ∧ store c1 !! S (length (store sample_config)) = Some vout
    ∧ data vout = py_neg (PyFloat (-2))
    ∧ ∀ topo c2,
        @backward int_power (S (length (store sample_config))) c1 = (Ok topo, c2) →
        ∃ va', store c2 !! 0 = Some va'
               ∧ py_add (PyFloat 0) (PyInt (-1)) = Fine (grad va')
               ∧ data va' = PyFloat (-2).
Proof.
  apply (@negation_value_and_gradient int_power insertion_order sample_config 0
           (mkValue (PyFloat (-2)) (PyFloat 0) NoBackward "" [] OpNone)).
  - apply sample_config_shaped.
  - vm_compute. reflexivity.
Defined.

Lemma gradient_is_complete_before_use_witness :
  contributions 3
    [AddGrad 0 (PyFloat 0); Call 2; AddGrad 0 (PyFloat 3); AddGrad 1 (PyFloat (-2));
     Call 1; Call 0] = [].
Proof.
  apply (@gradient_is_complete_before_use int_power insertion_order sample_config 4 3
           [Call 4; AddGrad 2 (PyInt 1); AddGrad 3 (PyInt 1)]).
  - apply sample_config_shaped.
  - vm_compute. lia.
  - vm_compute. reflexivity.
Defined.

Lemma backward_applies_the_chain_rule_witness :
  ∃ segs,
    mapM (step_events (pow := int_power)
            (store (backward (pow := int_power) 4 sample_config).2))
      (reverse [0; 1; 2; 3; 4]) = Some segs
    ∧ trace (backward (pow := int_power) 4 sample_config).2
      = trace sample_config ++ SetGrad 4 (PyInt 1) :: concat segs.
Proof.
  apply (backward_applies_the_chain_rule (pow := int_power) (order := insertion_order)
           sample_config _ 4).
  - apply sample_config_shaped.
  - vm_compute. lia.
  - vm_compute. reflexivity.
Defined.


(** A neuron with two inputs, built with the sample generator: the weights
    [0.5] and [-0.25] at 0 and 1, the bias at 2. *)
Definition sample_neuron : Neuron.t := Neuron.mk [0; 1] 2 true.

Definition sample_neuron_config : config :=
  (@Neuron.__init__ sample_draws insertion_order 2 true 0 start).2.

Lemma neuron_forward_value_witness :
  match weighted_sum (PyInt 0)
          (zip [PyFloat 0.5; PyFloat (-0.25)] [PyFloat 1; PyFloat 2]) with
  | Fine s =>
      ∃ out c',
        @Neuron.__call__ insertion_order sample_neuron
          (Many [ObjNum (PyFloat 1); ObjNum (PyFloat 2)]) sample_neuron_config
        = (Ok out, c')
        ∧ extends sample_neuron_config c'
        ∧ number_of (store c') (ObjValue out)
          = Some (if Neuron.nonlin sample_neuron then py_max_zero s else s)
  | Fails e =>
      ∃ c',
        @Neuron.__call__ insertion_order sample_neuron
          (Many [ObjNum (PyFloat 1); ObjNum (PyFloat 2)]) sample_neuron_config
        = (Raise (exn_of_arith e), c')
        ∧ extends sample_neuron_config c'
  end.
Proof.
  apply (@neuron_forward_value insertion_order sample_neuron
           [ObjNum (PyFloat 1); ObjNum (PyFloat 2)] sample_neuron_config
           [PyFloat 0.5; PyFloat (-0.25)] [PyFloat 1; PyFloat 2] (PyInt 0)).
  - repeat (constructor; [vm_compute; reflexivity|]). constructor.
  - vm_compute. reflexivity.
  - repeat (constructor; [vm_compute; reflexivity|]). constructor.
Defined.

Lemma layer_output_shape_witness :
  ∃ rs,
    @calls_in_turn insertion_order (Many [ObjNum (PyFloat 1); ObjNum (PyFloat 2)])
      (Layer.neurons (Layer.mk [sample_neuron])) sample_neuron_config rs
      (@Layer.__call__ insertion_order (Layer.mk [sample_neuron])
         (Many [ObjNum (PyFloat 1); ObjNum (PyFloat 2)]) sample_neuron_config).2
    ∧ length rs = length (Layer.neurons (Layer.mk [sample_neuron]))
    ∧ (length (Layer.neurons (Layer.mk [sample_neuron])) = 1 →
       ∃ r, rs = [r] ∧ One 9 = One r)
    ∧ (length (Layer.neurons (Layer.mk [sample_neuron])) ≠ 1 →
       One 9 = Many (ObjValue <$> rs)).
Proof.
  apply (@layer_output_shape insertion_order (Layer.mk [sample_neuron])
           (Many [ObjNum (PyFloat 1); ObjNum (PyFloat 2)]) (One 9) sample_neuron_config
           (@Layer.__call__ insertion_order (Layer.mk [sample_neuron])
              (Many [ObjNum (PyFloat 1); ObjNum (PyFloat 2)]) sample_neuron_config).2).
  vm_compute. reflexivity.
Defined.

(** [MLP(2, [1, 2])] and [MLP(2, [2, 1])], built with the sample generator. *)
Definition narrow_mlp : MLP.t :=
  MLP.mk [Layer.mk [Neuron.mk [0; 1] 2 true];
          Layer.mk [Neuron.mk [3] 4 false; Neuron.mk [5] 6 false]].

Definition sample_mlp : MLP.t :=
  MLP.mk [Layer.mk [Neuron.mk [0; 1] 2 true; Neuron.mk [3; 4] 5 true];
          Layer.mk [Neuron.mk [6; 7] 8 false]].

Definition sample_mlp_config : config :=
  (@MLP.__init__ sample_draws insertion_order 2 [2; 1]%Z 0 start).2.

Definition narrow_mlp_config : config :=
  (@MLP.__init__ sample_draws insertion_order 2 [1; 2]%Z 0 start).2.

Lemma hidden_layer_of_one_neuron_never_returns_witness :
  (∀ y, (@MLP.__call__ insertion_order narrow_mlp
           (Many [ObjNum (PyFloat 1); ObjNum (PyFloat 2)]) narrow_mlp_config).1 ≠ Ok y)
  ∧ ∀ z c1,
      for_fold (take (0 + 1) (MLP.layers narrow_mlp)) (@Layer.__call__ insertion_order)
        (Many [ObjNum (PyFloat 1); ObjNum (PyFloat 2)]) narrow_mlp_config
      = (Ok z, c1) →
      @MLP.__call__ insertion_order narrow_mlp
        (Many [ObjNum (PyFloat 1); ObjNum (PyFloat 2)]) narrow_mlp_config
      = (Raise TypeError, c1).
Proof.
  apply (@hidden_layer_of_one_neuron_never_returns sample_draws insertion_order
           2%Z [1; 2]%Z 0 2%Z 0 4 start narrow_mlp_config narrow_mlp).
  - reflexivity.
  - reflexivity.
  - lia.
  - vm_compute. reflexivity.
Defined.

Lemma zero_grad_resets_the_parameters_witness :
  ∃ c',
    zero_grad sample_mlp sample_mlp_config = (Ok tt, c')
    ∧ length (store c') = length (store sample_mlp_config)
    ∧ (∀ i v, store sample_mlp_config !! i = Some v →
         store c' !! i
         = Some (if bool_decide (i ∈ parameters sample_mlp)
                 then with_grad (PyInt 0) v else v))
    ∧ trace c'
      = trace sample_mlp_config ++ ((λ p, SetGrad p (PyInt 0)) <$> parameters sample_mlp).
Proof.
  apply (@zero_grad_resets_the_parameters MLP.t MLP_parameters sample_mlp
           sample_mlp_config).
  repeat (constructor; [vm_compute; lia|]). constructor.
Defined.


Lemma forward_pass_on_floats_returns_witness :
  ∃ y c',
    @MLP.__call__ insertion_order sample_mlp
      (Many [ObjNum (PyFloat 1); ObjNum (PyFloat 2); ObjNum (PyFloat 3)])
      sample_mlp_config = (Ok y, c')
    ∧ ∃ new, c' = mkConfig (store sample_mlp_config ++ new) (trace sample_mlp_config).
Proof.
  apply (@forward_pass_on_floats_returns insertion_order sample_mlp
           [ObjNum (PyFloat 1); ObjNum (PyFloat 2); ObjNum (PyFloat 3)]
           sample_mlp_config).
  - repeat (constructor; [eexists; split; vm_compute; reflexivity|]). constructor.
  - repeat constructor.
  - intros [|[|i]] l Hl Hlt; vm_compute in Hl, Hlt.
    + injection Hl as <-. vm_compute. lia.
    + lia.
    + lia.
Defined.

Lemma constructed_network_runs_on_floats_witness :
  ∃ m k' c' y c'',
    @MLP.__init__ sample_draws insertion_order 2 [2; 1]%Z 0 start = (Ok (m, k'), c')
    ∧ @MLP.__call__ insertion_order m
        (Many [ObjNum (PyFloat 1); ObjNum (PyFloat 2)]) c' = (Ok y, c'').
Proof.
  apply (constructed_network_runs_on_floats (rnd := sample_draws)
           (order := insertion_order) 2 [2; 1]%Z 0
           [ObjNum (PyFloat 1); ObjNum (PyFloat 2)] start).
  - intros [|[|i]] n Hn Hlt; vm_compute in Hn, Hlt.
    + by injection Hn as <-.
    + lia.
    + lia.
  - repeat constructor.
Defined.

Definition linear_neuron_forward : outcome ref * config :=
  @Neuron.__call__ insertion_order (Neuron.mk [0; 1] 2 false)
    (Many (ObjNum <$> [PyFloat 1; PyFloat 2])) sample_neuron_config.

Definition linear_neuron_backward : outcome (list ref) * config :=
  @Stack.backward int_power 1000 8 linear_neuron_forward.2.

Lemma sample_neuron_config_shaped : @shaped insertion_order (store sample_neuron_config).
Proof.
  intros [|[|[|i]]] n Hn; vm_compute in Hn; try done; injection Hn as <-; by split.
Qed.

Lemma linear_neuron_gradient_witness :
  (length [0; 1] `min` length [PyFloat 1; PyFloat 2] ≠ 0 →
     (∀ i w x v, [0; 1] !! i = Some w → [PyFloat 1; PyFloat 2] !! i = Some x →
        store sample_neuron_config !! w = Some v →
        ∃ t v', py_mul x (PyFloat 1) = Fine t
                ∧ (∀ f, x = PyFloat f → t = PyFloat f)
                ∧ store linear_neuron_backward.2 !! w = Some v'
                ∧ py_add (grad v) t = Fine (grad v') ∧ data v' = data v)
     ∧ (∀ v, store sample_neuron_config !! 2 = Some v →
          ∃ v', store linear_neuron_backward.2 !! 2 = Some v'
                ∧ py_add (grad v)
                    (if decide (length [0; 1] `min` length [PyFloat 1; PyFloat 2] = 1)
                     then PyInt 1 else PyFloat 1)
                  = Fine (grad v')
                ∧ data v' = data v))
  ∧ (length [0; 1] `min` length [PyFloat 1; PyFloat 2] = 0 →
       8 = 2 ∧ linear_neuron_forward.2 = sample_neuron_config
       ∧ ∀ v, store sample_neuron_config !! 2 = Some v →
           ∃ v', store linear_neuron_backward.2 !! 2 = Some v'
                 ∧ grad v' = PyInt 1 ∧ data v' = data v).
Proof.
  apply (@linear_neuron_gradient int_power insertion_order [0; 1] 2
           [PyFloat 1; PyFloat 2] 1000 sample_neuron_config linear_neuron_forward.2
           linear_neuron_backward.2 8 [2; 0; 3; 4; 5; 1; 6; 7; 8]).
  - apply sample_neuron_config_shaped.
  - apply (bool_decide_unpack _). vm_compute. reflexivity.
  - repeat (constructor; [eexists; split; vm_compute; reflexivity|]). constructor.
  - vm_compute. reflexivity.
  - vm_compute. reflexivity.
Defined.
